(** * RedInk backend (Node.js): outline parser, history store, image
    orchestrator and streaming provider clients.

    A shallow embedding of the TypeScript sources

    - [utils/textClient.ts]   ([OutlineService._parseOutline]),
    - [services/history.ts]   ([HistoryService]),
    - [services/image.ts]     ([ImageService]),
    - [generators/openaiCompatible.ts], [generators/imageApi.ts]
      (the chunk handler of the streaming chat call, the constructors),
    - [utils/textClient.ts]   ([TextChatClient], the retry decorator),
    - [routes/api.ts]         (the settings routes),

    followed by the properties of the specification that can be stated
    over it. *)

From Stdlib Require Import NArith ZArith QArith Lia Sorted.
From stdpp Require Import base option list strings gmap fin_maps pretty.

Set Default Proof Using "Type".

(* ===================================================================== *)
(** * JavaScript strings *)
(* ===================================================================== *)

(** A JavaScript string is a sequence of UTF-16 code units.  [trim], the
    regular-expression class [\S] and [split] all work on code units, so
    text that goes through them is modelled as [list N]. *)
Module Js.
Local Open Scope N_scope.

Definition jsstring := list N.

(** Literals are written as Rocq strings (UTF-8 bytes) and decoded to code
    units.  Code points above the BMP become a surrogate pair. *)
Fixpoint utf8_decode (bs : list N) : list N :=
  match bs with
  | [] => []
  | b0 :: r0 =>
    if b0 <? 128 then b0 :: utf8_decode r0
    else match r0 with
    | [] => [65533]
    | b1 :: r1 =>
      if b0 <? 224 then
        ((b0 mod 32) * 64 + b1 mod 64) :: utf8_decode r1
      else match r1 with
      | [] => [65533]
      | b2 :: r2 =>
        if b0 <? 240 then
          ((b0 mod 16) * 4096 + (b1 mod 64) * 64 + b2 mod 64) :: utf8_decode r2
        else match r2 with
        | [] => [65533]
        | b3 :: r3 =>
          let cp := (b0 mod 8) * 262144 + (b1 mod 64) * 4096
                    + (b2 mod 64) * 64 + b3 mod 64 in
          let v := cp - 65536 in
          (55296 + v / 1024) :: (56320 + v mod 1024) :: utf8_decode r3
        end
      end
    end
  end.

Definition utf16 (s : string) : jsstring :=
  utf8_decode (map (fun a => N.of_nat (Ascii.nat_of_ascii a)) (String.list_ascii_of_string s)).

(** ** White space

    ECMAScript [WhiteSpace] and [LineTerminator] code points: the set that
    [String.prototype.trim] strips and that the class [\s] matches. *)
Definition is_white (c : N) : bool :=
  (c =? 9) || (c =? 10) || (c =? 11) || (c =? 12) || (c =? 13) || (c =? 32)
  || (c =? 160) || (c =? 5760) || ((8192 <=? c) && (c <=? 8202))
  || (c =? 8232) || (c =? 8233) || (c =? 8239) || (c =? 8287)
  || (c =? 12288) || (c =? 65279).

Fixpoint trimStart (s : jsstring) : jsstring :=
  match s with
  | [] => []
  | c :: s' => if is_white c then trimStart s' else s
  end.

Definition trimEnd (s : jsstring) : jsstring :=
  reverse (trimStart (reverse s)).

(** [s.trim()] *)
Definition trim (s : jsstring) : jsstring := trimEnd (trimStart s).

(** ** Searching *)

Definition code_eqb (a b : N) : bool := a =? b.

(** [s.startsWith(p)] *)
Fixpoint startsWith (p s : jsstring) : bool :=
  match p, s with
  | [], _ => true
  | _ :: _, [] => false
  | a :: p', b :: s' => code_eqb a b && startsWith p' s'
  end.

(** [s.includes(p)] *)
Fixpoint includes (p s : jsstring) : bool :=
  startsWith p s ||
  match s with
  | [] => false
  | _ :: s' => includes p s'
  end.

(** ** Splitting

    [split] with a separator that never matches the empty string: scan from
    the left; at a position where the separator matches, close the current
    segment and resume after the match (matches do not overlap); the text
    after the last match is the last segment.  [m] decides whether the
    separator matches at the head of the remaining text and [len] is the
    length of a match.  [skip] counts the code units of the current match
    that are still to be consumed. *)
Fixpoint split_go (m : jsstring -> bool) (len skip : nat)
    (cur : jsstring) (s : jsstring) : list jsstring :=
  match s with
  | [] => [reverse cur]
  | c :: s' =>
    match skip with
    | S k => split_go m len k cur s'
    | O =>
      if m s then reverse cur :: split_go m len (pred len) [] s'
      else split_go m len 0 (c :: cur) s'
    end
  end.

(** Number of separator occurrences found by the same left-to-right scan. *)
Fixpoint count_go (m : jsstring -> bool) (len skip : nat) (s : jsstring) : nat :=
  match s with
  | [] => 0
  | _ :: s' =>
    match skip with
    | S k => count_go m len k s'
    | O => if m s then S (count_go m len (pred len) s') else count_go m len 0 s'
    end
  end.

(** [s.split(sep)] for a non-empty string separator. *)
Definition split_str (sep s : jsstring) : list jsstring :=
  split_go (startsWith sep) (length sep) 0 [] s.

Definition count_str (sep s : jsstring) : nat :=
  count_go (startsWith sep) (length sep) 0 s.

(** Case-insensitive comparison of a code unit with an ASCII pattern
    character, as the [i] flag does without the [u] flag: both are
    canonicalised by upper-casing, and a non-ASCII code unit is never
    canonicalised to an ASCII one. *)
Definition canonicalize (c : N) : N :=
  if (97 <=? c) && (c <=? 122) then c - 32 else c.

Fixpoint startsWith_i (p s : jsstring) : bool :=
  match p, s with
  | [], _ => true
  | _ :: _, [] => false
  | a :: p', b :: s' =>
    code_eqb (canonicalize a) (canonicalize b) && startsWith_i p' s'
  end.

(** [s.split(/sep/i)] for a literal, non-empty pattern. *)
Definition split_regex_i (sep s : jsstring) : list jsstring :=
  split_go (startsWith_i sep) (length sep) 0 [] s.

Definition count_regex_i (sep s : jsstring) : nat :=
  count_go (startsWith_i sep) (length sep) 0 s.

(** [s] has a match of [/sep/i] for a literal pattern [sep]. *)
Fixpoint includes_i (p s : jsstring) : bool :=
  startsWith_i p s ||
  match s with
  | [] => false
  | _ :: s' => includes_i p s'
  end.

End Js.

Import Js.


(* ===================================================================== *)
(** * Outline parser ([utils/textClient.ts]) *)
(* ===================================================================== *)

Module Outline.

(** [PageData.type].  The declared type is ['cover' | 'content' | 'summary'];
    at run time the field holds whatever the property lookup
    [typeMapping[typeCn]] returned, which for a key that is a member of
    [Object.prototype] is that inherited member (a function or object). *)
Inductive PageType :=
  | type_cover
  | type_content
  | type_summary
  | type_inherited (key : jsstring).

Record PageData := mkPage {
  index : nat;
  type : PageType;
  content : jsstring
}.

#[global] Instance PageType_eq_dec : EqDecision PageType.
Proof. solve_decision. Defined.
#[global] Instance PageData_eq_dec : EqDecision PageData.
Proof. solve_decision. Defined.

(** Length of the longest prefix without white space: what a greedy [\S+]
    consumes first. *)
Fixpoint nonwhite_run (s : jsstring) : nat :=
  match s with
  | [] => 0
  | c :: s' => if is_white c then 0 else S (nonwhite_run s')
  end.

(** Backtracking of [(\S+)\]]: try group lengths [n], [n-1], ..., [1] and
    take the first one that is followed by a closing bracket. *)
Fixpoint backtrack (n : nat) (rest : jsstring) : option jsstring :=
  match n with
  | O => None
  | S k =>
    match rest !! n with
    | Some c => if code_eqb c 93%N then Some (take n rest) else backtrack k rest
    | None => backtrack k rest
    end
  end.

(** [pageText.match(/^\[(\S+)\]/)]: the first capture group, when the
    expression matches. *)
Definition typeMatch (pageText : jsstring) : option jsstring :=
  match pageText with
  | c :: rest =>
    if code_eqb c 91%N then backtrack (nonwhite_run rest) rest else None
  | [] => None
  end.

(** Property names every object literal inherits from [Object.prototype]. *)
Definition object_prototype_keys : list jsstring :=
  map utf16
    ["constructor"; "__defineGetter__"; "__defineSetter__"; "hasOwnProperty";
     "__lookupGetter__"; "__lookupSetter__"; "isPrototypeOf";
     "propertyIsEnumerable"; "toString"; "valueOf"; "__proto__";
     "toLocaleString"].

(** The property lookup [typeMapping[typeCn]] on the object literal
    [{ '封面': 'cover', '内容': 'content', '总结': 'summary' }];
    [None] is [undefined]. *)
Definition typeMapping (typeCn : jsstring) : option PageType :=
  if decide (typeCn = utf16 "封面") then Some type_cover
  else if decide (typeCn = utf16 "内容") then Some type_content
  else if decide (typeCn = utf16 "总结") then Some type_summary
  else if decide (typeCn ∈ object_prototype_keys) then Some (type_inherited typeCn)
  else None.

(** The page type of a trimmed, non-empty segment.  Every value the lookup
    can return is truthy, so [|| 'content'] only replaces [undefined]. *)
Definition pageType (pageText : jsstring) : PageType :=
  match typeMatch pageText with
  | Some typeCn => default type_content (typeMapping typeCn)
  | None => type_content
  end.

(** The body of [pagesRaw.forEach((pageText, index) => ...)], from position
    [index] on; the result is the [pages] array. *)
Fixpoint forEach_pages (index : nat) (pagesRaw : list jsstring) : list PageData :=
  match pagesRaw with
  | [] => []
  | pageText :: rest =>
    match trim pageText with
    | [] => forEach_pages (S index) rest
    | c :: t =>
      mkPage index (pageType (c :: t)) (c :: t) :: forEach_pages (S index) rest
    end
  end.

(** The raw segments: split on [<page>] (any letter case) when the text
    contains the lower-case marker, on [---] otherwise. *)
Definition pagesRaw (outlineText : jsstring) : list jsstring :=
  if includes (utf16 "<page>") outlineText
  then split_regex_i (utf16 "<page>") outlineText
  else split_str (utf16 "---") outlineText.

Definition _parseOutline (outlineText : jsstring) : list PageData :=
  forEach_pages 0 (pagesRaw outlineText).

(** Number of page delimiters of a text: occurrences of the separator that
    [_parseOutline] splits on. *)
Definition delimiters (outlineText : jsstring) : nat :=
  if includes (utf16 "<page>") outlineText
  then count_regex_i (utf16 "<page>") outlineText
  else count_str (utf16 "---") outlineText.

(** A valid outline: every segment between delimiters has some content. *)
Definition valid_outline (outlineText : jsstring) : Prop :=
  Forall (fun seg => trim seg <> []) (pagesRaw outlineText).

#[global] Instance valid_outline_dec t : Decision (valid_outline t).
Proof. unfold valid_outline. apply _. Defined.

(** An outline text in the format the prompt asks for: the page texts,
    separated by a line that holds [<page>]. *)
Fixpoint join_pages (contents : list jsstring) : jsstring :=
  match contents with
  | [] => []
  | [c] => c
  | c :: rest => c ++ utf16 "
<page>
" ++ join_pages rest
  end.

(** The pages with the given texts, numbered from [index]. *)
Fixpoint pages_of (index : nat) (contents : list jsstring) : list PageData :=
  match contents with
  | [] => []
  | c :: rest => mkPage index (pageType c) c :: pages_of (S index) rest
  end.

End Outline.

(* ===================================================================== *)
(** * Runtime services *)
(* ===================================================================== *)

(** Binary data ([Buffer]): a sequence of bytes. *)
Definition Buffer := list N.

(** Library functions of the platform that the services call and whose
    result is not fixed by the repository: Unicode lower-casing,
    [Array.prototype.sort] with the file-name comparator of the directory
    scan (the comparator yields [NaN] on names without a numeric stem, so
    only the fact that sorting permutes is kept), and the image compressor
    built on [sharp], which returns some buffer for every input. *)
Class Platform := {
  toLowerCase : string -> string;
  sort_by_stem : list string -> list string;
  sort_by_stem_perm : forall l, Permutation (sort_by_stem l) l;
  compressImage : Buffer -> nat -> Buffer
}.

(** Truthiness of a string: only the empty string is falsy. *)
Definition truthy (s : string) : bool := bool_decide (s <> "").

(** Truthiness of an optional string: [undefined], [null] and the empty
    string are falsy. *)
Definition truthy_opt (s : option string) : bool :=
  match s with
  | Some s => truthy s
  | None => false
  end.

(** [hay.includes(needle)] on byte strings. *)
Fixpoint str_includes (needle hay : string) : bool :=
  String.prefix needle hay ||
  match hay with
  | EmptyString => false
  | String _ hay' => str_includes needle hay'
  end.

(** [name.endsWith(suffix)] *)
Definition endsWith (suffix name : string) : bool :=
  String.prefix (String.rev suffix) (String.rev name).

(** [Array.prototype.slice(start, end)] with integer arguments. *)
Definition slice {A} (start end_ : Z) (l : list A) : list A :=
  let len := Z.of_nat (length l) in
  let k := if (start <? 0)%Z then Z.max (len + start) 0 else Z.min start len in
  let final := if (end_ <? 0)%Z then Z.max (len + end_) 0 else Z.min end_ len in
  take (Z.to_nat (final - k)) (drop (Z.to_nat k) l).

(* ===================================================================== *)
(** * History store ([services/history.ts]) *)
(* ===================================================================== *)

(** The store lives in one directory: [index.json], one [<id>.json] per
    record and one sub-directory per task.  Record ids are UUIDs and task
    ids are directory names, so the three kinds of path never coincide and
    are kept in three maps.  File-system calls fail only for a missing
    file or directory. *)
Module History.
Import Outline.

(** The [outline] field of a record. *)
Module OutlineResult.
Record t := mk {
  outline : string;
  pages : option (list PageData);
  has_images : option bool
}.
End OutlineResult.

(** The [images] field of a record.  A hole of the [generated] array
    (left by an assignment beyond its end) is [None]. *)
Module Images.
Record t := mk {
  task_id : option string;
  generated : list (option string)
}.
End Images.

Module HistoryRecord.
Record t := mk {
  id : string;
  title : string;
  created_at : string;
  updated_at : string;
  outline : OutlineResult.t;
  images : Images.t;
  status : string;
  thumbnail : option string
}.
End HistoryRecord.

Module HistoryIndexRecord.
Record t := mk {
  id : string;
  title : string;
  created_at : string;
  updated_at : string;
  status : string;
  thumbnail : option string;
  page_count : nat;
  task_id : option string
}.
End HistoryIndexRecord.

Module HistoryListResult.
Record t := mk {
  records : list HistoryIndexRecord.t;
  total : nat;
  page : Z;
  page_size : Z;
  total_pages : option Z
}.
End HistoryListResult.

(** The argument [updates] of [updateRecord]; an absent field is [None]. *)
Module Updates.
Record t := mk {
  outline : option OutlineResult.t;
  images : option Images.t;
  status : option string;
  thumbnail : option string
}.
End Updates.

(** Content of a JSON file: a value of the expected shape, or text that
    [JSON.parse] rejects. *)
Inductive Json (A : Type) :=
  | parsed (a : A)
  | malformed.
Arguments parsed {A} a.
Arguments malformed {A}.

Record Store := mkStore {
  indexFile : option (Json (list HistoryIndexRecord.t));
  recordFiles : gmap string (Json HistoryRecord.t);
  taskDirs : gmap string (gmap string Buffer)
}.

Definition set_indexFile (f : option (Json (list HistoryIndexRecord.t))) (st : Store) : Store :=
  mkStore f (recordFiles st) (taskDirs st).
Definition set_recordFiles (f : gmap string (Json HistoryRecord.t)) (st : Store) : Store :=
  mkStore (indexFile st) f (taskDirs st).
Definition set_taskDirs (d : gmap string (gmap string Buffer)) (st : Store) : Store :=
  mkStore (indexFile st) (recordFiles st) d.

(** [outline.pages?.length || 0] *)
Definition pages_length (o : OutlineResult.t) : nat :=
  match OutlineResult.pages o with
  | Some ps => length ps
  | None => 0
  end.

(** [taskId || null] *)
Definition or_null (s : option string) : option string :=
  if truthy_opt s then s else None.

Definition _initIndex (st : Store) : Store :=
  match indexFile st with
  | None => set_indexFile (Some (parsed [])) st
  | Some _ => st
  end.

(** The [records] array of the index; empty when the file is missing or
    cannot be parsed. *)
Definition _loadIndex (st : Store) : list HistoryIndexRecord.t :=
  match indexFile st with
  | Some (parsed records) => records
  | _ => []
  end.

Definition _saveIndex (records : list HistoryIndexRecord.t) (st : Store) : Store :=
  set_indexFile (Some (parsed records)) st.

(** [createRecord]; [recordId] is the fresh UUID and [now] the time read. *)
Definition createRecord (recordId now : string)
    (topic : string) (outline : OutlineResult.t) (taskId : option string)
    (st : Store) : string * Store :=
  let record :=
    HistoryRecord.mk recordId topic now now outline
      (Images.mk (or_null taskId) []) "draft" None in
  let st := set_recordFiles (<[recordId := parsed record]> (recordFiles st)) st in
  let index := _loadIndex st in
  let index :=
    HistoryIndexRecord.mk recordId topic now now "draft" None
      (pages_length outline) (or_null taskId) :: index in
  (recordId, _saveIndex index st).

Definition getRecord (recordId : string) (st : Store) : option HistoryRecord.t :=
  match recordFiles st !! recordId with
  | Some (parsed record) => Some record
  | _ => None
  end.

(** The detail record after the assignments of [updateRecord]: a field of
    [updates] is taken when it is not [undefined]. *)
Definition apply_updates (now : string) (updates : Updates.t)
    (record : HistoryRecord.t) : HistoryRecord.t :=
  HistoryRecord.mk
    (HistoryRecord.id record)
    (HistoryRecord.title record)
    (HistoryRecord.created_at record)
    now
    (default (HistoryRecord.outline record) (Updates.outline updates))
    (default (HistoryRecord.images record) (Updates.images updates))
    (default (HistoryRecord.status record) (Updates.status updates))
    (match Updates.thumbnail updates with
     | Some t => Some t
     | None => HistoryRecord.thumbnail record
     end).

(** The index entry after the assignments of [updateRecord]: a field of
    [updates] is taken when it is truthy. *)
Definition patch_entry (now : string) (updates : Updates.t)
    (indexRecord : HistoryIndexRecord.t) : HistoryIndexRecord.t :=
  HistoryIndexRecord.mk
    (HistoryIndexRecord.id indexRecord)
    (HistoryIndexRecord.title indexRecord)
    (HistoryIndexRecord.created_at indexRecord)
    now
    (match Updates.status updates with
     | Some s => if truthy s then s else HistoryIndexRecord.status indexRecord
     | None => HistoryIndexRecord.status indexRecord
     end)
    (match Updates.thumbnail updates with
     | Some t => if truthy t then Some t else HistoryIndexRecord.thumbnail indexRecord
     | None => HistoryIndexRecord.thumbnail indexRecord
     end)
    (match Updates.outline updates with
     | Some o => pages_length o
     | None => HistoryIndexRecord.page_count indexRecord
     end)
    (match Updates.images updates with
     | Some im =>
       if truthy_opt (Images.task_id im) then Images.task_id im
       else HistoryIndexRecord.task_id indexRecord
     | None => HistoryIndexRecord.task_id indexRecord
     end).

(** [index.records.find(r => r.id === recordId)] followed by the in-place
    assignments to the entry found. *)
Fixpoint patch_first (recordId : string)
    (f : HistoryIndexRecord.t -> HistoryIndexRecord.t)
    (records : list HistoryIndexRecord.t) : list HistoryIndexRecord.t :=
  match records with
  | [] => []
  | r :: rest =>
    if decide (HistoryIndexRecord.id r = recordId) then f r :: rest
    else r :: patch_first recordId f rest
  end.

Definition updateRecord (now : string) (recordId : string)
    (updates : Updates.t) (st : Store) : bool * Store :=
  match getRecord recordId st with
  | None => (false, st)
  | Some record =>
    let record := apply_updates now updates record in
    let st := set_recordFiles (<[recordId := parsed record]> (recordFiles st)) st in
    let index := _loadIndex st in
    let index := patch_first recordId (patch_entry now updates) index in
    (true, _saveIndex index st)
  end.


Definition listRecords (page pageSize : Z) (status : option string)
    (st : Store) : HistoryListResult.t :=
  let records := _loadIndex st in
  let records :=
    match status with
    | Some s =>
      if truthy s then filter (fun r => HistoryIndexRecord.status r = s) records
      else records
    | None => records
    end in
  let total := length records in
  let start := ((page - 1) * pageSize)%Z in
  let end_ := (start + pageSize)%Z in
  HistoryListResult.mk (slice start end_ records) total page pageSize
    (if decide (pageSize = 0%Z) then None
     else Some (- ((- Z.of_nat total) / pageSize))%Z).


(** Result of [scanAndSyncTaskImages]. *)
Inductive ScanResult :=
  | scan_failed (error : string)
  | scan_synced (record_id task_id : string) (images_count : nat)
      (images : list string) (status : string)
  | scan_no_record (task_id : string) (images_count : nat) (images : list string).

(** The file names kept by the scan: no thumbnails, image extensions only. *)
Definition is_image_file (filename : string) : bool :=
  negb (String.prefix "thumb_" filename)
  && (endsWith ".png" filename || endsWith ".jpg" filename
      || endsWith ".jpeg" filename).

(** The loop that looks for the record of a task: the first index entry
    whose detail record names the task. *)
Fixpoint find_record_of_task (taskId : string)
    (records : list HistoryIndexRecord.t) (st : Store) : option string :=
  match records with
  | [] => None
  | rec :: rest =>
    match getRecord (HistoryIndexRecord.id rec) st with
    | Some recordDetail =>
      if decide (Images.task_id (HistoryRecord.images recordDetail) = Some taskId)
      then Some (HistoryIndexRecord.id rec)
      else find_record_of_task taskId rest st
    | None => find_record_of_task taskId rest st
    end
  end.

(** The status inferred by the scan from the two counts. *)
Definition scan_status (actualCount expectedCount : nat) : string :=
  if decide (actualCount = 0) then "draft"
  else if decide (expectedCount <= actualCount) then "completed"
  else "partial".

Definition scanAndSyncTaskImages `{Platform} (now : string) (taskId : string)
    (st : Store) : ScanResult * Store :=
  match taskDirs st !! taskId with
  | None => (scan_failed ("任务目录不存在: " +:+ taskId), st)
  | Some dir =>
    let files := (map_to_list dir).*1 in
    let imageFiles := sort_by_stem (List.filter is_image_file files) in
    match find_record_of_task taskId (_loadIndex st) st with
    | Some recordId =>
      match (if truthy recordId then getRecord recordId st else None) with
      | Some record =>
        let expectedCount := pages_length (HistoryRecord.outline record) in
        let actualCount := length imageFiles in
        let status := scan_status actualCount expectedCount in
        let '(_, st) :=
          updateRecord now recordId
            (Updates.mk None
               (Some (Images.mk (Some taskId) (map Some imageFiles)))
               (Some status)
               (head imageFiles)) st in
        (scan_synced recordId taskId (length imageFiles) imageFiles status, st)
      | None => (scan_no_record taskId (length imageFiles) imageFiles, st)
      end
    | None => (scan_no_record taskId (length imageFiles) imageFiles, st)
    end
  end.

(** ** Consistency of the index with the detail files *)

(** The denormalised fields of an index entry agree with a detail record. *)
Definition entry_matches (e : HistoryIndexRecord.t) (r : HistoryRecord.t) : Prop :=
  HistoryIndexRecord.status e = HistoryRecord.status r
  /\ HistoryIndexRecord.thumbnail e = HistoryRecord.thumbnail r
  /\ HistoryIndexRecord.updated_at e = HistoryRecord.updated_at r
  /\ HistoryIndexRecord.page_count e = pages_length (HistoryRecord.outline r)
  /\ HistoryIndexRecord.task_id e = Images.task_id (HistoryRecord.images r).

(** Every index entry has a detail file and agrees with it. *)
Definition index_consistent (st : Store) : Prop :=
  forall e, e ∈ _loadIndex st ->
    exists r, getRecord (HistoryIndexRecord.id e) st = Some r /\ entry_matches e r.

(** The ids of the index are pairwise different. *)
Definition index_unique (st : Store) : Prop :=
  NoDup (map HistoryIndexRecord.id (_loadIndex st)).

(** ** Sequences of store operations *)





(** Every field present in [updates] holds a truthy value. *)
Definition updates_truthy (updates : Updates.t) : Prop :=
  (forall s, Updates.status updates = Some s -> s <> "")
  /\ (forall t, Updates.thumbnail updates = Some t -> t <> "")
  /\ (forall im, Updates.images updates = Some im ->
        exists task_id, Images.task_id im = Some task_id /\ task_id <> "").

(** ** Statistics *)

(** A value of the [by_status] object of [getStatistics].  The object
    starts as [{}]; the read [byStatus[status]] of a name that is not an
    own property finds the member [Object.prototype] has under that name,
    if any, and [member + 1] is then the text of the member followed by
    ["1"].  [inherited_text member ones] is that text followed by [ones]
    digits. *)
Inductive StatusCount :=
  | counted (n : nat)
  | inherited_text (member : string) (ones : nat).

(** The names [Object.prototype] defines, apart from the accessor
    [__proto__]: writable data properties, so an assignment under one of
    them creates an own property. *)
Definition object_prototype_members : list string :=
  ["constructor"; "__defineGetter__"; "__defineSetter__"; "hasOwnProperty";
   "__lookupGetter__"; "__lookupSetter__"; "isPrototypeOf";
   "propertyIsEnumerable"; "toString"; "valueOf"; "toLocaleString"].

(** [record.status || 'draft'] *)
Definition status_or_draft (r : HistoryIndexRecord.t) : string :=
  if truthy (HistoryIndexRecord.status r) then HistoryIndexRecord.status r
  else "draft".

(** [byStatus[status] = (byStatus[status] || 0) + 1].  The setter of
    [__proto__] ignores a value that is not an object, so that assignment
    leaves [byStatus] as it is. *)
Definition count_status (byStatus : gmap string StatusCount) (status : string)
    : gmap string StatusCount :=
  match byStatus !! status with
  | Some (counted n) => <[status := counted (S n)]> byStatus
  | Some (inherited_text member ones) =>
    <[status := inherited_text member (S ones)]> byStatus
  | None =>
    if decide (status = "__proto__") then byStatus
    else if decide (status ∈ object_prototype_members)
    then <[status := inherited_text status 1]> byStatus
    else <[status := counted 1]> byStatus
  end.

(** [getStatistics]: the fields [total] and [by_status]. *)
Definition getStatistics (st : Store) : nat * gmap string StatusCount :=
  let records := _loadIndex st in
  (length records,
   fold_left (fun byStatus r => count_status byStatus (status_or_draft r))
     records ∅).

(** The numbers held by a [by_status] object, added up. *)
Definition counted_value (v : StatusCount) : nat :=
  match v with
  | counted n => n
  | inherited_text _ _ => 0
  end.

Definition sum_counts (byStatus : gmap string StatusCount) : nat :=
  map_fold (fun _ v acc => counted_value v + acc) 0 byStatus.

(** What [by_status] holds under a name after [n] entries were counted
    under it. *)
Definition by_status_entry (status : string) (n : nat) : option StatusCount :=
  if decide (n = 0) then None
  else if decide (status = "__proto__") then None
  else if decide (status ∈ object_prototype_members)
       then Some (inherited_text status n)
       else Some (counted n).

(** A status under which [getStatistics] keeps a number. *)
Definition plain_status (status : string) : Prop :=
  status <> "__proto__" /\ status ∉ object_prototype_members.

#[global] Instance plain_status_dec status : Decision (plain_status status).
Proof. unfold plain_status. apply _. Defined.

(** ** Scan of all tasks *)

(** Result of [scanAllTasks] (the history directory exists: the
    constructor creates it). *)
Module ScanAllResult.
Record t := mk {
  total_tasks : nat;
  synced : nat;
  failed : nat;
  orphan_tasks : list string;
  results : list ScanResult
}.
End ScanAllResult.

(** The loop over the directory listing [items].  An item that is not a
    directory is skipped.  [clock taskId] is the time read while the task
    is scanned. *)
Fixpoint scan_loop `{Platform} (clock : string -> string) (items : list string)
    (acc : ScanAllResult.t) (st : Store) : ScanAllResult.t * Store :=
  match items with
  | [] => (acc, st)
  | item :: rest =>
    match taskDirs st !! item with
    | None => scan_loop clock rest acc st
    | Some _ =>
      let '(result, st) := scanAndSyncTaskImages (clock item) item st in
      let '(ScanAllResult.mk total syncedCount failedCount orphanTasks results) :=
        acc in
      let acc :=
        match result with
        | scan_failed _ =>
          ScanAllResult.mk total syncedCount (S failedCount) orphanTasks
            (results ++ [result])
        | scan_no_record _ _ _ =>
          ScanAllResult.mk total syncedCount failedCount (orphanTasks ++ [item])
            (results ++ [result])
        | scan_synced _ _ _ _ _ =>
          ScanAllResult.mk total (S syncedCount) failedCount orphanTasks
            (results ++ [result])
        end in
      scan_loop clock rest acc st
    end
  end.

(** [scanAllTasks]; [items] is what [readdirSync] returns for the history
    directory, in the order the file system lists it.  [total_tasks] is
    [results.length], read when the loop is over. *)
Definition scanAllTasks `{Platform} (clock : string -> string)
    (items : list string) (st : Store) : ScanAllResult.t * Store :=
  let '(acc, st) := scan_loop clock items (ScanAllResult.mk 0 0 0 [] []) st in
  (ScanAllResult.mk (length (ScanAllResult.results acc)) (ScanAllResult.synced acc)
     (ScanAllResult.failed acc) (ScanAllResult.orphan_tasks acc)
     (ScanAllResult.results acc), st).

(** ** Paging and sequences that keep the index in step *)

(** The records [listRecords] pages through: the index, filtered when a
    truthy [status] is given. *)
Definition matching (status : option string) (st : Store)
    : list HistoryIndexRecord.t :=
  match status with
  | Some s =>
    if truthy s then filter (fun r => HistoryIndexRecord.status r = s) (_loadIndex st)
    else _loadIndex st
  | None => _loadIndex st
  end.



End History.


(* ===================================================================== *)
(** * Image orchestrator ([services/image.ts]) *)
(* ===================================================================== *)

Module Image.
Import Outline History.

(** ** Events *)

Inductive EventName :=
  | progress | complete | error | finish | retry_start | retry_finish.

#[global] Instance EventName_eq_dec : EqDecision EventName.
Proof. solve_decision. Defined.

(** A field value of the [data] object of an event. *)
Inductive Value :=
  | num (n : nat)
  | str (s : string)
  | flag (b : bool)
  | strs (l : list string)
  | nums (l : list nat).

#[global] Instance Value_eq_dec : EqDecision Value.
Proof. solve_decision. Defined.

(** The [data] object literal: its fields in the order written. *)
Definition EventData := list (string * Value).

Record ImageProgressEvent := mkEvent {
  event : EventName;
  data : EventData
}.

(** [data.key]; [None] is [undefined]. *)
Fixpoint field (key : string) (d : EventData) : option Value :=
  match d with
  | [] => None
  | (k, v) :: d' => if decide (k = key) then Some v else field key d'
  end.

(** ** Service state *)

Record TaskState := mkTaskState {
  ts_pages : list PageData;
  generated : gmap nat string;
  failed : gmap nat string;
  cover_image : option Buffer;
  full_outline : string;
  user_images : option (list Buffer);
  user_topic : string
}.

Module ProviderConfig.
Record t := mk {
  type : option string;
  default_aspect_ratio : option string;
  temperature : option Q;
  model : option string;
  default_size : option string;
  quality : option string;
  short_prompt : option bool;
  high_concurrency : option bool
}.
End ProviderConfig.

(** A prompt: the template and the values substituted for its
    placeholders ([{full_outline}] and [{user_topic}] only in the long
    template). *)
Record Prompt := mkPrompt {
  template : string;
  page_content : jsstring;
  page_type : PageType;
  prompt_outline : option string;
  prompt_topic : option string
}.

(** The argument object of [generator.generateImage]. *)
Module Kwargs.
Record t := mk {
  prompt : Prompt;
  aspectRatio : option string;
  temperature : option Q;
  model : option string;
  size : option string;
  quality : option string;
  referenceImage : option Buffer;
  referenceImages : option (list Buffer)
}.
End Kwargs.

(** The world outside the process: the clock, the UUID source, the image
    provider behind [generator.generateImage] (which answers with image
    bytes or throws an error with a message) and the passing of time in
    [setTimeout]. *)
Class External := {
  Env : Type;
  now : Env -> string * Env;
  uuidv4 : Env -> string * Env;
  generateImage : Kwargs.t -> Env -> (string + Buffer) * Env;
  wait : nat -> Env -> Env
}.

Record ImageService := mkService {
  providerConfig : ProviderConfig.t;
  useShortPrompt : bool;
  promptTemplate : string;
  promptTemplateShort : string;
  currentTaskDir : option string;
  taskStates : gmap string TaskState
}.

Definition set_currentTaskDir (d : option string) (s : ImageService) : ImageService :=
  mkService (providerConfig s) (useShortPrompt s) (promptTemplate s)
    (promptTemplateShort s) d (taskStates s).
Definition set_taskStates (t : gmap string TaskState) (s : ImageService) : ImageService :=
  mkService (providerConfig s) (useShortPrompt s) (promptTemplate s)
    (promptTemplateShort s) (currentTaskDir s) t.

Definition set_generated (g : gmap nat string) (t : TaskState) : TaskState :=
  mkTaskState (ts_pages t) g (failed t) (cover_image t) (full_outline t)
    (user_images t) (user_topic t).
Definition set_failed (f : gmap nat string) (t : TaskState) : TaskState :=
  mkTaskState (ts_pages t) (generated t) f (cover_image t) (full_outline t)
    (user_images t) (user_topic t).
Definition set_cover_image (c : option Buffer) (t : TaskState) : TaskState :=
  mkTaskState (ts_pages t) (generated t) (failed t) c (full_outline t)
    (user_images t) (user_topic t).

Section WithExternal.
Context `{Platform} `{External}.

(** The state the service works on: its own fields, the history directory
    it shares with [HistoryService], the outside world, and the list of
    requests sent to the generator so far (kept for the statements about
    what the generator is given). *)
Record World := mkWorld {
  service : ImageService;
  store : Store;
  env : Env;
  calls : list Kwargs.t
}.

Definition set_service (s : ImageService) (w : World) : World :=
  mkWorld s (store w) (env w) (calls w).
Definition set_store (st : Store) (w : World) : World :=
  mkWorld (service w) st (env w) (calls w).
Definition set_env (e : Env) (w : World) : World :=
  mkWorld (service w) (store w) e (calls w).

(** [this.taskStates.get(taskId)!.f = ...] *)
Definition update_taskState (taskId : string) (f : TaskState -> TaskState)
    (w : World) : World :=
  set_service (set_taskStates (alter f taskId (taskStates (service w))) (service w)) w.

(** [if (!fs.existsSync(dir)) fs.mkdirSync(dir, { recursive: true })] *)
Definition ensure_dir (taskId : string) (st : Store) : Store :=
  match taskDirs st !! taskId with
  | Some _ => st
  | None => set_taskDirs (<[taskId := ∅]> (taskDirs st)) st
  end.

(** [fs.writeFileSync(path.join(taskDir, filename), data)]; throws when the
    directory does not exist. *)
Definition writeFile (taskDir filename : string) (data_ : Buffer) (st : Store)
    : option Store :=
  match taskDirs st !! taskDir with
  | Some dir => Some (set_taskDirs (<[taskDir := <[filename := data_]> dir]> (taskDirs st)) st)
  | None => None
  end.

(** [fs.readFileSync(path.join(taskDir, filename))] *)
Definition readFile (taskDir filename : string) (st : Store) : option Buffer :=
  taskDirs st !! taskDir ≫= fun dir => dir !! filename.

(** [historyService.updateRecord(recordId, updates)] with the time read
    from the clock. *)
Definition history_update (recordId : string) (updates : Updates.t) (w : World)
    : World :=
  let '(t, e) := now (env w) in
  let '(_, st) := updateRecord t recordId updates (store w) in
  set_store st (set_env e w).

(** [_saveImage]: the original, then a thumbnail of about 50 KB.  The
    result is the message of the error thrown, if any. *)
Definition _saveImage (imageData : Buffer) (filename : string)
    (taskDir : option string) (w : World) : option string * World :=
  let taskDir := if truthy_opt taskDir then taskDir
                 else currentTaskDir (service w) in
  match taskDir with
  | None => (Some "任务目录未设置", w)
  | Some taskDir =>
    if negb (truthy taskDir) then (Some "任务目录未设置", w) else
    match writeFile taskDir filename imageData (store w) with
    | None => (Some "ENOENT: no such file or directory", w)
    | Some st =>
      let thumbnailData := compressImage imageData 50 in
      match writeFile taskDir ("thumb_" +:+ filename) thumbnailData st with
      | None => (Some "ENOENT: no such file or directory", set_store st w)
      | Some st' => (None, set_store st' w)
      end
    end
  end.

Definition AUTO_RETRY_COUNT : nat := 3.

(** [s || d] for an optional string option of the configuration. *)
Definition or_default (s : option string) (d : string) : string :=
  match s with
  | Some s => if truthy s then s else d
  | None => d
  end.

(** [temperature || 1.0] *)
Definition temperature_or_default (t : option Q) : Q :=
  match t with
  | Some t => if Qeq_bool t 0 then 1%Q else t
  | None => 1%Q
  end.

(** The prompt of a page. *)
Definition build_prompt (s : ImageService) (page : PageData)
    (fullOutline userTopic : string) : Prompt :=
  if useShortPrompt s && truthy (promptTemplateShort s) then
    mkPrompt (promptTemplateShort s) (content page) (type page) None None
  else
    mkPrompt (promptTemplate s) (content page) (type page)
      (Some fullOutline) (Some (if truthy userTopic then userTopic else "未提供")).

(** The request sent to the generator, by provider type. *)
Definition build_kwargs (s : ImageService) (page : PageData)
    (referenceImage : option Buffer) (fullOutline : string)
    (userImages : option (list Buffer)) (userTopic : string) : Kwargs.t :=
  let cfg := providerConfig s in
  let prompt := build_prompt s page fullOutline userTopic in
  if decide (ProviderConfig.type cfg = Some "google_genai") then
    Kwargs.mk prompt
      (Some (or_default (ProviderConfig.default_aspect_ratio cfg) "3:4"))
      (Some (temperature_or_default (ProviderConfig.temperature cfg)))
      (Some (or_default (ProviderConfig.model cfg) "gemini-3-pro-image-preview"))
      None None referenceImage None
  else if decide (ProviderConfig.type cfg = Some "image_api") then
    let referenceImages :=
      default [] userImages ++ from_option (fun r => [r]) [] referenceImage in
    Kwargs.mk prompt
      (Some (or_default (ProviderConfig.default_aspect_ratio cfg) "3:4"))
      (Some (temperature_or_default (ProviderConfig.temperature cfg)))
      (Some (or_default (ProviderConfig.model cfg) "nano-banana-2"))
      None None None
      (match referenceImages with [] => None | _ => Some referenceImages end)
  else
    Kwargs.mk prompt None None (ProviderConfig.model cfg)
      (Some (or_default (ProviderConfig.default_size cfg) "1024x1024"))
      (Some (or_default (ProviderConfig.quality cfg) "standard"))
      None None.

(** The return value of [_generateSingleImage]:
    [[index, success, filename, error]]. *)
Definition SingleResult := (nat * bool * option string * option string)%type.

(** One pass through the [try] block: the generator call, then the save.
    The result is the file name, or the message of the error caught
    ([error.message || String(error)]). *)
Definition attempt_once (page : PageData) (referenceImage : option Buffer)
    (fullOutline : string) (userImages : option (list Buffer))
    (userTopic : string) (w : World) : (string + string) * World :=
  let kwargs := build_kwargs (service w) page referenceImage fullOutline
                  userImages userTopic in
  let '(reply, e) := generateImage kwargs (env w) in
  let w := mkWorld (service w) (store w) e (calls w ++ [kwargs]) in
  match reply with
  | inl msg => (inl (if truthy msg then msg else "Error"), w)
  | inr imageData =>
    let filename := pretty (index page) +:+ ".png" in
    match _saveImage imageData filename (currentTaskDir (service w)) w with
    | (Some msg, w) => (inl (if truthy msg then msg else "Error"), w)
    | (None, w) => (inr filename, w)
    end
  end.

(** The loop [for (attempt = 0; attempt < maxRetries; attempt++)], with
    [fuel] passes left. *)
Fixpoint attempt_loop (fuel attempt : nat) (page : PageData)
    (referenceImage : option Buffer) (fullOutline : string)
    (userImages : option (list Buffer)) (userTopic : string) (w : World)
    : SingleResult * World :=
  match fuel with
  | O => ((index page, false, None, Some "超过最大重试次数"), w)
  | S fuel' =>
    match attempt_once page referenceImage fullOutline userImages userTopic w with
    | (inr filename, w) => ((index page, true, Some filename, None), w)
    | (inl errorMsg, w) =>
      if decide (attempt < AUTO_RETRY_COUNT - 1) then
        let w := set_env (wait (2 ^ attempt) (env w)) w in
        attempt_loop fuel' (S attempt) page referenceImage fullOutline
          userImages userTopic w
      else ((index page, false, None, Some errorMsg), w)
    end
  end.

Definition _generateSingleImage (page : PageData) (taskId : string)
    (referenceImage : option Buffer) (retryCount : nat) (fullOutline : string)
    (userImages : option (list Buffer)) (userTopic : string) (w : World)
    : SingleResult * World :=
  attempt_loop AUTO_RETRY_COUNT 0 page referenceImage fullOutline userImages
    userTopic w.

(** ** [generateImages] *)

(** The local variables of [generateImages] that the loops update. *)
Record Locals := mkLocals {
  generatedImages : list string;
  failedPages : list PageData;
  coverImageData : option Buffer
}.

(** How a generator function ends: it runs to its end, or an exception
    escapes it. *)
Inductive Completion :=
  | returned
  | thrown (message : string).

(** The loop [for (const page of pages)] that separates the cover. *)
Fixpoint partition_loop (pages : list PageData) (coverPage : option PageData)
    (otherPages : list PageData) : option PageData * list PageData :=
  match pages with
  | [] => (coverPage, otherPages)
  | page :: rest =>
    if decide (type page = type_cover)
    then partition_loop rest (Some page) otherPages
    else partition_loop rest coverPage (otherPages ++ [page])
  end.

(** The cover and the other pages; without a cover page the first page is
    taken ([otherPages.splice(0, 1)]). *)
Definition partition_pages (pages : list PageData)
    : option PageData * list PageData :=
  let '(coverPage, otherPages) := partition_loop pages None [] in
  match coverPage, pages with
  | None, first :: _ => (Some first, drop 1 otherPages)
  | _, _ => (coverPage, otherPages)
  end.

(** [historyService && recordId]: the record to keep up to date, if any. *)
Definition history_record (recordId : option string) : option string :=
  if truthy_opt recordId then recordId else None.

(** [error || '未知错误'] *)
Definition or_unknown (error_ : option string) : string :=
  match error_ with
  | Some e => if truthy e then e else "未知错误"
  | None => "未知错误"
  end.

Definition image_url (taskId filename : string) : string :=
  "/api/images/" +:+ taskId +:+ "/" +:+ filename.

(** [arr[i] = x] on an array: beyond the end the array grows, leaving
    holes. *)
Definition array_set (i : nat) (x : string) (arr : list (option string))
    : list (option string) :=
  if decide (i < length arr) then <[i := Some x]> arr
  else arr ++ replicate (i - length arr) None ++ [Some x].

(** The first update of the record: the task id and status ['generating']. *)
Definition link_task (recordId taskId : string) (w : World) : World :=
  let currentImages :=
    match getRecord recordId (store w) with
    | Some record => HistoryRecord.images record
    | None => Images.mk None []
    end in
  history_update recordId
    (Updates.mk None
       (Some (Images.mk (Some taskId) (Images.generated currentImages)))
       (Some "generating") None) w.

(** The update after the cover: thumbnail and the cover's slot of
    [generated]. *)
Definition record_cover (recordId taskId : string) (index_ : nat)
    (filename : string) (w : World) : World :=
  let currentImages :=
    match getRecord recordId (store w) with
    | Some record => HistoryRecord.images record
    | None => Images.mk (Some taskId) []
    end in
  let newGenerated := array_set index_ filename (Images.generated currentImages) in
  history_update recordId
    (Updates.mk None (Some (Images.mk (Some taskId) newGenerated)) None
       (Some filename)) w.

(** The update after a content page: the list of files generated so far. *)
Definition record_generated (recordId taskId : string)
    (generatedImages_ : list string) (w : World) : World :=
  history_update recordId
    (Updates.mk None
       (Some (Images.mk (Some taskId) (map Some generatedImages_))) None None) w.

(** Phase one.  The result is the events yielded, the local variables, how
    the phase ended and the new state. *)
Definition cover_phase (coverPage : PageData) (taskId : string) (total : nat)
    (fullOutline : string) (compressedUserImages : option (list Buffer))
    (userTopic : string) (hist : option string) (w : World)
    : list ImageProgressEvent * Locals * Completion * World :=
  let ev_progress :=
    mkEvent progress
      [("index", num (index coverPage)); ("status", str "generating");
       ("message", str "正在生成封面..."); ("current", num 1);
       ("total", num total); ("phase", str "cover")] in
  let '((index_, success, filename, error_), w) :=
    _generateSingleImage coverPage taskId None 0 fullOutline
      compressedUserImages userTopic w in
  if success && truthy_opt filename then
    let filename := default "" filename in
    let w := update_taskState taskId
               (fun t => set_generated (<[index_ := filename]> (generated t)) t) w in
    match currentTaskDir (service w) ≫= fun d => readFile d filename (store w) with
    | None =>
      ([ev_progress], mkLocals [filename] [] None,
       thrown "ENOENT: no such file or directory", w)
    | Some coverData =>
      let coverData := compressImage coverData 200 in
      let w := update_taskState taskId (set_cover_image (Some coverData)) w in
      let w :=
        match hist with
        | Some recordId => record_cover recordId taskId index_ filename w
        | None => w
        end in
      ([ev_progress;
        mkEvent complete
          [("index", num index_); ("status", str "done");
           ("image_url", str (image_url taskId filename));
           ("phase", str "cover")]],
       mkLocals [filename] [] (Some coverData), returned, w)
    end
  else
    let w := update_taskState taskId
               (fun t => set_failed (<[index_ := or_unknown error_]> (failed t)) t) w in
    ([ev_progress;
      mkEvent error
        [("index", num (index coverPage)); ("status", str "error");
         ("message", str (or_unknown error_)); ("retryable", flag true);
         ("phase", str "cover")]],
     mkLocals [] [coverPage] None, returned, w).

(** What both content loops do with the value of a finished call. *)
Definition on_fulfilled (taskId : string) (hist : option string)
    (page : PageData) (value : SingleResult) (loc : Locals) (w : World)
    : ImageProgressEvent * Locals * World :=
  let '(index_, success, filename, error_) := value in
  if success && truthy_opt filename then
    let filename := default "" filename in
    let loc := mkLocals (generatedImages loc ++ [filename]) (failedPages loc)
                 (coverImageData loc) in
    let w := update_taskState taskId
               (fun t => set_generated (<[index_ := filename]> (generated t)) t) w in
    let w :=
      match hist with
      | Some recordId => record_generated recordId taskId (generatedImages loc) w
      | None => w
      end in
    (mkEvent complete
       [("index", num index_); ("status", str "done");
        ("image_url", str (image_url taskId filename));
        ("phase", str "content")], loc, w)
  else
    let loc := mkLocals (generatedImages loc) (failedPages loc ++ [page])
                 (coverImageData loc) in
    let w := update_taskState taskId
               (fun t => set_failed (<[index_ := or_unknown error_]> (failed t)) t) w in
    (mkEvent error
       [("index", num index_); ("status", str "error");
        ("message", str (or_unknown error_)); ("retryable", flag true);
        ("phase", str "content")], loc, w).

(** An element of the result of [Promise.allSettled]. *)
Inductive Settled :=
  | fulfilled (value : SingleResult)
  | rejected (reason : string).

Definition on_settled (taskId : string) (hist : option string)
    (page : PageData) (result : Settled) (loc : Locals) (w : World)
    : ImageProgressEvent * Locals * World :=
  match result with
  | fulfilled value => on_fulfilled taskId hist page value loc w
  | rejected errorMsg =>
    let loc := mkLocals (generatedImages loc) (failedPages loc ++ [page])
                 (coverImageData loc) in
    let w := update_taskState taskId
               (fun t => set_failed (<[index page := errorMsg]> (failed t)) t) w in
    (mkEvent error
       [("index", num (index page)); ("status", str "error");
        ("message", str errorMsg); ("retryable", flag true);
        ("phase", str "content")], loc, w)
  end.

Definition progress_content (page : PageData) (loc : Locals) (total : nat)
    : ImageProgressEvent :=
  mkEvent progress
    [("index", num (index page)); ("status", str "generating");
     ("current", num (length (generatedImages loc) + 1));
     ("total", num total); ("phase", str "content")].

(** Sequential mode: [for (const page of otherPages)]. *)
Fixpoint sequential_loop (otherPages : list PageData) (taskId : string)
    (total : nat) (fullOutline : string)
    (compressedUserImages : option (list Buffer)) (userTopic : string)
    (hist : option string) (loc : Locals) (w : World)
    : list ImageProgressEvent * Locals * World :=
  match otherPages with
  | [] => ([], loc, w)
  | page :: rest =>
    let ev_progress := progress_content page loc total in
    let '(value, w) :=
      _generateSingleImage page taskId (coverImageData loc) 0 fullOutline
        compressedUserImages userTopic w in
    let '(ev_result, loc, w) := on_fulfilled taskId hist page value loc w in
    let '(evs, loc, w) :=
      sequential_loop rest taskId total fullOutline compressedUserImages
        userTopic hist loc w in
    (ev_progress :: ev_result :: evs, loc, w)
  end.

(** High-concurrency mode: the calls behind [Promise.allSettled].  The
    calls interleave at their suspension points; here each call runs to
    its end before the next starts.  A call never rejects, since
    [_generateSingleImage] catches what its body throws. *)
Fixpoint allSettled (otherPages : list PageData) (taskId : string)
    (referenceImage : option Buffer) (fullOutline : string)
    (compressedUserImages : option (list Buffer)) (userTopic : string)
    (w : World) : list Settled * World :=
  match otherPages with
  | [] => ([], w)
  | page :: rest =>
    let '(value, w) :=
      _generateSingleImage page taskId referenceImage 0 fullOutline
        compressedUserImages userTopic w in
    let '(results, w) :=
      allSettled rest taskId referenceImage fullOutline compressedUserImages
        userTopic w in
    (fulfilled value :: results, w)
  end.

(** [for (let i = 0; i < results.length; i++)] over the results and their
    pages. *)
Fixpoint results_loop (results : list Settled) (otherPages : list PageData)
    (taskId : string) (hist : option string) (loc : Locals) (w : World)
    : list ImageProgressEvent * Locals * World :=
  match results, otherPages with
  | result :: results', page :: rest =>
    let '(ev_result, loc, w) := on_settled taskId hist page result loc w in
    let '(evs, loc, w) := results_loop results' rest taskId hist loc w in
    (ev_result :: evs, loc, w)
  | _, _ => ([], loc, w)
  end.

(** Phase two. *)
Definition content_phase (otherPages : list PageData) (taskId : string)
    (total : nat) (fullOutline : string)
    (compressedUserImages : option (list Buffer)) (userTopic : string)
    (hist : option string) (loc : Locals) (w : World)
    : list ImageProgressEvent * Locals * World :=
  match otherPages with
  | [] => ([], loc, w)
  | _ :: _ =>
    let highConcurrency :=
      default false (ProviderConfig.high_concurrency (providerConfig (service w))) in
    if highConcurrency then
      let ev_start :=
        mkEvent progress
          [("status", str "batch_start");
           ("message", str ("开始并发生成 " +:+ pretty (length otherPages) +:+ " 页内容..."));
           ("current", num (length (generatedImages loc)));
           ("total", num total); ("phase", str "content")] in
      let evs_progress := map (fun page => progress_content page loc total) otherPages in
      let '(results, w) :=
        allSettled otherPages taskId (coverImageData loc) fullOutline
          compressedUserImages userTopic w in
      let '(evs, loc, w) := results_loop results otherPages taskId hist loc w in
      (ev_start :: evs_progress ++ evs, loc, w)
    else
      let ev_start :=
        mkEvent progress
          [("status", str "batch_start");
           ("message", str ("开始顺序生成 " +:+ pretty (length otherPages) +:+ " 页内容..."));
           ("current", num (length (generatedImages loc)));
           ("total", num total); ("phase", str "content")] in
      let '(evs, loc, w) :=
        sequential_loop otherPages taskId total fullOutline
          compressedUserImages userTopic hist loc w in
      (ev_start :: evs, loc, w)
  end.

(** The status written at the end of the task. *)
Definition final_status (loc : Locals) : string :=
  if decide (length (failedPages loc) = 0) then "completed"
  else if decide (0 < length (generatedImages loc)) then "partial"
  else "draft".

Definition finish_event (taskId : string) (total : nat) (loc : Locals)
    : ImageProgressEvent :=
  mkEvent finish
    [("success", flag (bool_decide (length (failedPages loc) = 0)));
     ("task_id", str taskId);
     ("images", strs (generatedImages loc));
     ("total", num total);
     ("completed", num (length (generatedImages loc)));
     ("failed", num (length (failedPages loc)));
     ("failed_indices", nums (map index (failedPages loc)))].

(** The set-up before phase one: task id, task directory, compressed user
    images, task state, and the first update of the record. *)
Definition start_task (pages : list PageData) (taskId : option string)
    (fullOutline : string) (userImages : option (list Buffer))
    (userTopic : string) (recordId : option string) (w : World)
    : string * option (list Buffer) * World :=
  let '(taskId, w) :=
    match taskId with
    | Some t =>
      if truthy t then (t, w)
      else let '(u, e) := uuidv4 (env w) in
           ("task_" +:+ String.substring 0 8 u, set_env e w)
    | None =>
      let '(u, e) := uuidv4 (env w) in
      ("task_" +:+ String.substring 0 8 u, set_env e w)
    end in
  let w := set_service (set_currentTaskDir (Some taskId) (service w)) w in
  let w := set_store (ensure_dir taskId (store w)) w in
  let compressedUserImages :=
    match userImages with
    | Some (img :: imgs) => Some (map (fun i => compressImage i 200) (img :: imgs))
    | _ => None
    end in
  let w :=
    set_service
      (set_taskStates
         (<[taskId := mkTaskState pages ∅ ∅ None fullOutline
                        compressedUserImages userTopic]> (taskStates (service w)))
         (service w)) w in
  let w :=
    match history_record recordId with
    | Some recordId => link_task recordId taskId w
    | None => w
    end in
  (taskId, compressedUserImages, w).

(** The last update of the record: final status and the generated files. *)
Definition record_final (recordId taskId : string) (loc : Locals) (w : World)
    : World :=
  history_update recordId
    (Updates.mk None
       (Some (Images.mk (Some taskId) (map Some (generatedImages loc))))
       (Some (final_status loc)) None) w.

(** [generateImages]: the events yielded when the generator is run to its
    end, how it ended, and the final state. *)
Definition generateImages (pages : list PageData) (taskId : option string)
    (fullOutline : string) (userImages : option (list Buffer))
    (userTopic : string) (recordId : option string) (w : World)
    : list ImageProgressEvent * Completion * World :=
  let '(taskId, compressedUserImages, w) :=
    start_task pages taskId fullOutline userImages userTopic recordId w in
  let total := length pages in
  let hist := history_record recordId in
  let '(coverPage, otherPages) := partition_pages pages in
  let '(evs_cover, loc, completion, w) :=
    match coverPage with
    | Some coverPage =>
      cover_phase coverPage taskId total fullOutline compressedUserImages
        userTopic hist w
    | None => ([], mkLocals [] [] None, returned, w)
    end in
  match completion with
  | thrown message => (evs_cover, thrown message, w)
  | returned =>
    let '(evs_content, loc, w) :=
      content_phase otherPages taskId total fullOutline compressedUserImages
        userTopic hist loc w in
    let w :=
      match hist with
      | Some recordId => record_final recordId taskId loc w
      | None => w
      end in
    (evs_cover ++ evs_content ++ [finish_event taskId total loc], returned, w)
  end.


(** ** Retrying *)

(** The beginning shared by [retrySingleImage] and
    [retrySingleImageStreaming]: the task directory, then the context of
    the task state, then the cover file as a fallback.  The result is
    [(referenceImage, userImages, fullOutline || '', userTopic || '')]. *)
Definition retry_context (taskId : string) (useReference : bool)
    (fullOutline userTopic : option string) (w : World)
    : (option Buffer * option (list Buffer) * string * string) * World :=
  let w := set_service (set_currentTaskDir (Some taskId) (service w)) w in
  let w := set_store (ensure_dir taskId (store w)) w in
  let taskState := taskStates (service w) !! taskId in
  let referenceImage :=
    match taskState with
    | Some t => if useReference then cover_image t else None
    | None => None
    end in
  let fullOutline :=
    match taskState with
    | Some t => if truthy_opt fullOutline then fullOutline else Some (full_outline t)
    | None => fullOutline
    end in
  let userTopic :=
    match taskState with
    | Some t => if truthy_opt userTopic then userTopic else Some (user_topic t)
    | None => userTopic
    end in
  let userImages := taskState ≫= user_images in
  let referenceImage :=
    if useReference && negb (bool_decide (is_Some referenceImage)) then
      match readFile taskId "0.png" (store w) with
      | Some coverData => Some (compressImage coverData 200)
      | None => referenceImage
      end
    else referenceImage in
  ((referenceImage, userImages, default "" fullOutline, default "" userTopic), w).

(** [taskState.generated[index] = filename; delete taskState.failed[index]]
    on the task state fetched at the beginning, if there was one. *)
Definition mark_generated (taskId : string) (index_ : nat) (filename : string)
    (w : World) : World :=
  update_taskState taskId
    (fun t => set_failed (delete index_ (failed t))
                (set_generated (<[index_ := filename]> (generated t)) t)) w.

(** [taskState.failed[index] = error || '未知错误'] *)
Definition mark_failed (taskId : string) (index_ : nat) (error_ : option string)
    (w : World) : World :=
  update_taskState taskId
    (fun t => set_failed (<[index_ := or_unknown error_]> (failed t)) t) w.

(** [retrySingleImage]; the result is the object returned. *)
Definition retrySingleImage (taskId : string) (page : PageData)
    (useReference : bool) (fullOutline userTopic : option string) (w : World)
    : EventData * World :=
  let '((referenceImage, userImages, fullOutline, userTopic), w) :=
    retry_context taskId useReference fullOutline userTopic w in
  let '((index_, success, filename, error_), w) :=
    _generateSingleImage page taskId referenceImage 0 fullOutline userImages
      userTopic w in
  if success && truthy_opt filename then
    let filename := default "" filename in
    let w := mark_generated taskId index_ filename w in
    ([("success", flag true); ("index", num index_);
      ("image_url", str (image_url taskId filename))], w)
  else
    ([("success", flag false); ("index", num index_);
      ("error", str (or_unknown error_)); ("retryable", flag true)], w).

(** The update of the record after a successful streaming retry: the file
    name is appended to [generated] unless it is already there. *)
Definition record_retry (recordId taskId filename : string) (w : World) : World :=
  match getRecord recordId (store w) with
  | Some record =>
    let updatedGenerated := Images.generated (HistoryRecord.images record) in
    let updatedGenerated :=
      if decide (Some filename ∈ updatedGenerated) then updatedGenerated
      else updatedGenerated ++ [Some filename] in
    history_update recordId
      (Updates.mk None (Some (Images.mk (Some taskId) updatedGenerated)) None None) w
  | None => w
  end.

Definition retrySingleImageStreaming (taskId : string) (page : PageData)
    (useReference : bool) (fullOutline userTopic : option string)
    (recordId : option string) (w : World)
    : list ImageProgressEvent * World :=
  let '((referenceImage, userImages, fullOutline, userTopic), w) :=
    retry_context taskId useReference fullOutline userTopic w in
  let ev_progress :=
    mkEvent progress
      [("index", num (index page)); ("status", str "generating");
       ("message", str ("正在重新生成图片 [" +:+ pretty (index page) +:+ "]..."))] in
  let '((index_, success, filename, error_), w) :=
    _generateSingleImage page taskId referenceImage 0 fullOutline userImages
      userTopic w in
  if success && truthy_opt filename then
    let filename := default "" filename in
    let w := mark_generated taskId index_ filename w in
    let w :=
      match history_record recordId with
      | Some recordId => record_retry recordId taskId filename w
      | None => w
      end in
    ([ev_progress;
      mkEvent complete
        [("index", num index_); ("status", str "done");
         ("image_url", str (image_url taskId filename))];
      mkEvent finish
        [("success", flag true); ("index", num index_);
         ("image_url", str (image_url taskId filename))]], w)
  else
    let w := mark_failed taskId index_ error_ w in
    ([ev_progress;
      mkEvent error
        [("index", num index_); ("status", str "error");
         ("message", str (or_unknown error_)); ("retryable", flag true)];
      mkEvent finish
        [("success", flag false); ("index", num index_);
         ("error", str (or_unknown error_))]], w).

(** The loop of [retryFailedImages]; the counters are threaded. *)
Fixpoint retry_loop (pages : list PageData) (total : nat) (taskId : string)
    (referenceImage : option Buffer) (fullOutline : string)
    (userImages : option (list Buffer)) (userTopic : string)
    (successCount failedCount : nat) (w : World)
    : list ImageProgressEvent * (nat * nat) * World :=
  match pages with
  | [] => ([], (successCount, failedCount), w)
  | page :: rest =>
    let ev_start :=
      mkEvent retry_start
        [("index", num (index page)); ("status", str "retrying");
         ("message", str ("重新生成失败的图片 [" +:+ pretty (index page) +:+ "]..."));
         ("current", num successCount); ("total", num total)] in
    let '((index_, success, filename, error_), w) :=
      _generateSingleImage page taskId referenceImage 0 fullOutline userImages
        userTopic w in
    if success && truthy_opt filename then
      let filename := default "" filename in
      let w := mark_generated taskId index_ filename w in
      let '(evs, counts, w) :=
        retry_loop rest total taskId referenceImage fullOutline userImages
          userTopic (S successCount) failedCount w in
      (ev_start ::
       mkEvent retry_finish
         [("index", num index_); ("status", str "done");
          ("image_url", str (image_url taskId filename));
          ("success", flag true)] :: evs, counts, w)
    else
      let w := mark_failed taskId index_ error_ w in
      let '(evs, counts, w) :=
        retry_loop rest total taskId referenceImage fullOutline userImages
          userTopic successCount (S failedCount) w in
      (ev_start ::
       mkEvent error
         [("index", num index_); ("status", str "error");
          ("message", str (or_unknown error_)); ("retryable", flag true)]
       :: evs, counts, w)
  end.

(** The reference image of [retryFailedImages]: the cached cover, else the
    compressed cover file. *)
Definition batch_reference (taskId : string) (w : World) : option Buffer :=
  match taskStates (service w) !! taskId ≫= cover_image with
  | Some cover => Some cover
  | None =>
    match readFile taskId "0.png" (store w) with
    | Some coverData => Some (compressImage coverData 200)
    | None => None
    end
  end.

Definition retryFailedImages (taskId : string) (pages : list PageData)
    (w : World) : list ImageProgressEvent * World :=
  let w := set_service (set_currentTaskDir (Some taskId) (service w)) w in
  let w := set_store (ensure_dir taskId (store w)) w in
  let taskState := taskStates (service w) !! taskId in
  let fullOutline := from_option full_outline "" taskState in
  let userTopic := from_option user_topic "" taskState in
  let referenceImage := batch_reference taskId w in
  let userImages := taskState ≫= user_images in
  let '(evs, (successCount, failedCount), w) :=
    retry_loop pages (length pages) taskId referenceImage fullOutline
      userImages userTopic 0 0 w in
  (evs ++
   [mkEvent finish
      [("success", flag (bool_decide (failedCount = 0)));
       ("task_id", str taskId); ("completed", num successCount);
       ("failed", num failedCount)]], w).

(** ** The reference image as the specification describes it *)

(** The cached cover bytes when the task state has them; otherwise the
    compressed contents of [0.png] of the task directory when that file
    exists; otherwise none. *)
Definition spec_reference (taskId : string) (w : World) : option Buffer :=
  match taskStates (service w) !! taskId with
  | Some (mkTaskState _ _ _ (Some cached) _ _ _) => Some cached
  | _ =>
    match taskDirs (store w) !! taskId with
    | Some dir =>
      match dir !! "0.png" with
      | Some bytes => Some (compressImage bytes 200)
      | None => None
      end
    | None => None
    end
  end.

(** The requests sent to the generator after the first [n]. *)
Definition calls_since (n : nat) (w : World) : list Kwargs.t := drop n (calls w).


(** ** What a call of [_generateSingleImage] does to the state *)

(** The facts about one call that the properties of the orchestrator rest
    on: the service fields and the history files are left alone, task
    directories stay, the generator received the same request one or more
    times, the index returned is the page's, and a success comes with the
    name of a file that is now in the current task directory. *)
Record single_effect (page : PageData) (kwargs : Kwargs.t) (w w' : World)
    (res : SingleResult) : Prop := mk_single_effect {
  se_service : service w' = service w;
  se_index : indexFile (store w') = indexFile (store w);
  se_records : recordFiles (store w') = recordFiles (store w);
  se_dirs : forall d, is_Some (taskDirs (store w) !! d) ->
                      is_Some (taskDirs (store w') !! d);
  se_calls : exists k, 0 < k /\ calls w' = calls w ++ replicate k kwargs;
  se_result_index : res.1.1.1 = index page;
  se_file : res.1.1.2 = true ->
            exists f dir, res.1.2 = Some f /\ f <> ""
              /\ currentTaskDir (service w) = Some dir
              /\ is_Some (readFile dir f (store w'))
}.

(** The events with a given name, and the page index an event carries. *)
Definition events_named (name : EventName) (evs : list ImageProgressEvent)
    : list ImageProgressEvent :=
  filter (fun ev => event ev = name) evs.

Definition event_index (ev : ImageProgressEvent) : option nat :=
  match field "index" (data ev) with
  | Some (num k) => Some k
  | _ => None
  end.

Definition event_phase (ev : ImageProgressEvent) : option string :=
  match field "phase" (data ev) with
  | Some (str p) => Some p
  | _ => None
  end.

(** A [complete] or [error] event: the outcome of one page. *)
Definition is_outcome (ev : ImageProgressEvent) : Prop :=
  event ev = complete \/ event ev = error.

(** Every outcome event comes after a progress event with the same page
    index. *)
Definition causal (evs : list ImageProgressEvent) : Prop :=
  forall j ev, evs !! j = Some ev -> is_outcome ev ->
    exists k i ev', event_index ev = Some k /\ i < j /\ evs !! i = Some ev'
      /\ event ev' = progress /\ event_index ev' = Some k.

(** Pages of type cover. *)
Definition covers (pages : list PageData) : list PageData :=
  filter (fun p => type p = type_cover) pages.


(** What every step of a run preserves: the current task directory, the
    provider configuration, the existence of detail records and of task
    directories. *)
Definition frame (w w' : World) : Prop :=
  currentTaskDir (service w') = currentTaskDir (service w)
  /\ providerConfig (service w') = providerConfig (service w)
  /\ (forall x, is_Some (getRecord x (store w)) -> is_Some (getRecord x (store w')))
  /\ (forall d, is_Some (taskDirs (store w) !! d) ->
                is_Some (taskDirs (store w') !! d)).

(** The page indices carried by the events with a given name. *)
Definition indices_named (name : EventName) (evs : list ImageProgressEvent)
    : list nat :=
  omap event_index (events_named name evs).

(** How the events of a phase account for the change of the local
    variables: one more generated file per [complete] event, one more
    failed page per [error] event, with the index the event carries;
    every such event carries an index. *)
Definition tally (evs : list ImageProgressEvent) (loc loc' : Locals) : Prop :=
  length (generatedImages loc')
  = length (generatedImages loc) + length (events_named complete evs)
  /\ map index (failedPages loc')
     = map index (failedPages loc) ++ indices_named error evs
  /\ length (events_named error evs) = length (indices_named error evs)
  /\ length (events_named complete evs) = length (indices_named complete evs).

(** All events of a list belong to one phase. *)
Definition all_phase (p : string) (evs : list ImageProgressEvent) : Prop :=
  Forall (fun ev => event_phase ev = Some p) evs.

(** The outcome events of a list. *)
Definition outcomes (evs : list ImageProgressEvent) : list ImageProgressEvent :=
  filter is_outcome evs.


(** The value of a settled call carries the index of its page. *)
Definition settled_for (result : Settled) (page : PageData) : Prop :=
  match result with
  | fulfilled value => value.1.1.1 = index page
  | rejected _ => True
  end.

(** What a request carries of a reference image, by provider type: for
    [google_genai] the field [referenceImage]; for [image_api] the list
    [referenceImages], the user's images first and the reference last, or
    nothing when that list is empty; for any other type nothing. *)
Definition reference_passed (cfg : ProviderConfig.t)
    (userImages : option (list Buffer)) (reference : option Buffer)
    (kwargs : Kwargs.t) : Prop :=
  if decide (ProviderConfig.type cfg = Some "google_genai") then
    Kwargs.referenceImage kwargs = reference
    /\ Kwargs.referenceImages kwargs = None
  else if decide (ProviderConfig.type cfg = Some "image_api") then
    Kwargs.referenceImage kwargs = None
    /\ Kwargs.referenceImages kwargs
       = match default [] userImages ++ from_option (fun r => [r]) [] reference with
         | [] => None
         | l => Some l
         end
  else
    Kwargs.referenceImage kwargs = None
    /\ Kwargs.referenceImages kwargs = None.

(** The user images cached for a task. *)
Definition cached_user_images (taskId : string) (w : World) : option (list Buffer) :=
  taskStates (service w) !! taskId ≫= user_images.


(** ** Vocabulary for whole runs *)

(** The requests sent between two worlds, counted against [n] calls of
    [_generateSingleImage]: at least one and at most [AUTO_RETRY_COUNT]
    requests per call. *)
Definition requests_within (n : nat) (w w' : World) : Prop :=
  exists extra, calls w' = calls w ++ extra
                /\ n <= length extra <= AUTO_RETRY_COUNT * n.

(** The history index of a world agrees with the detail files. *)
Definition history_in_step (w : World) : Prop :=
  index_consistent (store w) /\ index_unique (store w).

(** The history index and the detail files are the same in both worlds. *)
Definition history_untouched (w w' : World) : Prop :=
  indexFile (store w') = indexFile (store w)
  /\ recordFiles (store w') = recordFiles (store w).

End WithExternal.

End Image.


(* ===================================================================== *)
(** * Streaming chat call ([generators/openaiCompatible.ts],
      [generators/imageApi.ts]) *)
(* ===================================================================== *)

(** [generateViaChatApi] of both generators installs the same three
    listeners on the response stream and returns a promise; the model is
    the state the listeners share and one function per listener. *)
Module Stream.

Definition MAX_CHUNKS : nat := 200.

(** What the [try] block finds in one line of the stream: a choice with
    [finish_reason === 'stop'] and a truthy [delta.content], one without
    content, or nothing that ends the call (no choice, another finish
    reason, or an exception caught by the [catch], a JSON syntax error
    among them). *)
Inductive LineResult :=
  | stop_with (content : jsstring)
  | stop_without
  | no_stop.

#[global] Instance LineResult_eq_dec : EqDecision LineResult.
Proof. solve_decision. Defined.

(** [JSON.parse] with the field accesses that follow it, and
    [extractAndDownloadImage], whose promise fulfils with the image or
    rejects with an error message. *)
Class ChatDecoder := {
  parse_choice : jsstring -> LineResult;
  extractAndDownloadImage : jsstring -> string + Buffer
}.

Inductive PromiseState :=
  | pending
  | resolved (imageData : Buffer)
  | rejected (message : string).

(** [resolve] and [reject] act on a pending promise only. *)
Definition settle (outcome p : PromiseState) : PromiseState :=
  match p with
  | pending => outcome
  | _ => p
  end.

Record State := mkState {
  buffer : jsstring;
  chunkCount : nat;
  listening : bool;
  promise : PromiseState
}.

Definition initial : State := mkState [] 0 true pending.

Definition timeout_message : string :=
  "流式响应超时：接收次数超过" +:+ pretty MAX_CHUNKS +:+ "次限制
可能原因：
1. API响应异常缓慢
2. 模型生成内容过长
3. 网络连接不稳定".

Section WithDecoder.
Context `{ChatDecoder}.

(** One line: skipped when blank or [data: [DONE]], else stripped of the
    prefix [data: ] and parsed. *)
Definition classify (line : jsstring) : LineResult :=
  let trimmedLine := trim line in
  match trimmedLine with
  | [] => no_stop
  | _ =>
    if decide (trimmedLine = utf16 "data: [DONE]") then no_stop
    else
      let jsonStr :=
        if startsWith (utf16 "data: ") trimmedLine then drop 6 trimmedLine
        else trimmedLine in
      parse_choice jsonStr
  end.

(** [for (const line of lines)]: the first line with a stop marker ends
    the handler; with content the listeners are removed and the promise
    follows the download, without content the promise is rejected and the
    listeners stay. *)
Fixpoint process_lines (lines : list jsstring) (st : State) : State :=
  match lines with
  | [] => st
  | line :: rest =>
    match classify line with
    | no_stop => process_lines rest st
    | stop_with content_ =>
      mkState (buffer st) (chunkCount st) false
        (settle (match extractAndDownloadImage content_ with
                 | inr imageData => resolved imageData
                 | inl message => rejected message
                 end) (promise st))
    | stop_without =>
      mkState (buffer st) (chunkCount st) (listening st)
        (settle (rejected "finish_reason=stop但未找到content字段") (promise st))
    end
  end.

(** The ['data'] listener. *)
Definition on_data (chunk : jsstring) (st : State) : State :=
  if negb (listening st) then st else
  let chunkCount_ := S (chunkCount st) in
  if decide (MAX_CHUNKS < chunkCount_) then
    mkState (buffer st) chunkCount_ false
      (settle (rejected timeout_message) (promise st))
  else
    let buffer_ := buffer st ++ chunk in
    let lines := split_str (utf16 "
") buffer_ in
    let st := mkState (default [] (last lines)) chunkCount_ (listening st) (promise st) in
    process_lines (removelast lines) st.

(** The ['end'] listener. *)
Definition on_end (st : State) : State :=
  if negb (listening st) then st else
  mkState (buffer st) (chunkCount st) (listening st)
    (settle (rejected "流式响应异常结束,未收到finish_reason=stop") (promise st)).

(** The ['error'] listener. *)
Definition on_error (message : string) (st : State) : State :=
  if negb (listening st) then st else
  mkState (buffer st) (chunkCount st) (listening st)
    (settle (rejected message) (promise st)).

Inductive StreamEvent :=
  | data_event (chunk : jsstring)
  | end_event
  | error_event (message : string).

Definition on_event (ev : StreamEvent) (st : State) : State :=
  match ev with
  | data_event chunk => on_data chunk st
  | end_event => on_end st
  | error_event message => on_error message st
  end.

(** The state after a sequence of stream events. *)
Definition run (evs : list StreamEvent) (st : State) : State :=
  fold_left (fun st ev => on_event ev st) evs st.

(** The state after a sequence of chunks. *)
Definition feed (chunks : list jsstring) (st : State) : State :=
  run (map data_event chunks) st.

(** The complete lines of a text: all segments of its split on line feeds
    except the unfinished last one. *)
Definition complete_lines (text : jsstring) : list jsstring :=
  removelast (split_str (utf16 "
") text).

(** The outcome the first stop marker among [lines] leads to; [pending]
    when no line carries one. *)
Fixpoint first_stop (lines : list jsstring) : PromiseState :=
  match lines with
  | [] => pending
  | line :: rest =>
    match classify line with
    | no_stop => first_stop rest
    | stop_with content_ =>
      match extractAndDownloadImage content_ with
      | inr imageData => resolved imageData
      | inl message => rejected message
      end
    | stop_without => rejected "finish_reason=stop但未找到content字段"
    end
  end.

End WithDecoder.

End Stream.


(* ===================================================================== *)
(** * Provider clients ([utils/textClient.ts],
      [generators/openaiCompatible.ts], [generators/imageApi.ts]) *)
(* ===================================================================== *)

Module Client.

(** [s || d] for an optional text: [undefined] and the empty text are
    falsy. *)
Definition or_text (s : option jsstring) (d : jsstring) : jsstring :=
  match s with
  | Some (c :: s') => c :: s'
  | _ => d
  end.

(** [!s] *)
Definition falsy (s : option jsstring) : bool :=
  match s with
  | Some (_ :: _) => false
  | _ => true
  end.

(** [s.replace(/\/+$/, '')]: the first position from which only slashes
    follow, to the end, is where the match starts. *)
Fixpoint strip_trailing_slashes (s : jsstring) : jsstring :=
  match s with
  | [] => []
  | c :: s' =>
    if code_eqb 47 c && forallb (code_eqb 47) s' then []
    else c :: strip_trailing_slashes s'
  end.

(** [s.replace(/\/v1$/, '')] *)
Fixpoint strip_v1 (s : jsstring) : jsstring :=
  match s with
  | [] => []
  | c :: s' =>
    if decide (c :: s' = utf16 "/v1") then [] else c :: strip_v1 s'
  end.

(** [baseUrl.replace(/\/+$/, '').replace(/\/v1$/, '')], written out in the
    three constructors. *)
Definition normalize_base_url (baseUrl : jsstring) : jsstring :=
  strip_v1 (strip_trailing_slashes baseUrl).

(** [endpoint.startsWith('/') ? endpoint : '/' + endpoint] *)
Definition with_leading_slash (endpoint : jsstring) : jsstring :=
  if startsWith (utf16 "/") endpoint then endpoint else utf16 "/" ++ endpoint.

(** ** [TextChatClient] *)
Module TextChatClient.
Record t := mk {
  apiKey : jsstring;
  baseUrl : jsstring;
  chatEndpoint : jsstring
}.

(** The constructor; [inl] is the message of the error thrown. *)
Definition new (apiKey baseUrl endpointType : option jsstring) : string + t :=
  if falsy apiKey then
    inl "Text API Key 未配置。
解决方案:在系统设置页面编辑文本生成服务商,填写 API Key"
  else
    let baseUrl := normalize_base_url (or_text baseUrl (utf16 "https://api.openai.com")) in
    let endpoint := or_text endpointType (utf16 "/v1/chat/completions") in
    inr (mk (or_text apiKey []) baseUrl (baseUrl ++ with_leading_slash endpoint)).
End TextChatClient.

(** ** Image generators *)

(** The fields of a provider configuration that the configuration module
    and the generators read. *)
Module GeneratorConfig.
Record t := mk {
  type : option jsstring;
  api_key : option jsstring;
  base_url : option jsstring;
  model : option jsstring;
  endpoint_type : option jsstring
}.
End GeneratorConfig.

(** [config.endpoint_type || '/v1/images/generations'] with the two
    short forms written out. *)
Definition resolve_endpoint (endpoint_type : option jsstring) : jsstring :=
  let endpoint := or_text endpoint_type (utf16 "/v1/images/generations") in
  if decide (endpoint = utf16 "images") then utf16 "/v1/images/generations"
  else if decide (endpoint = utf16 "chat") then utf16 "/v1/chat/completions"
  else endpoint.

(** The test both [generateImage] methods make to choose the chat API. *)
Definition names_chat_api (endpointType : jsstring) : bool :=
  includes (utf16 "chat") endpointType || includes (utf16 "completions") endpointType.

Module OpenAICompatibleGenerator.
Record t := mk {
  apiKey : jsstring;
  baseUrl : jsstring;
  defaultModel : jsstring;
  endpointType : jsstring
}.

Definition new (config : GeneratorConfig.t) : string + t :=
  if falsy (GeneratorConfig.api_key config) then
    inl "OpenAI 兼容 API Key 未配置。
解决方案:在系统设置页面编辑该服务商,填写 API Key"
  else if falsy (GeneratorConfig.base_url config) then
    inl "OpenAI 兼容 API Base URL 未配置。
解决方案:在系统设置页面编辑该服务商,填写 Base URL"
  else
    inr (mk (or_text (GeneratorConfig.api_key config) [])
           (normalize_base_url (or_text (GeneratorConfig.base_url config) []))
           (or_text (GeneratorConfig.model config) (utf16 "dall-e-3"))
           (resolve_endpoint (GeneratorConfig.endpoint_type config))).

(** [generateImage] takes the chat API, else the images API. *)
Definition uses_chat_api (g : t) : bool := names_chat_api (endpointType g).

(** The address both request methods post to. *)
Definition request_url (g : t) : jsstring :=
  baseUrl g ++ with_leading_slash (endpointType g).
End OpenAICompatibleGenerator.

Module ImageApiGenerator.
Record t := mk {
  apiKey : option jsstring;
  baseUrl : jsstring;
  model : jsstring;
  endpointType : jsstring
}.

(** The constructor does not check the key; [validateConfig] does, at the
    beginning of [generateImage]. *)
Definition new (config : GeneratorConfig.t) : t :=
  mk (GeneratorConfig.api_key config)
     (normalize_base_url
        (or_text (GeneratorConfig.base_url config) (utf16 "https://api.example.com")))
     (or_text (GeneratorConfig.model config) (utf16 "default-model"))
     (with_leading_slash (resolve_endpoint (GeneratorConfig.endpoint_type config))).

Definition validateConfig (g : t) : string + bool :=
  if falsy (apiKey g) then
    inl "Image API Key 未配置。
解决方案：在系统设置页面编辑该服务商，填写 API Key"
  else inr true.

Definition uses_chat_api (g : t) : bool := names_chat_api (endpointType g).

Definition request_url (g : t) : jsstring := baseUrl g ++ endpointType g.
End ImageApiGenerator.

Module GoogleGenAIGenerator.
Record t := mk {
  apiKey : jsstring
}.

Definition new (config : GeneratorConfig.t) : string + t :=
  if falsy (GeneratorConfig.api_key config) then
    inl "Google GenAI API Key 未配置。
解决方案:在系统设置页面编辑该服务商,填写 API Key
获取 API Key: https://aistudio.google.com/app/apikey"
  else inr (mk (or_text (GeneratorConfig.api_key config) [])).
End GoogleGenAIGenerator.

(** ** Choice of the provider ([config/index.ts], [generators/factory.ts],
       the constructor of [ImageService]) *)

(** The parsed file [image_providers.yaml]. *)
Record ProvidersConfig := mkProvidersConfig {
  active_provider : option jsstring;
  providers : option (gmap jsstring GeneratorConfig.t)
}.

(** The errors [getImageProviderConfig] throws. *)
Inductive ConfigError :=
  | no_providers
  | unknown_provider (providerName : jsstring)
  | missing_api_key (providerName : jsstring)
  | missing_base_url (providerName providerType : jsstring).

(** [config.active_provider || 'google_genai'] *)
Definition getActiveImageProvider (config : ProvidersConfig) : jsstring :=
  or_text (active_provider config) (utf16 "google_genai").

(** The checks on the copy [{ ...providers[providerName] }]. *)
Definition validate_provider (providerName : jsstring) (providerConfig : GeneratorConfig.t)
    : ConfigError + GeneratorConfig.t :=
  if falsy (GeneratorConfig.api_key providerConfig) then
    inl (missing_api_key providerName)
  else
    let providerType := or_text (GeneratorConfig.type providerConfig) providerName in
    if bool_decide (providerType ∈ [utf16 "openai"; utf16 "openai_compatible";
                                     utf16 "image_api"])
       && falsy (GeneratorConfig.base_url providerConfig)
    then inl (missing_base_url providerName providerType)
    else inr providerConfig.

(** [getImageProviderConfig].  The test [providerName in providers] also
    holds for the names [providers] inherits from [Object.prototype]; the
    copy of such a member has no field. *)
Definition getImageProviderConfig (config : ProvidersConfig)
    (providerName : option jsstring) : ConfigError + GeneratorConfig.t :=
  let providerName :=
    if falsy providerName then getActiveImageProvider config
    else or_text providerName [] in
  let providers_ := default ∅ (providers config) in
  if decide (providers_ = ∅) then inl no_providers
  else
    match providers_ !! providerName with
    | Some providerConfig => validate_provider providerName providerConfig
    | None =>
      if decide (providerName ∈ Outline.object_prototype_keys)
      then validate_provider providerName
             (GeneratorConfig.mk None None None None None)
      else inl (unknown_provider providerName)
    end.

(** What [ImageGeneratorFactory.create] returns: a generator of one of
    the three classes, or, for the provider name [constructor], the
    configuration object itself ([new Object(config)]). *)
Inductive Generator :=
  | google_genai (g : GoogleGenAIGenerator.t)
  | openai_compatible (g : OpenAICompatibleGenerator.t)
  | image_api (g : ImageApiGenerator.t)
  | plain_object (config : GeneratorConfig.t).

(** The errors of [create]: its own, the [TypeError] of [new] on a value
    that is no constructor, and what a constructor throws. *)
Inductive CreateError :=
  | unsupported (provider : jsstring)
  | not_a_constructor (provider : jsstring)
  | constructor_threw (message : string).

(** [ImageGeneratorFactory.create].  The test [provider in GENERATORS]
    also holds for the names inherited from [Object.prototype]: under
    [constructor] stands [Object], the other members are no constructors. *)
Definition create (provider : jsstring) (config : GeneratorConfig.t)
    : CreateError + Generator :=
  if decide (provider = utf16 "google_genai") then
    match GoogleGenAIGenerator.new config with
    | inr g => inr (google_genai g)
    | inl message => inl (constructor_threw message)
    end
  else if decide (provider = utf16 "openai" \/ provider = utf16 "openai_compatible") then
    match OpenAICompatibleGenerator.new config with
    | inr g => inr (openai_compatible g)
    | inl message => inl (constructor_threw message)
    end
  else if decide (provider = utf16 "image_api") then
    inr (image_api (ImageApiGenerator.new config))
  else if decide (provider = utf16 "constructor") then inr (plain_object config)
  else if decide (provider ∈ Outline.object_prototype_keys)
  then inl (not_a_constructor provider)
  else inl (unsupported provider).

(** The generator of a new [ImageService]: the validated configuration,
    then the factory with [providerConfig.type || providerName]. *)
Definition service_generator (config : ProvidersConfig)
    (providerName : option jsstring)
    : (ConfigError + CreateError) + Generator :=
  let name :=
    if falsy providerName then getActiveImageProvider config
    else or_text providerName [] in
  match getImageProviderConfig config (Some name) with
  | inl e => inl (inl e)
  | inr providerConfig =>
    let providerType := or_text (GeneratorConfig.type providerConfig) name in
    match create providerType providerConfig with
    | inl e => inl (inr e)
    | inr g => inr g
    end
  end.

(** ** The retry decorator of [generateText] *)

(** An error thrown by the decorated method, with its [message] if it has
    one, or the error the decorator makes after its loop. *)
Inductive RetryError :=
  | original (message : option string)
  | exhausted (maxRetries : nat).

Section Retry.
Context `{Platform}.
Context {Env A : Type}.

(** The decorated method, and the pause [setTimeout] makes, given
    [Math.pow(baseDelay, attempt)]; the random part of the pause belongs
    to the outside world. *)
Variable originalMethod : Env -> (option string + A) * Env.
Variable sleep : nat -> Env -> Env.

(** [errorStr.includes('429') || errorStr.includes('rate')] on
    [error.message?.toLowerCase() || '']. *)
Definition rate_limited (message : option string) : bool :=
  let errorStr := from_option toLowerCase "" message in
  str_includes "429" errorStr || str_includes "rate" errorStr.

(** The loop [for (attempt = 0; attempt < maxRetries; attempt++)] with
    [fuel] passes left.  The result carries the number of calls of the
    decorated method. *)
Fixpoint retry_loop (fuel attempt maxRetries baseDelay : nat) (env : Env)
    : (RetryError + A) * nat * Env :=
  match fuel with
  | O => (inl (exhausted maxRetries), 0, env)
  | S fuel' =>
    match originalMethod env with
    | (inr value, env) => (inr value, 1, env)
    | (inl message, env) =>
      if rate_limited message && bool_decide (attempt < maxRetries - 1) then
        let env := sleep (baseDelay ^ attempt) env in
        let '(result, calls, env) :=
          retry_loop fuel' (S attempt) maxRetries baseDelay env in
        (result, S calls, env)
      else (inl (original message), 1, env)
    end
  end.

Definition retryOn429 (maxRetries baseDelay : nat) (env : Env)
    : (RetryError + A) * nat * Env :=
  retry_loop maxRetries 0 maxRetries baseDelay env.

End Retry.

End Client.


(* ===================================================================== *)
(** * Settings routes ([routes/api.ts]: [GET /config], [POST /config]) *)
(* ===================================================================== *)

(** The two configuration files hold an [active_provider] and an object
    [providers] of provider objects; the fields of a provider are
    scalars.  Other shapes are not modelled. *)
Module Settings.

Inductive Scalar :=
  | s_null
  | s_bool (b : bool)
  | s_number (q : Q)
  | s_text (s : jsstring).

(** A provider object: its own fields; an absent field reads [undefined]. *)
Abbreviation Provider := (gmap string Scalar).
Abbreviation Providers := (gmap string (gmap string Scalar)).

Record ConfigDoc := mkDoc {
  active_provider : option Scalar;
  providers : option Providers
}.

(** Truthiness of a field value. *)
Definition truthy_value (v : option Scalar) : bool :=
  match v with
  | None | Some s_null => false
  | Some (s_bool b) => b
  | Some (s_number q) => negb (Qeq_bool q 0)
  | Some (s_text s) => match s with [] => false | _ => true end
  end.





(** [[true, false, '', null, undefined].includes(newConfig.api_key)] *)
Definition api_key_blank (v : option Scalar) : bool :=
  match v with
  | None | Some s_null | Some (s_bool _) | Some (s_text []) => true
  | _ => false
  end.

(** The body of the loop over the new providers. *)
Definition mergeProvider (existingProviders : Providers) (name : string)
    (newConfig : Provider) : Provider :=
  let newConfig :=
    if api_key_blank (newConfig !! "api_key") then
      match existingProviders !! name ≫= fun p => p !! "api_key" with
      | Some key =>
        if truthy_value (Some key) then <["api_key" := key]> newConfig
        else delete "api_key" newConfig
      | None => delete "api_key" newConfig
      end
    else newConfig in
  delete "api_key_masked" (delete "api_key_env" newConfig).

(** One section of the body of [POST /config]. *)
Record SectionData := mkSection {
  new_active_provider : option Scalar;
  new_providers : option Providers
}.

(** The update of one configuration file by [POST /config]; the result
    is the document written. *)
Definition postConfig (configFile : option ConfigDoc) (data : SectionData)
    : ConfigDoc :=
  let config :=
    match configFile with
    | Some c => c
    | None => mkDoc None (Some ∅)
    end in
  let config :=
    match new_active_provider data with
    | Some a => mkDoc (Some a) (providers config)
    | None => config
    end in
  match new_providers data with
  | Some newProviders =>
    let existingProviders := default ∅ (providers config) in
    mkDoc (active_provider config)
      (Some (map_imap (fun name newConfig =>
                         Some (mergeProvider existingProviders name newConfig))
               newProviders))
  | None => config
  end.


End Settings.


(* ===================================================================== *)
(** * Sample data *)
(* ===================================================================== *)

(** Concrete platforms, stores and pages on which the properties below are
    exercised. *)
Module Sample.
Import Outline History.

(** A platform whose library functions do nothing: lower-casing and
    compression return their argument and sorting keeps the order. *)
Definition platform : Platform :=
  {| toLowerCase := fun s => s;
     sort_by_stem := fun l => l;
     sort_by_stem_perm := fun l => Permutation_refl l;
     compressImage := fun b _ => b |}.

(** The store right after the service is constructed. *)
Definition empty_store : Store := mkStore (Some (parsed [])) ∅ ∅.

Definition page (i : nat) (t : PageType) : PageData := mkPage i t (utf16 "page").

Definition two_pages : OutlineResult.t :=
  OutlineResult.mk "outline" (Some [page 0 type_cover; page 1 type_content]) None.

(** One record, created for task [task_1] with a two-page outline. *)
Definition store_one : Store :=
  (createRecord "rec-1" "2025-01-01T00:00:00.000Z" "topic" two_pages
     (Some "task_1") empty_store).2.

(** An outside world in which the provider answers by the page content:
    an image for the contents listed in [good_contents], an error for any
    other page. *)
Definition good_contents : list jsstring := [utf16 "p0"; utf16 "p1"; utf16 "p2"].

Definition external : Image.External :=
  {| Image.Env := unit;
     Image.now := fun e => ("2025-01-01T00:00:00.000Z", e);
     Image.uuidv4 := fun e => ("0f8fad5b-d9cb-469f-a165-70867728950e", e);
     Image.generateImage := fun kwargs e =>
       (if decide (Image.page_content (Image.Kwargs.prompt kwargs) ∈ good_contents)
        then inr [137; 80; 78; 71]%N else inl "HTTP 500", e);
     Image.wait := fun _ e => e |}.

(** Five pages, the cover first. *)
Definition five_pages : list PageData :=
  [ mkPage 0 type_cover (utf16 "p0"); mkPage 1 type_content (utf16 "p1");
    mkPage 2 type_content (utf16 "p2"); mkPage 3 type_content (utf16 "p3");
    mkPage 4 type_summary (utf16 "p4") ].

(** A store with one record for the five pages, not yet linked to a task. *)
Definition store_five : Store :=
  (createRecord "rec-5" "2025-01-01T00:00:00.000Z" "topic"
     (OutlineResult.mk "outline" (Some five_pages) None) None empty_store).2.

Definition config (type_ : string) (high_concurrency : bool) : Image.ProviderConfig.t :=
  Image.ProviderConfig.mk (Some type_) None None None None None None
    (Some high_concurrency).

(** A freshly constructed service over a store. *)
Definition world (type_ : string) (high_concurrency : bool) (st : Store)
    : @Image.World external :=
  @Image.mkWorld external
    (Image.mkService (config type_ high_concurrency) false "template" "" None ∅)
    st tt [].

(** A task directory with two images and their thumbnails, for a record
    whose outline has one page. *)
Definition store_extra : Store :=
  mkStore
    (Some (parsed [HistoryIndexRecord.mk "rec-x" "topic" "t0" "t0" "partial"
                     (Some "0.png") 1 (Some "task_x")]))
    {[ "rec-x" := parsed
         (HistoryRecord.mk "rec-x" "topic" "t0" "t0"
            (OutlineResult.mk "outline" (Some [page 0 type_cover]) None)
            (Images.mk (Some "task_x") [Some "0.png"]) "partial" (Some "0.png")) ]}
    {[ "task_x" := {[ "0.png" := [1%N]; "thumb_0.png" := [1%N];
                      "1.png" := [2%N]; "thumb_1.png" := [2%N] ]} ]}.

(** A service that still holds the state of task [task_1], cover included. *)
Definition world_cached (type_ : string) : @Image.World external :=
  @Image.mkWorld external
    (Image.mkService (config type_ false) false "template" "" None
       {[ "task_1" := Image.mkTaskState [page 0 type_cover; page 1 type_content]
                        {[ 0 := "0.png" ]} {[ 1 := "HTTP 500" ]}
                        (Some [7; 7; 7]%N) "outline" None "topic" ]})
    (mkStore (Some (parsed [])) ∅ {[ "task_1" := {[ "0.png" := [9; 9]%N ]} ]})
    tt [].

(** The same after a restart: the task state is gone, the cover file is
    still on disk. *)
Definition world_restarted (type_ : string) : @Image.World external :=
  @Image.mkWorld external
    (Image.mkService (config type_ false) false "template" "" None ∅)
    (mkStore (Some (parsed [])) ∅ {[ "task_1" := {[ "0.png" := [9; 9]%N ]} ]})
    tt [].


(** A decoder that takes the line [STOP] for a choice with finish reason
    [stop] and content [url], and whose download fails. *)
Definition decoder : Stream.ChatDecoder :=
  {| Stream.parse_choice := fun jsonStr =>
       if decide (jsonStr = utf16 "STOP") then Stream.stop_with (utf16 "url")
       else Stream.no_stop;
     Stream.extractAndDownloadImage := fun _ => inl "download failed" |}.

(** A stream of 201 chunks of one progress line each. *)
Definition ticking_stream : list jsstring :=
  replicate 201 (utf16 "data: tick
").

(** The store of [store_one] after a client set the status of the record
    to the text [constructor]. *)
Definition store_odd_status : History.Store :=
  (History.updateRecord "2025-01-02T00:00:00.000Z" "rec-1"
     (History.Updates.mk None None (Some "constructor") None) store_one).2.

(** Two records: [rec-2] was created after [rec-1]. *)
Definition store_two : History.Store :=
  (History.createRecord "rec-2" "2025-01-02T00:00:00.000Z" "second" two_pages
     None store_one).2.

End Sample.


(* ===================================================================== *)
(** * Properties *)
(* ===================================================================== *)

Example utf16_labels :
  (utf16 "封面" = [23553; 38754] /\ utf16 "内容" = [20869; 23481]
  /\ utf16 "总结" = [24635; 32467] /\ utf16 "<page>" = [60; 112; 97; 103; 101; 62])%N.
Proof. vm_compute. auto. Qed.

Example split_str_dashes :
  split_str (utf16 "---") (utf16 "a----b---") = [utf16 "a"; utf16 "-b"; utf16 ""].
Proof. vm_compute. reflexivity. Qed.

Example split_regex_page :
  split_regex_i (utf16 "<page>") (utf16 "x<PAGE>y<page>") = [utf16 "x"; utf16 "y"; utf16 ""].
Proof. vm_compute. reflexivity. Qed.

Example trim_example :
  trim (utf16 "  [封面]
A
") = utf16 "[封面]
A".
Proof. vm_compute. reflexivity. Qed.

(* --------------------------------------------------------------------- *)
(** ** Outline parser *)
(* --------------------------------------------------------------------- *)

Section OutlineFacts.
Import Outline.

(** [split] returns one segment more than there are separators. *)
Lemma split_go_length m len skip cur s :
  length (split_go m len skip cur s) = S (count_go m len skip s).
Proof.
  revert skip cur.
  induction s as [|c s IH]; intros skip cur; simpl; [reflexivity|].
  destruct skip as [|k]; [|apply IH].
  destruct (m (c :: s)); simpl; rewrite IH; reflexivity.
Qed.

Lemma pagesRaw_length t : length (pagesRaw t) = S (delimiters t).
Proof.
  unfold pagesRaw, delimiters, split_regex_i, split_str, count_regex_i, count_str.
  destruct (includes _ t); apply split_go_length.
Qed.

(** Every page comes from one raw segment: it carries the position of that
    segment and the trimmed segment as its content. *)
Lemma forEach_pages_lookup i raw k p :
  forEach_pages i raw !! k = Some p ->
  exists j seg, raw !! j = Some seg /\ index p = (i + j)%nat
                /\ content p = trim seg /\ trim seg <> [] /\ (k <= j)%nat.
Proof.
  revert i k.
  induction raw as [|seg raw IH]; intros i k H; simpl in H; [discriminate|].
  destruct (trim seg) as [|c t] eqn:E.
  - destruct (IH _ _ H) as (j & s & Hj & Hi & Hc & Hn & Hk).
    exists (S j), s. repeat split; auto; lia.
  - destruct k as [|k]; simpl in H.
    + inversion H; subst; simpl.
      exists 0%nat, seg. rewrite E. repeat split; auto; try lia; try discriminate.
    + destruct (IH _ _ H) as (j & s & Hj & Hi & Hc & Hn & Hk).
      exists (S j), s. repeat split; auto; lia.
Qed.

(** When no segment is blank, nothing is skipped: one page per segment,
    numbered consecutively. *)
Lemma forEach_pages_all i raw :
  Forall (fun seg => trim seg <> []) raw ->
  length (forEach_pages i raw) = length raw
  /\ forall k p, forEach_pages i raw !! k = Some p -> index p = (i + k)%nat.
Proof.
  intros H. revert i.
  induction H as [|seg raw Hseg Hraw IH]; intros i; simpl.
  - split; [reflexivity|]. intros k p Hk. discriminate.
  - destruct (trim seg) as [|c t] eqn:E; [congruence|].
    destruct (IH (S i)) as [Hlen Hidx].
    split; [simpl; congruence|].
    intros [|k] p Hk; simpl in Hk.
    + inversion Hk; subst; simpl. lia.
    + rewrite (Hidx _ _ Hk). lia.
Qed.

(** The parser never produces more pages than segments, and the indices of
    the pages increase strictly (each is the position of its segment). *)
Lemma forEach_pages_le i raw :
  (length (forEach_pages i raw) <= length raw)%nat.
Proof.
  revert i. induction raw as [|seg raw IH]; intros i; simpl; [lia|].
  destruct (trim seg); simpl; specialize (IH (S i)); lia.
Qed.

Lemma parseOutline_at_most t :
  (length (_parseOutline t) <= S (delimiters t))%nat.
Proof.
  unfold _parseOutline. rewrite <- pagesRaw_length. apply forEach_pages_le.
Qed.

(** C2, as the specification words it, fails: one delimiter separates two
    pages. *)
Lemma parseOutline_delimiter_count_counterexample :
  let t := utf16 "A<page>B" in
  valid_outline t /\ delimiters t = 1%nat
  /\ length (_parseOutline t) <> delimiters t.
Proof.
  split; [|split].
  - vm_compute. repeat constructor; discriminate.
  - vm_compute. reflexivity.
  - vm_compute. discriminate.
Qed.

(** C2 (amended): for every valid outline text (no blank segment) with [N]
    page delimiters, [_parseOutline] produces exactly [N + 1] pages, and
    the [k]-th page produced has index [k]. *)
Theorem parseOutline_pages_of_delimiters (t : jsstring) (N : nat) :
  valid_outline t ->
  delimiters t = N ->
  length (_parseOutline t) = S N
  /\ forall k p, _parseOutline t !! k = Some p -> index p = k.
Proof.
  intros Hv HN. unfold _parseOutline.
  destruct (forEach_pages_all 0 _ Hv) as [Hlen Hidx].
  split.
  - rewrite Hlen, pagesRaw_length. congruence.
  - intros k p Hk. apply (Hidx _ _ Hk).
Qed.

Lemma parseOutline_pages_of_delimiters_witness :
  let t := utf16 "[封面]
A
<page>[内容]
B
<page>[总结]
C" in
  length (_parseOutline t) = 3%nat
  /\ forall k p, _parseOutline t !! k = Some p -> index p = k.
Proof.
  apply (parseOutline_pages_of_delimiters _ 2).
  - vm_compute. repeat constructor; discriminate.
  - vm_compute. reflexivity.
Defined.

(** A blank segment is skipped but still counted: the pages after it carry
    the position of their segment, not their rank among the pages. *)
Example parseOutline_blank_segment :
  map index (_parseOutline (utf16 "<page>A<page>B")) = [1; 2]%nat.
Proof. vm_compute. reflexivity. Qed.

(** The label of a page selects its type through [typeMapping]; a page
    without a label is a content page. *)
Lemma pageType_labelled pageText typeCn :
  typeMatch pageText = Some typeCn ->
  (typeCn = utf16 "封面" -> pageType pageText = type_cover)
  /\ (typeCn = utf16 "内容" -> pageType pageText = type_content)
  /\ (typeCn = utf16 "总结" -> pageType pageText = type_summary)
  /\ (typeCn ∉ object_prototype_keys ->
      typeCn <> utf16 "封面" -> typeCn <> utf16 "总结" ->
      pageType pageText = type_content).
Proof.
  intros H. unfold pageType. rewrite H.
  repeat split.
  - intros ->. reflexivity.
  - intros ->. reflexivity.
  - intros ->. reflexivity.
  - intros Hp Hc Hs. unfold typeMapping.
    repeat case_decide; try reflexivity; contradiction.
Qed.

Lemma pageType_unlabelled pageText :
  typeMatch pageText = None -> pageType pageText = type_content.
Proof. intros H. unfold pageType. rewrite H. reflexivity. Qed.

(** The scenario of the specification. *)
Example parseOutline_scenario :
  _parseOutline (utf16 "[封面]
A
<page>[内容]
B
<page>[总结]
C")
  = [ mkPage 0 type_cover (utf16 "[封面]
A");
      mkPage 1 type_content (utf16 "[内容]
B");
      mkPage 2 type_summary (utf16 "[总结]
C") ].
Proof. vm_compute. reflexivity. Qed.

(** C9: a label that names a member of [Object.prototype] is not one of
    the three mapping keys, yet the page does not get type ['content']: the
    lookup finds the inherited member, which is truthy, so the default is
    not taken. *)
Theorem parseOutline_inherited_label :
  let t := utf16 "[constructor]
A" in
  typeMatch (trim t) = Some (utf16 "constructor")
  /\ map type (_parseOutline t) = [type_inherited (utf16 "constructor")]
  /\ map type (_parseOutline t) <> [type_content].
Proof. vm_compute. repeat split; discriminate. Qed.

End OutlineFacts.

(* --------------------------------------------------------------------- *)
(** ** History store *)
(* --------------------------------------------------------------------- *)

Section HistoryFacts.
Import History.
Context `{Platform}.

Implicit Types (st : Store) (recordId now taskId : string).
Implicit Types (e : HistoryIndexRecord.t) (r record : HistoryRecord.t).
Implicit Types (updates : Updates.t).

(** The ids listed in the index. *)
#[local] Abbreviation ids st := (map HistoryIndexRecord.id (_loadIndex st)).


Lemma getRecord_Some recordId st r :
  getRecord recordId st = Some r <-> recordFiles st !! recordId = Some (parsed r).
Proof.
  unfold getRecord. destruct (recordFiles st !! recordId) as [[r'|]|]; split;
    intros E; congruence.
Qed.


(** *** Elements of a page of results *)




(** *** The ids of the index under each operation *)

Lemma patch_first_ids recordId f (records : list HistoryIndexRecord.t) :
  (forall e, HistoryIndexRecord.id (f e) = HistoryIndexRecord.id e) ->
  map HistoryIndexRecord.id (patch_first recordId f records)
  = map HistoryIndexRecord.id records.
Proof.
  intros Hf. induction records as [|e records IH]; simpl; [reflexivity|].
  case_decide; simpl; [rewrite Hf|rewrite IH]; reflexivity.
Qed.

Lemma updateRecord_ids now recordId updates st :
  ids (updateRecord now recordId updates st).2 = ids st.
Proof.
  unfold updateRecord. destruct (getRecord recordId st); [|reflexivity].
  simpl. apply patch_first_ids. intros e; reflexivity.
Qed.






End HistoryFacts.



(* --------------------------------------------------------------------- *)
(** ** Consistency of the index *)
(* --------------------------------------------------------------------- *)

Section IndexConsistency.
Import History.
Context `{Platform}.

Implicit Types (st : Store) (recordId now taskId : string).
Implicit Types (e : HistoryIndexRecord.t) (r record : HistoryRecord.t).
Implicit Types (updates : Updates.t).

#[local] Abbreviation ids st := (map HistoryIndexRecord.id (_loadIndex st)).

Lemma elem_of_ids st e : e ∈ _loadIndex st -> HistoryIndexRecord.id e ∈ ids st.
Proof.
  intros He. apply list_elem_of_In, in_map_iff. exists e.
  split; [reflexivity|]. apply list_elem_of_In. exact He.
Qed.

(** [createRecord] with a fresh id keeps the index consistent and its ids
    distinct. *)
Lemma createRecord_consistent recordId now topic outline (taskId : option string) st :
  recordId ∉ ids st ->
  index_consistent st -> index_unique st ->
  index_consistent (createRecord recordId now topic outline taskId st).2
  /\ index_unique (createRecord recordId now topic outline taskId st).2.
Proof.
  intros Hfresh Hc Hu. unfold createRecord; simpl. split.
  - intros e He. unfold _loadIndex in He; simpl in He.
    apply elem_of_cons in He as [-> | He].
    + eexists. unfold getRecord; simpl. rewrite lookup_insert_eq.
      split; [reflexivity|]. repeat split.
    + destruct (Hc e He) as (r & Hr & Hm). exists r. split; [|exact Hm].
      unfold getRecord in *; simpl. rewrite lookup_insert_ne; [exact Hr|].
      intros Heq. apply Hfresh. rewrite Heq. apply elem_of_ids. exact He.
  - unfold index_unique, _loadIndex; simpl. apply NoDup_cons. split; assumption.
Qed.

Lemma patch_first_elem_of recordId f (records : list HistoryIndexRecord.t) e' :
  NoDup (map HistoryIndexRecord.id records) ->
  (forall e, HistoryIndexRecord.id (f e) = HistoryIndexRecord.id e) ->
  e' ∈ patch_first recordId f records ->
  (exists e, e ∈ records /\ HistoryIndexRecord.id e = recordId /\ e' = f e)
  \/ (e' ∈ records /\ HistoryIndexRecord.id e' <> recordId).
Proof.
  intros Hnd Hf. induction records as [|e records IH]; simpl; intros He'.
  - inversion He'.
  - apply NoDup_cons in Hnd as [Hnotin Hnd].
    case_decide as Hid.
    + apply elem_of_cons in He' as [-> | He'].
      * left. exists e. split; [left|]. auto.
      * right. split; [right; exact He'|]. intros Heq. apply Hnotin.
        rewrite Hid, <- Heq. apply list_elem_of_In, in_map_iff. exists e'.
        split; [reflexivity|]. apply list_elem_of_In. exact He'.
    + apply elem_of_cons in He' as [-> | He'].
      * right. split; [left|exact Hid].
      * destruct (IH Hnd He') as [(e0 & He0 & Hid0 & ->) | [Hin Hne]].
        -- left. exists e0. split; [right; exact He0|]. auto.
        -- right. split; [right; exact Hin|exact Hne].
Qed.

(** The entry and the record agree after an update whose fields are
    truthy where present. *)
Lemma patch_entry_matches now updates e r :
  updates_truthy updates ->
  entry_matches e r ->
  entry_matches (patch_entry now updates e) (apply_updates now updates r).
Proof.
  intros (Hs & Ht & Hi) (Es & Et & Eu & Ep & Ek).
  unfold entry_matches, patch_entry, apply_updates; simpl.
  repeat split.
  - destruct (Updates.status updates) as [s|] eqn:E; simpl; [|exact Es].
    unfold truthy. rewrite bool_decide_eq_true_2; [reflexivity|]. apply Hs. reflexivity.
  - destruct (Updates.thumbnail updates) as [t|] eqn:E; simpl; [|exact Et].
    unfold truthy. rewrite bool_decide_eq_true_2; [reflexivity|]. apply Ht. reflexivity.
  - destruct (Updates.outline updates) as [o|]; simpl; [reflexivity|exact Ep].
  - destruct (Updates.images updates) as [im|] eqn:E; simpl; [|exact Ek].
    destruct (Hi im eq_refl) as (t & Htask & Hne). rewrite Htask. simpl.
    unfold truthy. rewrite bool_decide_eq_true_2; [reflexivity|exact Hne].
Qed.

(** [updateRecord] keeps the index consistent when every field it is given
    is truthy. *)
Lemma updateRecord_consistent now recordId updates st :
  updates_truthy updates ->
  index_consistent st -> index_unique st ->
  index_consistent (updateRecord now recordId updates st).2
  /\ index_unique (updateRecord now recordId updates st).2.
Proof.
  intros Hup Hc Hu. split.
  2: { unfold index_unique. rewrite updateRecord_ids. exact Hu. }
  unfold updateRecord. destruct (getRecord recordId st) as [record|] eqn:Hget;
    [|exact Hc].
  simpl. intros e' He'. unfold _loadIndex in He'; simpl in He'.
  apply patch_first_elem_of in He'; [|exact Hu|reflexivity].
  destruct He' as [(e & He & Hid & ->) | [He' Hne]].
  - exists (apply_updates now updates record). split.
    + unfold getRecord; simpl. rewrite Hid, lookup_insert_eq. reflexivity.
    + apply patch_entry_matches; [exact Hup|].
      destruct (Hc e He) as (r & Hr & Hm). rewrite Hid, Hget in Hr.
      inversion Hr; subst. exact Hm.
  - destruct (Hc e' He') as (r & Hr & Hm). exists r. split; [|exact Hm].
    unfold getRecord in *; simpl. rewrite lookup_insert_ne; [exact Hr|].
    intros Heq. apply Hne. symmetry. exact Heq.
Qed.


Lemma is_image_file_nonempty filename :
  is_image_file filename = true -> filename <> "".
Proof. intros Hf ->. vm_compute in Hf. discriminate. Qed.

Lemma scan_status_nonempty a b : scan_status a b <> "".
Proof. unfold scan_status. repeat case_decide; discriminate. Qed.

(** The update made by the directory scan keeps the index consistent. *)
Lemma scanAndSyncTaskImages_consistent now taskId st :
  taskId <> "" ->
  index_consistent st -> index_unique st ->
  index_consistent (scanAndSyncTaskImages now taskId st).2
  /\ index_unique (scanAndSyncTaskImages now taskId st).2.
Proof.
  intros Htask Hc Hu. unfold scanAndSyncTaskImages.
  destruct (taskDirs st !! taskId) as [dir|]; [|split; assumption].
  destruct (find_record_of_task taskId (_loadIndex st) st) as [rid|];
    [|split; assumption].
  destruct (if truthy rid then getRecord rid st else None) as [record|];
    [|split; assumption].
  match goal with
  | |- context [updateRecord now rid ?u st] =>
    pose proof (updateRecord_consistent now rid u st) as Hupd;
    destruct (updateRecord now rid u st) as [ok st'] eqn:E
  end.
  simpl in *. apply Hupd; [|exact Hc|exact Hu].
  repeat split; simpl.
  - intros s [= <-]. apply scan_status_nonempty.
  - intros t Hhead.
    assert (Hin : t ∈ sort_by_stem (List.filter is_image_file (map_to_list dir).*1)).
    { destruct (sort_by_stem _) as [|x l]; [discriminate|].
      simpl in Hhead. inversion Hhead; subst. left. }
    rewrite sort_by_stem_perm in Hin.
    apply list_elem_of_In, filter_In in Hin as [_ Hin].
    apply is_image_file_nonempty. exact Hin.
  - intros im [= <-]. exists taskId. split; [reflexivity|exact Htask].
Qed.

(** C3: an [updateRecord] call that returns [true] can leave the index
    behind the detail file.  The record was created for task [task_1]; the
    update passes an [images] object without a task id.  The detail file
    takes it (the field is not [undefined]), the index entry keeps the old
    task id (the new one is falsy). *)
Theorem updateRecord_index_drift :
  let upd := Updates.mk None (Some (Images.mk None [])) None None in
  let res := updateRecord "2025-01-02T00:00:00.000Z" "rec-1" upd Sample.store_one in
  index_consistent Sample.store_one
  /\ res.1 = true
  /\ (exists e r,
        e ∈ _loadIndex res.2
        /\ getRecord (HistoryIndexRecord.id e) res.2 = Some r
        /\ HistoryIndexRecord.task_id e = Some "task_1"
        /\ Images.task_id (HistoryRecord.images r) = None)
  /\ ~ index_consistent res.2.
Proof.
  assert (Hc0 : index_consistent Sample.store_one).
  { destruct (createRecord_consistent "rec-1" "2025-01-01T00:00:00.000Z" "topic"
                Sample.two_pages (Some "task_1") Sample.empty_store) as [Hc _].
    - vm_compute. inversion 1.
    - intros e He. vm_compute in He. inversion He.
    - vm_compute. constructor.
    - exact Hc. }
  split; [exact Hc0|]. split; [vm_compute; reflexivity|].
  set (e1 := HistoryIndexRecord.mk "rec-1" "topic" "2025-01-01T00:00:00.000Z"
               "2025-01-02T00:00:00.000Z" "draft" None 2 (Some "task_1")).
  assert (He1 : e1 ∈ _loadIndex
            (updateRecord "2025-01-02T00:00:00.000Z" "rec-1"
               (Updates.mk None (Some (Images.mk None [])) None None)
               Sample.store_one).2).
  { vm_compute. left. }
  split.
  - exists e1. eexists. split; [exact He1|].
    split; [vm_compute; reflexivity|]. split; reflexivity.
  - intros Hc. destruct (Hc e1 He1) as (r & Hr & Hm).
    vm_compute in Hr. inversion Hr; subst.
    destruct Hm as (_ & _ & _ & _ & Hk). vm_compute in Hk. discriminate.
Qed.

End IndexConsistency.

(* --------------------------------------------------------------------- *)
(** ** Streaming chat call *)
(* --------------------------------------------------------------------- *)

Section StreamFacts.
Import Stream.
Context `{ChatDecoder}.

Implicit Types (s a b cur text chunk line : jsstring) (st : State).
Implicit Types (chunks : list jsstring).

(** Splitting on a line feed. *)
#[local] Abbreviation lf := (startsWith [10%N]).
#[local] Abbreviation split_lf cur s := (split_go lf 1 0 cur s).

Lemma split_str_lf s : split_str (utf16 "
") s = split_lf [] s.
Proof. reflexivity. Qed.

Lemma lf_cons c s : lf (c :: s) = code_eqb 10 c.
Proof. cbn [startsWith]. apply andb_true_r. Qed.

Lemma split_lf_cons cur c s :
  split_lf cur (c :: s)
  = if code_eqb 10 c then reverse cur :: split_lf [] s else split_lf (c :: cur) s.
Proof. cbn [split_go pred]. rewrite lf_cons. reflexivity. Qed.

Lemma split_lf_nonempty cur s : split_lf cur s <> [].
Proof.
  revert cur. induction s as [|c s IH]; intros cur; [discriminate|].
  rewrite split_lf_cons. destruct (code_eqb 10 c); [discriminate|apply IH].
Qed.

(** Splitting a concatenation: the finished segments of the first part,
    then the split of the second part started in the unfinished segment. *)
Lemma split_lf_app cur a b :
  split_lf cur (a ++ b)
  = removelast (split_lf cur a)
    ++ split_lf (reverse (default [] (last (split_lf cur a)))) b.
Proof.
  revert cur. induction a as [|c a IH]; intros cur.
  - simpl. rewrite reverse_involutive. reflexivity.
  - change ((c :: a) ++ b) with (c :: (a ++ b)).
    rewrite !split_lf_cons.
    destruct (code_eqb 10 c) eqn:E.
    + rewrite IH.
      pose proof (split_lf_nonempty [] a) as Hne.
      destruct (split_lf [] a) as [|x l]; [congruence|]. reflexivity.
    + apply IH.
Qed.

(** No segment contains a line feed. *)
Lemma split_lf_segments cur s seg :
  Forall (fun c => code_eqb 10 c = false) cur ->
  seg ∈ split_lf cur s -> Forall (fun c => code_eqb 10 c = false) seg.
Proof.
  revert cur. induction s as [|c s IH]; intros cur Hcur Hseg.
  - apply list_elem_of_singleton in Hseg. subst seg.
    apply Forall_reverse. exact Hcur.
  - rewrite split_lf_cons in Hseg. destruct (code_eqb 10 c) eqn:E.
    + apply elem_of_cons in Hseg as [-> | Hseg].
      * apply Forall_reverse. exact Hcur.
      * apply (IH []); [constructor|exact Hseg].
    + apply (IH (c :: cur)); [constructor; assumption|exact Hseg].
Qed.

(** A prefix without line feed joins the segment under construction. *)
Lemma split_lf_prefix cur x s :
  Forall (fun c => code_eqb 10 c = false) x ->
  split_lf cur (x ++ s) = split_lf (reverse x ++ cur) s.
Proof.
  intros Hx. revert cur. induction Hx as [|c x Hc Hx IH]; intros cur.
  - reflexivity.
  - change ((c :: x) ++ s) with (c :: (x ++ s)).
    rewrite split_lf_cons, Hc, IH, reverse_cons, <- app_assoc. reflexivity.
Qed.

Lemma split_lf_last_clean s :
  Forall (fun c => code_eqb 10 c = false) (default [] (last (split_lf [] s))).
Proof.
  destruct (last (split_lf [] s)) as [seg|] eqn:E; [|constructor].
  simpl. apply (split_lf_segments [] s); [constructor|].
  apply last_Some_elem_of. exact E.
Qed.

(** The handler's view: it splits the kept remainder followed by the new
    chunk; that yields the rest of the split of the whole text. *)
Lemma split_lf_incremental a b :
  split_lf [] (a ++ b)
  = removelast (split_lf [] a)
    ++ split_lf [] (default [] (last (split_lf [] a)) ++ b).
Proof.
  rewrite split_lf_app. f_equal.
  rewrite (split_lf_prefix [] _ b (split_lf_last_clean a)).
  rewrite app_nil_r. reflexivity.
Qed.

Lemma complete_lines_app a b :
  complete_lines (a ++ b)
  = complete_lines a
    ++ removelast (split_lf [] (default [] (last (split_lf [] a)) ++ b)).
Proof.
  unfold complete_lines. rewrite !split_str_lf, split_lf_incremental.
  apply removelast_app, split_lf_nonempty.
Qed.

(** Lines without stop marker leave the state alone. *)
Lemma process_lines_no_stop lines st :
  Forall (fun line => classify line = no_stop) lines ->
  process_lines lines st = st.
Proof.
  induction 1 as [|line lines Hl _ IH]; simpl; [reflexivity|].
  rewrite Hl. exact IH.
Qed.

(** A chunk within the limit whose complete lines carry no stop marker
    only moves the buffer and the counter. *)
Lemma on_data_no_stop chunk st :
  listening st = true ->
  S (chunkCount st) <= MAX_CHUNKS ->
  Forall (fun line => classify line = no_stop)
    (removelast (split_lf [] (buffer st ++ chunk))) ->
  on_data chunk st
  = mkState (default [] (last (split_lf [] (buffer st ++ chunk))))
      (S (chunkCount st)) true (promise st).
Proof.
  intros Hl Hc Hlines. unfold on_data. rewrite Hl. cbn [negb].
  case_decide as Hmax; [lia|].
  rewrite split_str_lf, process_lines_no_stop by exact Hlines.
  reflexivity.
Qed.

(** As long as no complete line carries a stop marker and the limit is not
    exceeded, the promise stays pending, the listeners stay installed, the
    counter is the number of chunks, and the buffer holds the unfinished
    last line. *)
Lemma feed_no_stop chunks :
  length chunks <= MAX_CHUNKS ->
  Forall (fun line => classify line = no_stop) (complete_lines (concat chunks)) ->
  feed chunks initial
  = mkState (default [] (last (split_lf [] (concat chunks))))
      (length chunks) true pending.
Proof.
  induction chunks as [|chunk chunks IH] using rev_ind; intros Hlen Hlines.
  - reflexivity.
  - rewrite length_app in Hlen; cbn [length] in Hlen.
    assert (Hcat : concat (chunks ++ [chunk]) = concat chunks ++ chunk).
    { rewrite concat_app. cbn [concat]. rewrite app_nil_r. reflexivity. }
    rewrite Hcat in *.
    rewrite complete_lines_app in Hlines.
    apply Forall_app in Hlines as [Hold Hnew].
    unfold feed, run in *. rewrite map_app, fold_left_app.
    cbn [map fold_left on_event].
    rewrite IH by (auto; lia).
    rewrite on_data_no_stop; cbn [buffer chunkCount listening promise];
      [|reflexivity|lia|exact Hnew].
    rewrite (split_lf_incremental (concat chunks) chunk), last_app.
    pose proof (split_lf_nonempty []
                  (default [] (last (split_lf [] (concat chunks))) ++ chunk)) as Hne.
    destruct (last (split_lf [] (default [] (last (split_lf [] (concat chunks))) ++ chunk)))
      as [seg|] eqn:E.
    + rewrite length_app. cbn [length]. f_equal. lia.
    + apply last_None in E. congruence.
Qed.

(** Once the listeners are removed, no event changes the state. *)
Lemma run_not_listening evs st :
  listening st = false -> run evs st = st.
Proof.
  revert st. induction evs as [|ev evs IH]; intros st Hl; [reflexivity|].
  cbn [run fold_left]. assert (on_event ev st = st) as ->.
  { destruct ev; cbn [on_event]; unfold on_data, on_end, on_error;
      rewrite Hl; reflexivity. }
  apply IH. exact Hl.
Qed.

Lemma feed_app chunks chunks' st :
  feed (chunks ++ chunks') st = feed chunks' (feed chunks st).
Proof. unfold feed, run. rewrite map_app, fold_left_app. reflexivity. Qed.

(** The chunk after the limit rejects the promise. *)
Lemma on_data_over_limit chunk st :
  listening st = true -> chunkCount st = MAX_CHUNKS -> promise st = pending ->
  on_data chunk st
  = mkState (buffer st) (S MAX_CHUNKS) false (rejected timeout_message).
Proof.
  intros Hl Hc Hp. unfold on_data. rewrite Hl, Hc, Hp. cbn [negb settle].
  case_decide as Hmax; [reflexivity|lia].
Qed.

(** C7: when the stream delivers more than [MAX_CHUNKS] (200) chunks and no
    complete line of the first 200 carries a stop marker, the call ends at
    chunk 201: the promise is rejected with the time-out message that names
    the limit, the listeners are removed, and nothing the stream does
    afterwards changes that. *)
Theorem chunk_limit_rejects chunks (later : list StreamEvent) :
  MAX_CHUNKS < length chunks ->
  Forall (fun line => classify line = no_stop)
    (complete_lines (concat (take MAX_CHUNKS chunks))) ->
  promise (feed (take (S MAX_CHUNKS) chunks) initial) = rejected timeout_message
  /\ promise (run later (feed chunks initial)) = rejected timeout_message
  /\ listening (run later (feed chunks initial)) = false.
Proof.
  intros Hlen Hlines.
  assert (Hfirst : feed (take MAX_CHUNKS chunks) initial
                   = mkState (default [] (last (split_lf [] (concat (take MAX_CHUNKS chunks)))))
                       MAX_CHUNKS true pending).
  { rewrite feed_no_stop; [|rewrite length_take; lia|exact Hlines].
    rewrite length_take. f_equal. lia. }
  destruct (drop MAX_CHUNKS chunks) as [|chunk rest] eqn:Hdrop.
  { apply (f_equal length) in Hdrop. rewrite length_drop in Hdrop.
    cbn [length] in Hdrop. lia. }
  assert (Hsplit : chunks = take MAX_CHUNKS chunks ++ chunk :: rest).
  { rewrite <- Hdrop, take_drop. reflexivity. }
  assert (Hnext : feed (take MAX_CHUNKS chunks ++ [chunk]) initial
                  = mkState (default [] (last (split_lf [] (concat (take MAX_CHUNKS chunks)))))
                      (S MAX_CHUNKS) false (rejected timeout_message)).
  { rewrite feed_app, Hfirst. unfold feed at 1. cbn [map run fold_left on_event].
    rewrite on_data_over_limit; reflexivity. }
  assert (Hall : feed chunks initial
                 = mkState (default [] (last (split_lf [] (concat (take MAX_CHUNKS chunks)))))
                     (S MAX_CHUNKS) false (rejected timeout_message)).
  { rewrite Hsplit at 1.
    change (chunk :: rest) with ([chunk] ++ rest).
    rewrite app_assoc, feed_app, Hnext.
    apply run_not_listening. reflexivity. }
  assert (Htake : take (S MAX_CHUNKS) chunks = take MAX_CHUNKS chunks ++ [chunk]).
  { rewrite Hsplit at 1. rewrite <- Nat.add_1_r.
    rewrite take_app_add'; [reflexivity|].
    rewrite length_take. lia. }
  rewrite Htake, Hnext.
  rewrite run_not_listening by (rewrite Hall; reflexivity).
  rewrite Hall. repeat split.
Qed.

End StreamFacts.

(* --------------------------------------------------------------------- *)
(** ** Image orchestrator: one page *)
(* --------------------------------------------------------------------- *)

Section SinglePage.
Import Outline History Image.
Context `{Platform} `{External}.

Implicit Types (w : World) (st : Store) (page : PageData).
Implicit Types (referenceImage : option Buffer) (userImages : option (list Buffer)).
Implicit Types (fullOutline userTopic filename : string).

Lemma append_nonempty (s t : string) : t <> "" -> s +:+ t <> "".
Proof. intros Ht. destruct s; simpl; [exact Ht|discriminate]. Qed.

Lemma writeFile_spec dir filename d st st' :
  writeFile dir filename d st = Some st' ->
  indexFile st' = indexFile st
  /\ recordFiles st' = recordFiles st
  /\ (forall x, is_Some (taskDirs st !! x) -> is_Some (taskDirs st' !! x))
  /\ is_Some (taskDirs st !! dir)
  /\ (forall g, g = filename \/ is_Some (readFile dir g st) ->
                is_Some (readFile dir g st')).
Proof.
  unfold writeFile. destruct (taskDirs st !! dir) as [files|] eqn:E; [|discriminate].
  intros [= <-]. simpl. repeat split; eauto.
  - intros x Hx. destruct (decide (dir = x)) as [<-|Hne].
    + rewrite lookup_insert_eq. eauto.
    + rewrite lookup_insert_ne by exact Hne. exact Hx.
  - intros g Hg. unfold readFile in *; simpl. rewrite lookup_insert_eq. simpl.
    rewrite E in Hg. simpl in Hg.
    destruct (decide (filename = g)) as [<-|Hne].
    + rewrite lookup_insert_eq. eauto.
    + rewrite lookup_insert_ne by exact Hne. destruct Hg as [->|Hg]; [congruence|exact Hg].
Qed.

Lemma _saveImage_spec imageData filename taskDir w r w' :
  _saveImage imageData filename taskDir w = (r, w') ->
  service w' = service w /\ env w' = env w /\ calls w' = calls w
  /\ indexFile (store w') = indexFile (store w)
  /\ recordFiles (store w') = recordFiles (store w)
  /\ (forall x, is_Some (taskDirs (store w) !! x) ->
                is_Some (taskDirs (store w') !! x))
  /\ (r = None ->
      exists dir,
        (if truthy_opt taskDir then taskDir else currentTaskDir (service w)) = Some dir
        /\ is_Some (readFile dir filename (store w'))).
Proof.
  unfold _saveImage.
  destruct (if truthy_opt taskDir then taskDir else currentTaskDir (service w))
    as [dir|] eqn:Edir.
  2: { intros [= <- <-]. repeat split; auto. discriminate. }
  destruct (truthy dir); cbn [negb].
  2: { intros [= <- <-]. repeat split; auto. discriminate. }
  destruct (writeFile dir filename imageData (store w)) as [st1|] eqn:E1.
  2: { intros [= <- <-]. repeat split; auto. discriminate. }
  destruct (writeFile_spec _ _ _ _ _ E1) as (Hi1 & Hr1 & Hd1 & _ & Hf1).
  destruct (writeFile dir ("thumb_" +:+ filename) _ st1) as [st2|] eqn:E2.
  - destruct (writeFile_spec _ _ _ _ _ E2) as (Hi2 & Hr2 & Hd2 & _ & Hf2).
    intros [= <- <-]. simpl. repeat split; try congruence; auto.
    intros _. exists dir. split; [reflexivity|].
    apply Hf2. right. apply Hf1. left. reflexivity.
  - intros [= <- <-]. simpl. repeat split; auto. discriminate.
Qed.

Lemma attempt_once_spec page referenceImage fullOutline userImages userTopic w r w' :
  attempt_once page referenceImage fullOutline userImages userTopic w = (r, w') ->
  service w' = service w
  /\ indexFile (store w') = indexFile (store w)
  /\ recordFiles (store w') = recordFiles (store w)
  /\ (forall x, is_Some (taskDirs (store w) !! x) ->
                is_Some (taskDirs (store w') !! x))
  /\ calls w' = calls w ++ [build_kwargs (service w) page referenceImage
                              fullOutline userImages userTopic]
  /\ (forall f, r = inr f ->
        f <> "" /\ exists dir, currentTaskDir (service w) = Some dir
                               /\ is_Some (readFile dir f (store w'))).
Proof.
  unfold attempt_once.
  destruct (generateImage _ (env w)) as [reply e] eqn:Egen.
  destruct reply as [msg|imageData].
  - intros [= <- <-]. simpl. repeat split; auto. discriminate.
  - match goal with
    | |- context [_saveImage ?d ?f ?t ?w0] =>
      destruct (_saveImage d f t w0) as [[msg|] w1] eqn:Esave;
      destruct (_saveImage_spec _ _ _ _ _ _ Esave)
        as (Hs & He & Hc & Hi & Hr & Hd & Hf)
    end; simpl in *.
    + intros [= <- <-]. repeat split; auto. discriminate.
    + intros [= <- <-]. split_and!; auto.
      intros f [= <-]. split.
      * apply append_nonempty. discriminate.
      * destruct (Hf eq_refl) as (dir & Hdir & Hfile).
        exists dir. split; [|exact Hfile].
        destruct (truthy_opt (currentTaskDir (service w))); exact Hdir.
Qed.

Lemma attempt_loop_spec fuel attempt page referenceImage fullOutline userImages
    userTopic w res w' :
  attempt_loop fuel attempt page referenceImage fullOutline userImages userTopic w
  = (res, w') ->
  service w' = service w
  /\ indexFile (store w') = indexFile (store w)
  /\ recordFiles (store w') = recordFiles (store w)
  /\ (forall x, is_Some (taskDirs (store w) !! x) ->
                is_Some (taskDirs (store w') !! x))
  /\ (exists k, (0 < fuel -> 0 < k)
        /\ calls w' = calls w ++ replicate k (build_kwargs (service w) page
                                    referenceImage fullOutline userImages userTopic))
  /\ res.1.1.1 = index page
  /\ (res.1.1.2 = true ->
      exists f dir, res.1.2 = Some f /\ f <> ""
        /\ currentTaskDir (service w) = Some dir
        /\ is_Some (readFile dir f (store w'))).
Proof.
  revert attempt w.
  induction fuel as [|fuel IH]; intros attempt w; cbn [attempt_loop].
  - intros [= <- <-]. cbn [fst snd]. split_and!; auto.
    + exists 0. split; [lia|]. cbn [replicate]. rewrite app_nil_r. reflexivity.
    + discriminate.
  - destruct (attempt_once _ _ _ _ _ w) as [[errorMsg|filename] w1] eqn:E1.
    + destruct (attempt_once_spec _ _ _ _ _ _ _ _ E1) as (Hs & Hi & Hr & Hd & Hc & _).
      case_decide.
      * intros Eloop. apply IH in Eloop. cbn [service store set_env] in Eloop.
        destruct Eloop as (Hs' & Hi' & Hr' & Hd' & (k & _ & Hc') & Hidx & Hf).
        rewrite Hs in *. split_and!; try congruence; auto.
        -- exists (S k). split; [lia|].
           cbn [calls set_env] in Hc'. rewrite Hc', Hc, <- app_assoc. reflexivity.
      * intros [= <- <-]. cbn [fst snd]. split_and!; auto.
        -- exists 1. split; [lia|]. exact Hc.
        -- discriminate.
    + destruct (attempt_once_spec _ _ _ _ _ _ _ _ E1) as (Hs & Hi & Hr & Hd & Hc & Hf).
      intros [= <- <-]. cbn [fst snd]. split_and!; auto.
      * exists 1. split; [lia|]. exact Hc.
      * intros _. destruct (Hf filename eq_refl) as (Hne & dir & Hdir & Hfile).
        exists filename, dir. auto.
Qed.

(** The effect of [_generateSingleImage]. *)
Lemma _generateSingleImage_effect page taskId referenceImage retryCount
    fullOutline userImages userTopic w res w' :
  _generateSingleImage page taskId referenceImage retryCount fullOutline
    userImages userTopic w = (res, w') ->
  single_effect page
    (build_kwargs (service w) page referenceImage fullOutline userImages userTopic)
    w w' res.
Proof.
  unfold _generateSingleImage. intros E.
  destruct (attempt_loop_spec _ _ _ _ _ _ _ _ _ _ E)
    as (Hs & Hi & Hr & Hd & (k & Hk & Hc) & Hidx & Hf).
  constructor; auto.
  exists k. split; [apply Hk; unfold AUTO_RETRY_COUNT; lia|exact Hc].
Qed.

End SinglePage.

(* --------------------------------------------------------------------- *)
(** ** Image orchestrator: the steps of a run *)
(* --------------------------------------------------------------------- *)

Section RunSteps.
Import Outline History Image.
Context `{Platform} `{External}.

Implicit Types (w : World) (st : Store) (page : PageData) (pages : list PageData).
Implicit Types (loc : Locals) (evs : list ImageProgressEvent).
Implicit Types (recordId taskId : string).

(** *** The frame *)

Lemma frame_refl w : frame w w.
Proof. repeat split; auto. Qed.

Lemma frame_trans w1 w2 w3 : frame w1 w2 -> frame w2 w3 -> frame w1 w3.
Proof.
  intros (A1 & B1 & C1 & D1) (A2 & B2 & C2 & D2).
  repeat split; try congruence; auto.
Qed.

Lemma updateRecord_getRecord now recordId updates st x :
  is_Some (getRecord x st) ->
  is_Some (getRecord x (updateRecord now recordId updates st).2).
Proof.
  intros Hx. unfold updateRecord.
  destruct (getRecord recordId st) as [record|] eqn:E; [|exact Hx].
  cbn [snd]. unfold getRecord, _saveIndex, set_indexFile, set_recordFiles.
  cbn [recordFiles].
  destruct (decide (recordId = x)) as [<-|Hne].
  - rewrite lookup_insert_eq. eauto.
  - rewrite lookup_insert_ne by exact Hne. exact Hx.
Qed.

Lemma updateRecord_taskDirs now recordId updates st :
  taskDirs (updateRecord now recordId updates st).2 = taskDirs st.
Proof.
  unfold updateRecord. destruct (getRecord recordId st); reflexivity.
Qed.

Lemma updateRecord_written now recordId updates st record :
  getRecord recordId st = Some record ->
  getRecord recordId (updateRecord now recordId updates st).2
  = Some (apply_updates now updates record).
Proof.
  intros E. unfold updateRecord. rewrite E. cbn [snd].
  unfold getRecord, _saveIndex, set_indexFile, set_recordFiles.
  cbn [recordFiles]. rewrite lookup_insert_eq. reflexivity.
Qed.

Lemma history_update_frame recordId updates w :
  frame w (history_update recordId updates w)
  /\ calls (history_update recordId updates w) = calls w
  /\ service (history_update recordId updates w) = service w.
Proof.
  unfold history_update. destruct (now (env w)) as [t e].
  pose proof (updateRecord_getRecord t recordId updates (store w)) as Hg.
  pose proof (updateRecord_taskDirs t recordId updates (store w)) as Hd.
  destruct (updateRecord t recordId updates (store w)) as [ok st'].
  cbn [snd] in *. repeat split; auto.
  cbn [store set_store]. intros d Hx. rewrite Hd. exact Hx.
Qed.

Lemma history_update_written recordId updates w record :
  getRecord recordId (store w) = Some record ->
  getRecord recordId (store (history_update recordId updates w))
  = Some (apply_updates (now (env w)).1 updates record).
Proof.
  intros E. unfold history_update. destruct (now (env w)) as [t e].
  pose proof (updateRecord_written t recordId updates (store w) record E) as Hw.
  destruct (updateRecord t recordId updates (store w)) as [ok st'].
  exact Hw.
Qed.

Lemma update_taskState_frame taskId f w :
  frame w (update_taskState taskId f w)
  /\ calls (update_taskState taskId f w) = calls w
  /\ store (update_taskState taskId f w) = store w.
Proof. repeat split; auto. Qed.

Lemma single_effect_frame page kwargs w w' res :
  single_effect page kwargs w w' res -> frame w w'.
Proof.
  intros [Hs Hi Hr Hd _ _ _]. repeat split; try congruence; auto.
  intros x. unfold getRecord. rewrite Hr. auto.
Qed.

Lemma record_cover_frame recordId taskId i filename w :
  frame w (record_cover recordId taskId i filename w).
Proof. unfold record_cover. apply history_update_frame. Qed.

Lemma record_generated_frame recordId taskId gen w :
  frame w (record_generated recordId taskId gen w).
Proof. unfold record_generated. apply history_update_frame. Qed.

(** *** Separating the cover *)

Lemma partition_loop_spec pages coverPage otherPages :
  partition_loop pages coverPage otherPages
  = (match last (covers pages) with
     | Some p => Some p
     | None => coverPage
     end,
     otherPages ++ filter (fun p => type p <> type_cover) pages).
Proof.
  revert coverPage otherPages.
  induction pages as [|page pages IH]; intros coverPage otherPages.
  - cbn [partition_loop]. unfold covers. rewrite !filter_nil, app_nil_r. reflexivity.
  - cbn [partition_loop]. unfold covers in *. rewrite !filter_cons.
    destruct (decide (type page = type_cover)) as [Hc|Hc].
    + rewrite IH. rewrite decide_False by tauto.
      f_equal. destruct (filter _ pages) as [|q l] eqn:E; [reflexivity|].
      change (page :: q :: l) with ([page] ++ q :: l).
      rewrite last_app. destruct (last (q :: l)) eqn:E'; [reflexivity|].
      apply last_None in E'. discriminate.
    + rewrite IH. rewrite decide_True by exact Hc.
      rewrite <- app_assoc. reflexivity.
Qed.

Lemma filter_split_length pages :
  length (covers pages) + length (filter (fun p => type p <> type_cover) pages)
  = length pages.
Proof.
  unfold covers. induction pages as [|page pages IH]; [reflexivity|].
  rewrite !filter_cons.
  destruct (decide (type page = type_cover)) as [Hc|Hc].
  - rewrite decide_False by tauto. cbn [length]. lia.
  - rewrite decide_True by exact Hc. cbn [length]. lia.
Qed.

Lemma filter_no_cover pages :
  covers pages = [] -> filter (fun p => type p <> type_cover) pages = pages.
Proof.
  unfold covers. induction pages as [|page pages IH]; [reflexivity|].
  rewrite !filter_cons.
  destruct (decide (type page = type_cover)) as [Hc|Hc]; [discriminate|].
  intros E. rewrite decide_True by exact Hc. rewrite IH by exact E. reflexivity.
Qed.


(** *** Events *)

Lemma causal_nil : causal [].
Proof. intros j ev Hj. discriminate. Qed.

Lemma causal_app evs1 evs2 : causal evs1 -> causal evs2 -> causal (evs1 ++ evs2).
Proof.
  intros H1 H2 j ev Hj Hout.
  apply lookup_app_Some in Hj as [Hj | [Hlen Hj]].
  - destruct (H1 j ev Hj Hout) as (k & i & ev' & Hk & Hi & Hev' & Hp & Hk').
    exists k, i, ev'. split_and!; auto. apply lookup_app_l_Some. exact Hev'.
  - destruct (H2 _ ev Hj Hout) as (k & i & ev' & Hk & Hi & Hev' & Hp & Hk').
    exists k, (length evs1 + i), ev'. split_and!; auto; [lia|].
    rewrite lookup_app_r by lia.
    replace (length evs1 + i - length evs1) with i by lia. exact Hev'.
Qed.

Lemma not_outcome_progress ev : event ev = progress -> ~ is_outcome ev.
Proof. intros E [E'|E']; congruence. Qed.

Lemma causal_cons_progress ev evs :
  event ev = progress -> causal evs -> causal (ev :: evs).
Proof.
  intros Hp Hc. change (ev :: evs) with ([ev] ++ evs).
  apply causal_app; [|exact Hc].
  intros [|j] ev' Hj Hout; [|destruct j; discriminate].
  inversion Hj; subst. exfalso. exact (not_outcome_progress _ Hp Hout).
Qed.

Lemma causal_pair ev_p ev_r k :
  event ev_p = progress -> event_index ev_p = Some k -> event_index ev_r = Some k ->
  causal [ev_p; ev_r].
Proof.
  intros Hp Hk Hr [|[|j]] ev Hj Hout; try discriminate.
  - inversion Hj; subst. exfalso. exact (not_outcome_progress _ Hp Hout).
  - inversion Hj; subst. exists k, 0, ev_p. split_and!; auto; lia.
Qed.

Lemma map_lookup_Some {A B} (f : A -> B) (l : list A) i y :
  map f l !! i = Some y <-> exists x, l !! i = Some x /\ y = f x.
Proof.
  change (map f l) with (f <$> l). rewrite list_lookup_fmap_Some.
  split; intros (x & ? & ?); exists x; auto.
Qed.

(** A batch: the progress events of all pages, then their outcomes in the
    same order. *)
Lemma causal_batch ev0 pages loc total evs :
  event ev0 = progress ->
  Forall2 (fun ev p => event_index ev = Some (index p)) evs pages ->
  causal (ev0 :: map (fun p => progress_content p loc total) pages ++ evs).
Proof.
  intros Hp0 Hall [|j] ev Hj Hout.
  { inversion Hj; subst. exfalso. exact (not_outcome_progress _ Hp0 Hout). }
  cbn [lookup list_lookup] in Hj.
  apply lookup_app_Some in Hj as [Hj | [Hlen Hj]].
  - apply map_lookup_Some in Hj as (p & Hp & ->).
    exfalso. apply (not_outcome_progress (progress_content p loc total)); auto.
  - rewrite length_map in *.
    destruct (Forall2_lookup_l _ _ _ _ _ Hall Hj) as (p & Hp & Hidx).
    exists (index p), (S (j - length pages)), (progress_content p loc total).
    split_and!; auto.
    + apply lookup_lt_Some in Hp. lia.
    + cbn [lookup list_lookup]. apply lookup_app_l_Some.
      apply map_lookup_Some. exists p. auto.
Qed.

Lemma events_named_app name evs1 evs2 :
  events_named name (evs1 ++ evs2)
  = events_named name evs1 ++ events_named name evs2.
Proof. apply filter_app. Qed.

Lemma indices_named_app name evs1 evs2 :
  indices_named name (evs1 ++ evs2)
  = indices_named name evs1 ++ indices_named name evs2.
Proof. unfold indices_named. rewrite events_named_app. apply omap_app. Qed.

Lemma events_named_other name ev evs :
  event ev <> name -> events_named name (ev :: evs) = events_named name evs.
Proof. intros Hne. unfold events_named. rewrite filter_cons, decide_False; auto. Qed.

Lemma events_named_same name ev evs :
  event ev = name -> events_named name (ev :: evs) = ev :: events_named name evs.
Proof. intros He. unfold events_named. rewrite filter_cons, decide_True; auto. Qed.

Lemma tally_refl loc : tally [] loc loc.
Proof.
  unfold tally, indices_named, events_named. rewrite !filter_nil. cbn.
  rewrite app_nil_r. split_and!; auto; lia.
Qed.

Lemma tally_trans evs1 evs2 loc0 loc1 loc2 :
  tally evs1 loc0 loc1 -> tally evs2 loc1 loc2 -> tally (evs1 ++ evs2) loc0 loc2.
Proof.
  intros (G1 & F1 & L1 & K1) (G2 & F2 & L2 & K2). unfold tally.
  rewrite !events_named_app, !indices_named_app, !length_app.
  split_and!; [lia| |lia|lia].
  rewrite F2, F1, <- app_assoc. reflexivity.
Qed.

Lemma tally_cons_progress ev evs loc loc' :
  event ev = progress -> tally evs loc loc' -> tally (ev :: evs) loc loc'.
Proof.
  intros Hp (G & F & L & K). unfold tally, indices_named.
  rewrite !events_named_other by congruence. auto.
Qed.


(** *** One outcome *)

Lemma tally_complete ev loc filename k :
  event ev = complete -> event_index ev = Some k ->
  tally [ev] loc
    (mkLocals (generatedImages loc ++ [filename]) (failedPages loc)
       (coverImageData loc)).
Proof.
  intros He Hi. unfold tally, indices_named.
  rewrite (events_named_same complete) by exact He.
  rewrite (events_named_other error) by congruence.
  unfold events_named. rewrite !filter_nil. cbn [generatedImages failedPages].
  rewrite length_app, app_nil_r. cbn. rewrite Hi. split_and!; auto.
Qed.

Lemma tally_error ev loc page :
  event ev = error -> event_index ev = Some (index page) ->
  tally [ev] loc
    (mkLocals (generatedImages loc) (failedPages loc ++ [page])
       (coverImageData loc)).
Proof.
  intros He Hi. unfold tally, indices_named.
  rewrite (events_named_same error) by exact He.
  rewrite (events_named_other complete) by congruence.
  unfold events_named. rewrite !filter_nil. cbn [generatedImages failedPages].
  rewrite map_app. cbn. rewrite Hi. split_and!; auto.
Qed.

Lemma on_fulfilled_spec taskId hist page (value : SingleResult) loc w ev loc' w' :
  value.1.1.1 = index page ->
  on_fulfilled taskId hist page value loc w = (ev, loc', w') ->
  is_outcome ev /\ event_index ev = Some (index page)
  /\ event_phase ev = Some "content"
  /\ tally [ev] loc loc'
  /\ length (generatedImages loc') + length (failedPages loc')
     = S (length (generatedImages loc) + length (failedPages loc))
  /\ coverImageData loc' = coverImageData loc
  /\ frame w w'.
Proof.
  destruct value as [[[i s] f] e]. cbn [fst]. intros ->.
  unfold on_fulfilled. destruct (s && truthy_opt f).
  - intros [= <- <- <-]. split_and!.
    + left. reflexivity.
    + reflexivity.
    + reflexivity.
    + eapply tally_complete; reflexivity.
    + cbn [generatedImages failedPages]. rewrite length_app. cbn. lia.
    + reflexivity.
    + destruct hist as [recordId|].
      * eapply frame_trans; [apply update_taskState_frame|].
        apply record_generated_frame.
      * apply update_taskState_frame.
  - intros [= <- <- <-]. split_and!.
    + right. reflexivity.
    + reflexivity.
    + reflexivity.
    + apply tally_error; reflexivity.
    + cbn [generatedImages failedPages]. rewrite length_app. cbn. lia.
    + reflexivity.
    + apply update_taskState_frame.
Qed.

Lemma on_settled_spec taskId hist page result loc w ev loc' w' :
  settled_for result page ->
  on_settled taskId hist page result loc w = (ev, loc', w') ->
  is_outcome ev /\ event_index ev = Some (index page)
  /\ event_phase ev = Some "content"
  /\ tally [ev] loc loc'
  /\ length (generatedImages loc') + length (failedPages loc')
     = S (length (generatedImages loc) + length (failedPages loc))
  /\ coverImageData loc' = coverImageData loc
  /\ frame w w'.
Proof.
  destruct result as [value|reason]; cbn [settled_for on_settled].
  - apply on_fulfilled_spec.
  - intros _ [= <- <- <-]. split_and!.
    + right. reflexivity.
    + reflexivity.
    + reflexivity.
    + apply tally_error; reflexivity.
    + cbn [generatedImages failedPages]. rewrite length_app. cbn. lia.
    + reflexivity.
    + apply update_taskState_frame.
Qed.

(** *** The content loops *)

Lemma sequential_loop_spec pages taskId total fullOutline compressed userTopic
    hist loc w evs loc' w' :
  sequential_loop pages taskId total fullOutline compressed userTopic hist loc w
  = (evs, loc', w') ->
  all_phase "content" evs /\ causal evs /\ tally evs loc loc'
  /\ length (generatedImages loc') + length (failedPages loc')
     = length (generatedImages loc) + length (failedPages loc) + length pages
  /\ frame w w'.
Proof.
  revert loc w evs loc' w'.
  induction pages as [|page pages IH]; intros loc w evs loc' w'; cbn [sequential_loop].
  - intros [= <- <- <-]. split_and!.
    + constructor.
    + apply causal_nil.
    + apply tally_refl.
    + cbn. lia.
    + apply frame_refl.
  - destruct (_generateSingleImage page taskId _ 0 _ _ _ w) as [value w1] eqn:E1.
    pose proof (_generateSingleImage_effect _ _ _ _ _ _ _ _ _ _ E1) as Heff.
    destruct (on_fulfilled taskId hist page value loc w1) as [[ev_r loc1] w2] eqn:E2.
    destruct (on_fulfilled_spec _ _ _ _ _ _ _ _ _ (se_result_index _ _ _ _ _ Heff) E2)
      as (Hout & Hidx & Hph & Htal & Hcnt & Hcov & Hfr).
    destruct (sequential_loop pages _ _ _ _ _ _ loc1 w2) as [[evs2 loc2] w3] eqn:E3.
    destruct (IH _ _ _ _ _ E3) as (Hph2 & Hca2 & Htal2 & Hcnt2 & Hfr2).
    intros [= <- <- <-]. split_and!.
    + constructor; [reflexivity|]. constructor; assumption.
    + change (?a :: ?b :: evs2) with ([a; b] ++ evs2).
      apply causal_app; [|exact Hca2].
      eapply causal_pair; [reflexivity|reflexivity|exact Hidx].
    + apply tally_cons_progress; [reflexivity|].
      change (ev_r :: evs2) with ([ev_r] ++ evs2).
      eapply tally_trans; eassumption.
    + cbn [length]. lia.
    + eapply frame_trans; [eapply single_effect_frame; exact Heff|].
      eapply frame_trans; eassumption.
Qed.

Lemma allSettled_spec pages taskId referenceImage fullOutline compressed
    userTopic w results w' :
  allSettled pages taskId referenceImage fullOutline compressed userTopic w
  = (results, w') ->
  Forall2 settled_for results pages /\ frame w w'.
Proof.
  revert w results w'.
  induction pages as [|page pages IH]; intros w results w'; cbn [allSettled].
  - intros [= <- <-]. split; [constructor|apply frame_refl].
  - destruct (_generateSingleImage page taskId _ 0 _ _ _ w) as [value w1] eqn:E1.
    pose proof (_generateSingleImage_effect _ _ _ _ _ _ _ _ _ _ E1) as Heff.
    destruct (allSettled pages _ _ _ _ _ w1) as [results2 w2] eqn:E2.
    destruct (IH _ _ _ E2) as (Hall & Hfr).
    intros [= <- <-]. split.
    + constructor; [exact (se_result_index _ _ _ _ _ Heff)|exact Hall].
    + eapply frame_trans; [eapply single_effect_frame; exact Heff|exact Hfr].
Qed.

Lemma results_loop_spec results pages taskId hist loc w evs loc' w' :
  Forall2 settled_for results pages ->
  results_loop results pages taskId hist loc w = (evs, loc', w') ->
  Forall2 (fun ev p => event_index ev = Some (index p)) evs pages
  /\ all_phase "content" evs /\ tally evs loc loc'
  /\ length (generatedImages loc') + length (failedPages loc')
     = length (generatedImages loc) + length (failedPages loc) + length pages
  /\ frame w w'.
Proof.
  intros Hall. revert loc w evs loc' w'.
  induction Hall as [|result page results pages Hres Hall IH];
    intros loc w evs loc' w'; cbn [results_loop].
  - intros [= <- <- <-]. split_and!.
    + constructor.
    + constructor.
    + apply tally_refl.
    + cbn. lia.
    + apply frame_refl.
  - destruct (on_settled taskId hist page result loc w) as [[ev_r loc1] w1] eqn:E1.
    destruct (on_settled_spec _ _ _ _ _ _ _ _ _ Hres E1)
      as (Hout & Hidx & Hph & Htal & Hcnt & Hcov & Hfr).
    destruct (results_loop results pages taskId hist loc1 w1) as [[evs2 loc2] w2] eqn:E2.
    destruct (IH _ _ _ _ _ E2) as (Hidx2 & Hph2 & Htal2 & Hcnt2 & Hfr2).
    intros [= <- <- <-]. split_and!.
    + constructor; assumption.
    + constructor; assumption.
    + change (ev_r :: evs2) with ([ev_r] ++ evs2).
      eapply tally_trans; eassumption.
    + cbn [length]. lia.
    + eapply frame_trans; eassumption.
Qed.


(** *** The two phases *)

Lemma content_phase_spec pages taskId total fullOutline compressed userTopic
    hist loc w evs loc' w' :
  content_phase pages taskId total fullOutline compressed userTopic hist loc w
  = (evs, loc', w') ->
  all_phase "content" evs /\ causal evs /\ tally evs loc loc'
  /\ length (generatedImages loc') + length (failedPages loc')
     = length (generatedImages loc) + length (failedPages loc) + length pages
  /\ frame w w'.
Proof.
  unfold content_phase. destruct pages as [|page0 pages0] eqn:Epages.
  { intros [= <- <- <-]. split_and!.
    - constructor.
    - apply causal_nil.
    - apply tally_refl.
    - cbn. lia.
    - apply frame_refl. }
  rewrite <- Epages. clear Epages page0 pages0.
  destruct (default false _).
  - destruct (allSettled pages _ _ _ _ _ w) as [results w1] eqn:E1.
    destruct (allSettled_spec _ _ _ _ _ _ _ _ _ E1) as (Hall & Hfr1).
    destruct (results_loop results pages taskId hist loc w1) as [[evs2 loc2] w2] eqn:E2.
    destruct (results_loop_spec _ _ _ _ _ _ _ _ _ Hall E2)
      as (Hidx & Hph & Htal & Hcnt & Hfr2).
    intros [= <- <- <-]. split_and!.
    + constructor; [reflexivity|]. apply Forall_app. split; [|exact Hph].
      apply Forall_forall. intros ev Hev.
      apply list_elem_of_In, in_map_iff in Hev as (p & <- & _). reflexivity.
    + apply causal_batch; [reflexivity|exact Hidx].
    + apply tally_cons_progress; [reflexivity|].
      eapply (tally_trans _ _ loc loc); [|exact Htal].
      clear. induction pages as [|p pages IH]; [apply tally_refl|].
      cbn [map]. apply tally_cons_progress; [reflexivity|exact IH].
    + exact Hcnt.
    + eapply frame_trans; eassumption.
  - destruct (sequential_loop pages _ _ _ _ _ _ loc w) as [[evs2 loc2] w2] eqn:E2.
    destruct (sequential_loop_spec _ _ _ _ _ _ _ _ _ _ _ _ E2)
      as (Hph & Hca & Htal & Hcnt & Hfr).
    intros [= <- <- <-]. split_and!.
    + constructor; [reflexivity|exact Hph].
    + apply causal_cons_progress; [reflexivity|exact Hca].
    + apply tally_cons_progress; [reflexivity|exact Htal].
    + exact Hcnt.
    + exact Hfr.
Qed.

Lemma cover_phase_spec coverPage taskId total fullOutline compressed userTopic
    hist w evs loc completion w' :
  cover_phase coverPage taskId total fullOutline compressed userTopic hist w
  = (evs, loc, completion, w') ->
  completion = returned
  /\ all_phase "cover" evs /\ causal evs
  /\ tally evs (mkLocals [] [] None) loc
  /\ length (generatedImages loc) + length (failedPages loc) = 1
  /\ frame w w'.
Proof.
  unfold cover_phase.
  destruct (_generateSingleImage coverPage taskId None 0 _ _ _ w)
    as [[[[i s] f] e] w1] eqn:E1.
  pose proof (_generateSingleImage_effect _ _ _ _ _ _ _ _ _ _ E1) as Heff.
  pose proof (se_result_index _ _ _ _ _ Heff) as Hidx. cbn [fst] in Hidx. subst i.
  pose proof (se_file _ _ _ _ _ Heff) as Hfile. cbn [fst snd] in Hfile.
  pose proof (single_effect_frame _ _ _ _ _ Heff) as Hfr1.
  destruct s.
  - destruct (Hfile eq_refl) as (f0 & dir & -> & Hne & Hdir & Hread).
    cbn [truthy_opt andb]. unfold truthy at 1.
    rewrite bool_decide_eq_true_2 by exact Hne. cbn [default from_option id].
    assert (Hcur : currentTaskDir
                     (service (update_taskState taskId
                        (fun t => set_generated (<[index coverPage := f0]> (generated t)) t) w1))
                   = Some dir).
    { cbn. rewrite (se_service _ _ _ _ _ Heff). exact Hdir. }
    rewrite Hcur. cbn [mbind option_bind].
    change (store (update_taskState taskId
                     (fun t => set_generated (<[index coverPage := f0]> (generated t)) t) w1))
      with (store w1).
    destruct Hread as [coverData Hread]. rewrite Hread.
    intros [= <- <- <- <-]. split_and!.
    + reflexivity.
    + repeat constructor.
    + eapply causal_pair; reflexivity.
    + apply tally_cons_progress; [reflexivity|].
      eapply (tally_complete _ (mkLocals [] [] None) f0); reflexivity.
    + reflexivity.
    + eapply frame_trans; [exact Hfr1|].
      eapply frame_trans; [apply update_taskState_frame|].
      eapply frame_trans; [apply update_taskState_frame|].
      destruct hist as [recordId|]; [apply record_cover_frame|apply frame_refl].
  - cbn [andb]. intros [= <- <- <- <-]. split_and!.
    + reflexivity.
    + repeat constructor.
    + eapply causal_pair; reflexivity.
    + apply tally_cons_progress; [reflexivity|].
      apply (tally_error _ (mkLocals [] [] None) coverPage); reflexivity.
    + reflexivity.
    + eapply frame_trans; [exact Hfr1|]. apply update_taskState_frame.
Qed.


(** *** The whole run *)

Lemma ensure_dir_getRecord taskId st x :
  getRecord x (ensure_dir taskId st) = getRecord x st.
Proof. unfold ensure_dir. destruct (taskDirs st !! taskId); reflexivity. Qed.

Lemma start_task_records pages (taskId : option string) fullOutline userImages
    userTopic (recordId : option string) w tid compressed w1 :
  start_task pages taskId fullOutline userImages userTopic recordId w
  = (tid, compressed, w1) ->
  forall x, is_Some (getRecord x (store w)) -> is_Some (getRecord x (store w1)).
Proof.
  unfold start_task.
  set (named := match taskId with
                | Some t => if truthy t then (t, w) else _
                | None => _
                end).
  assert (Hnamed : store named.2 = store w).
  { subst named. destruct taskId as [t|]; [destruct (truthy t)|];
      try reflexivity; destruct (uuidv4 (env w)); reflexivity. }
  destruct named as [tid0 w0]. cbn [snd] in Hnamed.
  intros E x Hx.
  destruct (history_record recordId) as [rid|];
    injection E as <- <- <-.
  - unfold link_task. apply history_update_frame.
    cbn [store set_service set_store]. rewrite ensure_dir_getRecord, Hnamed. exact Hx.
  - cbn [store set_service set_store]. rewrite ensure_dir_getRecord, Hnamed. exact Hx.
Qed.

(** The shape of every run of [generateImages]: it returns; its events are
    those of the cover, those of the content pages and the [finish] event;
    the local variables the last two steps read are accounted for by the
    events; and with a record to update, the detail file ends up with the
    final status and the list of generated files. *)
Lemma generateImages_run pages (taskId : option string) fullOutline userImages
    userTopic (recordId : option string) w evs completion w' :
  generateImages pages taskId fullOutline userImages userTopic recordId w
  = (evs, completion, w') ->
  completion = returned
  /\ exists tid evs_cover evs_content loc,
       evs = evs_cover ++ evs_content ++ [finish_event tid (length pages) loc]
       /\ all_phase "cover" evs_cover /\ all_phase "content" evs_content
       /\ causal evs_cover /\ causal evs_content
       /\ tally (evs_cover ++ evs_content) (mkLocals [] [] None) loc
       /\ length (generatedImages loc) + length (failedPages loc)
          = length (option_list (partition_pages pages).1)
            + length (partition_pages pages).2
       /\ forall rid r0,
            history_record recordId = Some rid ->
            getRecord rid (store w) = Some r0 ->
            exists r', getRecord rid (store w') = Some r'
              /\ HistoryRecord.status r' = final_status loc
              /\ Images.generated (HistoryRecord.images r')
                 = map Some (generatedImages loc).
Proof.
  unfold generateImages.
  destruct (start_task pages taskId fullOutline userImages userTopic recordId w)
    as [[tid compressed] w1] eqn:E0.
  pose proof (start_task_records _ _ _ _ _ _ _ _ _ _ E0) as Hrec0.
  destruct (partition_pages pages) as [coverPage otherPages] eqn:Epart.
  cbn [fst snd].
  set (cover_result := match coverPage with
                       | Some c => cover_phase c tid (length pages) fullOutline
                                     compressed userTopic (history_record recordId) w1
                       | None => ([], mkLocals [] [] None, returned, w1)
                       end).
  assert (Hcover : cover_result.1.2 = returned
                   /\ all_phase "cover" cover_result.1.1.1
                   /\ causal cover_result.1.1.1
                   /\ tally cover_result.1.1.1 (mkLocals [] [] None) cover_result.1.1.2
                   /\ length (generatedImages cover_result.1.1.2)
                      + length (failedPages cover_result.1.1.2)
                      = length (option_list coverPage)
                   /\ frame w1 cover_result.2).
  { subst cover_result. destruct coverPage as [c|].
    - destruct (cover_phase c tid _ _ _ _ _ w1) as [[[evs1 loc1] c1] w2] eqn:E1.
      apply cover_phase_spec in E1. exact E1.
    - cbn. split_and!; auto.
      + constructor.
      + apply causal_nil.
      + apply tally_refl.
      + apply frame_refl. }
  destruct cover_result as [[[evs1 loc1] c1] w2]. cbn [fst snd] in Hcover.
  destruct Hcover as (-> & Hph1 & Hca1 & Htal1 & Hcnt1 & Hfr1).
  destruct (content_phase otherPages tid _ _ _ _ _ loc1 w2)
    as [[evs2 loc2] w3] eqn:E2.
  destruct (content_phase_spec _ _ _ _ _ _ _ _ _ _ _ _ E2)
    as (Hph2 & Hca2 & Htal2 & Hcnt2 & Hfr2).
  intros [= <- <- <-]. split; [reflexivity|].
  exists tid, evs1, evs2, loc2. split_and!; auto.
  - eapply tally_trans; eassumption.
  - lia.
  - intros rid r0 Hrid Hr0. rewrite Hrid.
    assert (Hr3 : is_Some (getRecord rid (store w3))).
    { apply Hfr2, Hfr1, Hrec0. rewrite Hr0. eauto. }
    destruct Hr3 as [r3 Hr3].
    eexists. split; [apply history_update_written; exact Hr3|].
    split; reflexivity.
Qed.


End RunSteps.

(* --------------------------------------------------------------------- *)
(** ** Image orchestrator: the run of [generateImages] *)
(* --------------------------------------------------------------------- *)

Section RunProperties.
Import Outline History Image.
Context `{Platform} `{External}.

Implicit Types (w : World) (pages : list PageData).
Implicit Types (evs : list ImageProgressEvent).

Lemma finish_not_outcome tid total loc : ~ is_outcome (finish_event tid total loc).
Proof. intros [E|E]; discriminate. Qed.

Lemma causal_finish tid total loc : causal [finish_event tid total loc].
Proof.
  intros [|j] ev Hj Hout; [|destruct j; discriminate].
  inversion Hj; subst. exfalso. exact (finish_not_outcome _ _ _ Hout).
Qed.

(** C4: in the events of every run of [generateImages], in either
    concurrency mode and whatever the outcome of the cover, every event of
    the cover phase comes before every event of the content phase, and
    every [complete] or [error] event carries a page index and comes after
    a [progress] event with the same index. *)
Theorem generateImages_event_order pages (taskId : option string)
    (fullOutline : string) (userImages : option (list Buffer))
    (userTopic : string) (recordId : option string) w :
  let evs := (generateImages pages taskId fullOutline userImages userTopic
                recordId w).1.1 in
  (forall i j ev1 ev2,
     evs !! i = Some ev1 -> evs !! j = Some ev2 ->
     event_phase ev1 = Some "cover" -> event_phase ev2 = Some "content" ->
     i < j)
  /\ causal evs.
Proof.
  destruct (generateImages pages taskId fullOutline userImages userTopic recordId w)
    as [[evs completion] w'] eqn:E.
  cbn [fst].
  destruct (generateImages_run _ _ _ _ _ _ _ _ _ _ E)
    as (_ & tid & evs1 & evs2 & loc & -> & Hph1 & Hph2 & Hca1 & Hca2 & _).
  split.
  - intros i j ev1 ev2 Hi Hj Hc1 Hc2.
    assert (Hi' : i < length evs1).
    { apply lookup_app_Some in Hi as [Hi | [_ Hi]]; [eapply lookup_lt_Some; eauto|].
      exfalso. apply lookup_app_Some in Hi as [Hi | [_ Hi]].
      - apply (proj1 (Forall_lookup _ _) Hph2 _ _) in Hi. congruence.
      - apply list_lookup_singleton_Some in Hi as [_ <-]. discriminate. }
    assert (Hj' : length evs1 <= j).
    { apply lookup_app_Some in Hj as [Hj | [Hj _]]; [|exact Hj].
      apply (proj1 (Forall_lookup _ _) Hph1 _ _) in Hj. congruence. }
    lia.
  - apply causal_app; [exact Hca1|]. apply causal_app; [exact Hca2|].
    apply causal_finish.
Qed.


End RunProperties.

(* --------------------------------------------------------------------- *)
(** ** The status written to the record *)
(* --------------------------------------------------------------------- *)

Section StatusFacts.
Import Outline History Image.
Context `{Platform} `{External}.

Implicit Types (w : World) (pages : list PageData) (st : Store).





End StatusFacts.


(* --------------------------------------------------------------------- *)
(** ** The reference image of the retry pipelines *)
(* --------------------------------------------------------------------- *)

Section RetryFacts.
Import Outline History Image.
Context `{Platform} `{External}.

Implicit Types (w : World) (page : PageData) (pages : list PageData).
Implicit Types (taskId : string) (reference : option Buffer).

Lemma build_kwargs_reference (s : ImageService) page reference fullOutline
    userImages userTopic :
  reference_passed (providerConfig s) userImages reference
    (build_kwargs s page reference fullOutline userImages userTopic).
Proof.
  unfold reference_passed, build_kwargs.
  repeat case_decide; cbn; split; try reflexivity.
  destruct (default [] userImages ++ from_option (fun r => [r]) [] reference);
    reflexivity.
Qed.

Lemma readFile_ensure_dir taskId filename st :
  readFile taskId filename (ensure_dir taskId st) = readFile taskId filename st.
Proof.
  unfold ensure_dir, readFile.
  destruct (taskDirs st !! taskId) as [dir|] eqn:E.
  - rewrite E. reflexivity.
  - cbn [taskDirs set_taskDirs]. rewrite lookup_insert_eq. cbn.
    apply lookup_empty.
Qed.

Lemma spec_reference_unfold taskId w :
  spec_reference taskId w
  = match taskStates (service w) !! taskId ≫= cover_image with
    | Some cached => Some cached
    | None =>
      match readFile taskId "0.png" (store w) with
      | Some bytes => Some (compressImage bytes 200)
      | None => None
      end
    end.
Proof.
  unfold spec_reference, readFile.
  destruct (taskStates (service w) !! taskId) as [[? ? ? [c|] ? ? ?]|]; cbn;
    try reflexivity;
    destruct (taskDirs (store w) !! taskId) as [dir|]; reflexivity.
Qed.

(** The context computed at the beginning of a single-page retry with
    reference images enabled. *)
Lemma retry_context_spec taskId (fullOutline userTopic : option string) w
    reference userImages fo ut w1 :
  retry_context taskId true fullOutline userTopic w
  = ((reference, userImages, fo, ut), w1) ->
  reference = spec_reference taskId w
  /\ userImages = cached_user_images taskId w
  /\ calls w1 = calls w
  /\ providerConfig (service w1) = providerConfig (service w).
Proof.
  unfold retry_context. cbn [service store set_service set_store
    set_currentTaskDir taskStates calls providerConfig].
  rewrite readFile_ensure_dir, spec_reference_unfold.
  intros [= <- <- <- <- <-]. split_and!; try reflexivity.
  destruct (taskStates (service w) !! taskId) as [t|]; cbn.
  - destruct (cover_image t) as [c|]; cbn; [reflexivity|].
    destruct (readFile taskId "0.png" (store w)); reflexivity.
  - destruct (readFile taskId "0.png" (store w)); reflexivity.
Qed.

Lemma calls_since_app (w w' : World) new :
  calls w' = calls w ++ new -> calls_since (length (calls w)) w' = new.
Proof. intros E. unfold calls_since. rewrite E. apply drop_app_length. Qed.

Lemma single_effect_calls page kwargs w w' res :
  single_effect page kwargs w w' res ->
  exists new, calls w' = calls w ++ new /\ new <> []
              /\ Forall (fun k => k = kwargs) new.
Proof.
  intros Heff. destruct (se_calls _ _ _ _ _ Heff) as (k & Hk & Hc).
  exists (replicate k kwargs). split; [exact Hc|]. split.
  - destruct k; [lia|discriminate].
  - apply Forall_replicate. reflexivity.
Qed.

(** The requests of one call of [_generateSingleImage] carry the reference
    it was given. *)
Lemma _generateSingleImage_reference page taskId reference fullOutline userImages
    userTopic w res w' :
  _generateSingleImage page taskId reference 0 fullOutline userImages userTopic w
  = (res, w') ->
  providerConfig (service w') = providerConfig (service w)
  /\ exists new, calls w' = calls w ++ new /\ new <> []
       /\ Forall (reference_passed (providerConfig (service w)) userImages reference) new.
Proof.
  intros E. pose proof (_generateSingleImage_effect _ _ _ _ _ _ _ _ _ _ E) as Heff.
  split; [rewrite (se_service _ _ _ _ _ Heff); reflexivity|].
  destruct (single_effect_calls _ _ _ _ _ Heff) as (new & Hc & Hne & Hall).
  exists new. split_and!; auto.
  eapply Forall_impl; [exact Hall|]. intros k ->. apply build_kwargs_reference.
Qed.

Lemma retry_loop_reference pages total taskId reference fullOutline userImages
    userTopic successCount failedCount w evs counts w' :
  retry_loop pages total taskId reference fullOutline userImages userTopic
    successCount failedCount w = (evs, counts, w') ->
  providerConfig (service w') = providerConfig (service w)
  /\ exists new, calls w' = calls w ++ new /\ (pages <> [] -> new <> [])
       /\ Forall (reference_passed (providerConfig (service w)) userImages reference) new.
Proof.
  revert successCount failedCount w evs counts w'.
  induction pages as [|page pages IH];
    intros successCount failedCount w evs counts w'; cbn [retry_loop].
  - intros [= <- <- <-]. split; [reflexivity|]. exists [].
    rewrite app_nil_r. split_and!; auto.
  - destruct (_generateSingleImage page taskId reference 0 _ _ _ w)
      as [[[[i s] f] e] w1] eqn:E1.
    destruct (_generateSingleImage_reference _ _ _ _ _ _ _ _ _ E1)
      as (Hcfg1 & new1 & Hc1 & Hne1 & Hall1).
    destruct (s && truthy_opt f).
    + destruct (retry_loop pages _ _ _ _ _ _ _ _ (mark_generated taskId i _ w1))
        as [[evs2 counts2] w2] eqn:E2.
      destruct (IH _ _ _ _ _ _ E2) as (Hcfg2 & new2 & Hc2 & _ & Hall2).
      cbn [mark_generated update_taskState service set_service set_taskStates
           providerConfig calls] in *.
      intros [= <- <- <-]. split; [congruence|].
      exists (new1 ++ new2). rewrite Hc2, Hc1, app_assoc. split_and!; auto.
      * intros _ Hnil. apply app_eq_nil in Hnil as [? _]. auto.
      * apply Forall_app. split; [exact Hall1|]. rewrite <- Hcfg1. exact Hall2.
    + destruct (retry_loop pages _ _ _ _ _ _ _ _ (mark_failed taskId i e w1))
        as [[evs2 counts2] w2] eqn:E2.
      destruct (IH _ _ _ _ _ _ E2) as (Hcfg2 & new2 & Hc2 & _ & Hall2).
      cbn [mark_failed update_taskState service set_service set_taskStates
           providerConfig calls] in *.
      intros [= <- <- <-]. split; [congruence|].
      exists (new1 ++ new2). rewrite Hc2, Hc1, app_assoc. split_and!; auto.
      * intros _ Hnil. apply app_eq_nil in Hnil as [? _]. auto.
      * apply Forall_app. split; [exact Hall1|]. rewrite <- Hcfg1. exact Hall2.
Qed.

Lemma history_update_calls recordId updates w :
  calls (history_update recordId updates w) = calls w
  /\ providerConfig (service (history_update recordId updates w))
     = providerConfig (service w).
Proof.
  destruct (history_update_frame recordId updates w) as (_ & Hc & Hs).
  split; [exact Hc|]. rewrite Hs. reflexivity.
Qed.

Lemma record_retry_calls recordId taskId filename w :
  calls (record_retry recordId taskId filename w) = calls w.
Proof.
  unfold record_retry. destruct (getRecord recordId (store w)); [|reflexivity].
  apply history_update_calls.
Qed.

(** C6 (amended): in every retry or regenerate call with reference images
    enabled, the reference image handed to the page generation is the
    cached cover of the task state when there is one, otherwise the
    compressed contents of [0.png] of the task directory when that file
    exists, otherwise none; and every request sent to the provider's
    generator during the call carries it for the provider types
    [google_genai] (as [referenceImage]) and [image_api] (last in
    [referenceImages], after the cached user images), and carries no
    reference image for any other provider type. *)
Theorem retry_reference_image taskId w :
  let passed := reference_passed (providerConfig (service w))
                  (cached_user_images taskId w) (spec_reference taskId w) in
  (forall page (fullOutline userTopic : option string),
     let w' := (retrySingleImage taskId page true fullOutline userTopic w).2 in
     calls_since (length (calls w)) w' <> []
     /\ Forall passed (calls_since (length (calls w)) w'))
  /\ (forall page (fullOutline userTopic recordId : option string),
        let w' := (retrySingleImageStreaming taskId page true fullOutline
                     userTopic recordId w).2 in
        calls_since (length (calls w)) w' <> []
        /\ Forall passed (calls_since (length (calls w)) w'))
  /\ (forall pages,
        let w' := (retryFailedImages taskId pages w).2 in
        (pages <> [] -> calls_since (length (calls w)) w' <> [])
        /\ Forall passed (calls_since (length (calls w)) w')).
Proof.
  cbn zeta. split_and!.
  - intros page fullOutline userTopic. unfold retrySingleImage.
    destruct (retry_context taskId true fullOutline userTopic w)
      as [[[[reference userImages] fo] ut] w1] eqn:E0.
    destruct (retry_context_spec _ _ _ _ _ _ _ _ _ E0) as (-> & -> & Hc0 & Hcfg0).
    destruct (_generateSingleImage page taskId _ 0 fo _ ut w1)
      as [[[[i s] f] e] w2] eqn:E1.
    destruct (_generateSingleImage_reference _ _ _ _ _ _ _ _ _ E1)
      as (_ & new & Hc1 & Hne & Hall).
    rewrite Hcfg0, Hc0 in *.
    assert (Hcalls : calls_since (length (calls w))
                       (if s && truthy_opt f
                        then (mark_generated taskId i (default "" f) w2)
                        else w2) = new).
    { apply calls_since_app. destruct (s && truthy_opt f); exact Hc1. }
    destruct (s && truthy_opt f); cbn [snd]; rewrite Hcalls; auto.
  - intros page fullOutline userTopic recordId. unfold retrySingleImageStreaming.
    destruct (retry_context taskId true fullOutline userTopic w)
      as [[[[reference userImages] fo] ut] w1] eqn:E0.
    destruct (retry_context_spec _ _ _ _ _ _ _ _ _ E0) as (-> & -> & Hc0 & Hcfg0).
    destruct (_generateSingleImage page taskId _ 0 fo _ ut w1)
      as [[[[i s] f] e] w2] eqn:E1.
    destruct (_generateSingleImage_reference _ _ _ _ _ _ _ _ _ E1)
      as (_ & new & Hc1 & Hne & Hall).
    rewrite Hcfg0, Hc0 in *.
    destruct (s && truthy_opt f); cbn [snd].
    + assert (Hcalls : calls_since (length (calls w))
                (match history_record recordId with
                 | Some rid => record_retry rid taskId (default "" f)
                                 (mark_generated taskId i (default "" f) w2)
                 | None => mark_generated taskId i (default "" f) w2
                 end) = new).
      { apply calls_since_app.
        destruct (history_record recordId); [rewrite record_retry_calls|]; exact Hc1. }
      rewrite Hcalls. auto.
    + rewrite (calls_since_app w (mark_failed taskId i e w2) new Hc1). auto.
  - intros pages. unfold retryFailedImages.
    set (w0 := set_store (ensure_dir taskId (store (set_service
                  (set_currentTaskDir (Some taskId) (service w)) w)))
                 (set_service (set_currentTaskDir (Some taskId) (service w)) w)).
    assert (Href : batch_reference taskId w0 = spec_reference taskId w).
    { unfold batch_reference, w0. rewrite spec_reference_unfold.
      cbn [service store set_service set_store set_currentTaskDir taskStates].
      rewrite readFile_ensure_dir. reflexivity. }
    rewrite Href.
    destruct (retry_loop pages (length pages) taskId (spec_reference taskId w)
                _ _ _ 0 0 w0) as [[evs [sc fc]] w1] eqn:E1.
    destruct (retry_loop_reference _ _ _ _ _ _ _ _ _ _ _ _ _ E1)
      as (_ & new & Hc1 & Hne & Hall).
    cbn [snd]. rewrite (calls_since_app w w1 new Hc1). split; [exact Hne|exact Hall].
Qed.


End RetryFacts.

(** C6, as the specification words it, fails for a provider of another
    type than [google_genai] and [image_api]: the task state holds the
    cover, reference images are enabled, and no request carries it. *)
Lemma retry_reference_counterexample :
  let w := Sample.world_cached "openai_compatible" in
  let w' := (@Image.retrySingleImage Sample.platform Sample.external "task_1"
               (Sample.page 1 Outline.type_content) true None None w).2 in
  @Image.spec_reference Sample.platform Sample.external "task_1" w
  = Some [7; 7; 7]%N
  /\ length (Image.calls w') = 3
  /\ Forall (fun kwargs => Image.Kwargs.referenceImage kwargs = None
                           /\ Image.Kwargs.referenceImages kwargs = None)
       (Image.calls w').
Proof.
  vm_compute. split_and!; try reflexivity.
  repeat constructor.
Qed.

(** The same call with a [google_genai] provider, and after a restart with
    an [image_api] provider. *)
Example retry_reference_cached :
  let w := Sample.world_cached "google_genai" in
  let w' := (@Image.retrySingleImage Sample.platform Sample.external "task_1"
               (Sample.page 1 Outline.type_content) true None None w).2 in
  map Image.Kwargs.referenceImage (Image.calls w')
  = replicate 3 (Some [7; 7; 7]%N).
Proof. vm_compute. reflexivity. Qed.

Example retry_reference_from_disk :
  let w := Sample.world_restarted "image_api" in
  let w' := (@Image.retryFailedImages Sample.platform Sample.external "task_1"
               [Sample.page 1 Outline.type_content] w).2 in
  map Image.Kwargs.referenceImages (Image.calls w')
  = replicate 3 (Some [[9; 9]%N]).
Proof. vm_compute. reflexivity. Qed.

Lemma chunk_limit_rejects_witness :
  Stream.promise (@Stream.feed Sample.decoder Sample.ticking_stream Stream.initial)
  = Stream.rejected Stream.timeout_message.
Proof.
  destruct (@chunk_limit_rejects Sample.decoder Sample.ticking_stream [])
    as (_ & Hrej & _).
  - vm_compute. lia.
  - refine (bool_decide_unpack _ _). vm_compute. exact I.
  - exact Hrej.
Defined.

(** A stop marker within the limit ends the call before the limit. *)
Example stop_marker_settles :
  Stream.promise
    (@Stream.feed Sample.decoder [utf16 "data: tick
data: ST"; utf16 "OP
"] Stream.initial)
  = Stream.rejected "download failed".
Proof. vm_compute. reflexivity. Qed.

(** The scenario of the specification, in both concurrency modes: five
    pages, the provider succeeds on pages 0, 1, 2 only. *)
Example generateImages_scenario :
  forall high_concurrency : bool,
    last (@Image.generateImages Sample.platform Sample.external Sample.five_pages
            (Some "task_5") "" None "" (Some "rec-5")
            (Sample.world "google_genai" high_concurrency Sample.store_five)).1.1
    = Some (Image.mkEvent Image.finish
              [("success", Image.flag false); ("task_id", Image.str "task_5");
               ("images", Image.strs ["0.png"; "1.png"; "2.png"]);
               ("total", Image.num 5); ("completed", Image.num 3);
               ("failed", Image.num 2); ("failed_indices", Image.nums [3; 4])]).
Proof. intros [|]; vm_compute; reflexivity. Qed.


(* --------------------------------------------------------------------- *)
(** ** History store: listing, statistics, scans and sequences *)
(* --------------------------------------------------------------------- *)

Section HistoryListing.
Import History.

Implicit Types (st : Store) (status : option string).

(** A window that starts at a position of the list or after it. *)
Lemma slice_window {A} (start size : nat) (l : list A) :
  slice (Z.of_nat start) (Z.of_nat start + Z.of_nat size) l
  = take size (drop start l).
Proof.
  unfold slice.
  destruct (Z.ltb_spec (Z.of_nat start) 0) as [?|_]; [lia|].
  destruct (Z.ltb_spec (Z.of_nat start + Z.of_nat size) 0) as [?|_]; [lia|].
  cbv zeta.
  replace (Z.to_nat (Z.min (Z.of_nat start) (Z.of_nat (length l))))
    with (min start (length l)) by lia.
  replace (Z.to_nat (Z.min (Z.of_nat start + Z.of_nat size) (Z.of_nat (length l))
                     - Z.min (Z.of_nat start) (Z.of_nat (length l))))
    with (min (start + size) (length l) - min start (length l)) by lia.
  destruct (decide (start <= length l)) as [Hle|Hgt].
  - rewrite (Nat.min_l start) by lia.
    destruct (decide (start + size <= length l)) as [Hle2|Hgt2].
    + rewrite Nat.min_l by lia. f_equal. lia.
    + rewrite Nat.min_r by lia.
      rewrite (take_ge (drop start l) size) by (rewrite length_drop; lia).
      apply take_ge. rewrite length_drop. lia.
  - rewrite !Nat.min_r by lia.
    rewrite drop_all, !drop_ge by lia. rewrite !take_nil. reflexivity.
Qed.

Lemma listRecords_records_window (p size : nat) status st :
  HistoryListResult.records
    (listRecords (Z.of_nat (S p)) (Z.of_nat size) status st)
  = take size (drop (p * size) (matching status st)).
Proof.
  unfold listRecords, matching. cbn [HistoryListResult.records].
  replace ((Z.of_nat (S p) - 1) * Z.of_nat size)%Z with (Z.of_nat (p * size)) by lia.
  apply slice_window.
Qed.

Lemma pages_concat {A} (size n : nat) (l : list A) :
  concat (map (fun p => take size (drop (p * size) l)) (seq 0 n))
  = take (n * size) l.
Proof.
  induction n as [|n IH]; [reflexivity|].
  rewrite seq_S, map_app, concat_app, IH. cbn [map concat Nat.add].
  rewrite app_nil_r.
  replace (S n * size) with (n * size + size) by lia.
  apply (take_take_drop l (n * size) size).
Qed.

(** The number of pages reported for a positive page size. *)
Lemma total_pages_ceil (total size : nat) :
  0 < size ->
  exists n, (- (- Z.of_nat total / Z.of_nat size))%Z = Z.of_nat n
            /\ total <= n * size /\ (n = 0 <-> total = 0).
Proof.
  intros Hs.
  assert (Hq : (0 <= - (- Z.of_nat total / Z.of_nat size))%Z).
  { assert (- Z.of_nat total / Z.of_nat size <= 0)%Z; [|lia].
    apply Z.div_le_upper_bound; lia. }
  exists (Z.to_nat (- (- Z.of_nat total / Z.of_nat size))).
  rewrite Z2Nat.id by exact Hq.
  split; [reflexivity|].
  pose proof (Z.mul_div_le (- Z.of_nat total) (Z.of_nat size) ltac:(lia)) as Hm.
  pose proof (Z.mul_succ_div_gt (- Z.of_nat total) (Z.of_nat size) ltac:(lia)) as Hg.
  set (q := (- Z.of_nat total / Z.of_nat size)%Z) in *.
  split; [nia|].
  split; intros E; nia.
Qed.

Lemma slice_length_le {A} (start size : Z) (l : list A) :
  (0 <= size)%Z ->
  length (slice start (start + size) l) <= Z.to_nat size.
Proof.
  intros Hsize. unfold slice. cbv zeta. rewrite length_take.
  etransitivity; [apply Nat.le_min_l|].
  destruct (Z.ltb_spec start 0), (Z.ltb_spec (start + size) 0); lia.
Qed.

(** X1: paging through [listRecords] with a positive page size shows every
    matching record exactly once, in the order of the index.  Every call
    reports the same number [n] of pages and the same total; the pages
    [1 .. n], one after the other, are the matching records; no page holds
    more than [pageSize] records. *)
Theorem listRecords_pages_cover (pageSize : Z) status st :
  (0 < pageSize)%Z ->
  exists n : nat,
    (forall page,
        HistoryListResult.total_pages (listRecords page pageSize status st)
        = Some (Z.of_nat n)
        /\ HistoryListResult.total (listRecords page pageSize status st)
           = length (matching status st)
        /\ length (HistoryListResult.records (listRecords page pageSize status st))
           <= Z.to_nat pageSize)
    /\ concat (map (fun p => HistoryListResult.records
                               (listRecords (Z.of_nat p) pageSize status st))
                 (seq 1 n))
       = matching status st.
Proof.
  intros Hs.
  destruct (total_pages_ceil (length (matching status st)) (Z.to_nat pageSize))
    as (n & Hn & Hcover & _); [lia|].
  rewrite Z2Nat.id in Hn by lia.
  exists n. split.
  - intros page. split_and!.
    + unfold listRecords. cbn [HistoryListResult.total_pages].
      destruct (decide (pageSize = 0%Z)) as [?|_]; [lia|].
      fold (matching status st). rewrite Hn. reflexivity.
    + reflexivity.
    + unfold listRecords. cbn [HistoryListResult.records].
      apply slice_length_le. lia.
  - rewrite <- (Z2Nat.id pageSize) by lia.
    rewrite <- (fmap_S_seq 0 n).
    change (S <$> seq 0 n) with (map S (seq 0 n)).
    rewrite map_map.
    erewrite map_ext; [|intros p; apply listRecords_records_window].
    rewrite pages_concat. apply take_ge. exact Hcover.
Qed.

(** X2: page numbers outside [1 .. total_pages].  Page 0 and every page
    after the last are empty.  A negative page number [-k] is not rejected
    and is not empty either: it returns the window of [pageSize] records
    that ends [k * pageSize] records before the end of the list. *)
Theorem listRecords_page_edges (k size : nat) status st :
  0 < size ->
  let l := matching status st in
  let records page :=
    HistoryListResult.records (listRecords page (Z.of_nat size) status st) in
  records 0%Z = []
  /\ (length l <= k * size -> records (Z.of_nat (S k)) = [])
  /\ (0 < k -> (k + 1) * size <= length l ->
      records (- Z.of_nat k)%Z = take size (drop (length l - (k + 1) * size) l)
      /\ length (records (- Z.of_nat k)%Z) = size).
Proof.
  intros Hs l records. subst records. cbv beta. split_and!.
  - unfold listRecords. cbn [HistoryListResult.records]. fold (matching status st).
    unfold slice. cbv zeta.
    destruct (Z.ltb_spec ((0 - 1) * Z.of_nat size) 0) as [_|?]; [|lia].
    destruct (Z.ltb_spec ((0 - 1) * Z.of_nat size + Z.of_nat size) 0) as [?|_]; [lia|].
    replace (Z.to_nat _) with 0 by lia. reflexivity.
  - intros Hlen. rewrite listRecords_records_window.
    rewrite drop_ge by (fold l; lia). apply take_nil.
  - intros Hk Hlen.
    assert (E : HistoryListResult.records
                  (listRecords (- Z.of_nat k) (Z.of_nat size) status st)
                = take size (drop (length l - (k + 1) * size) l)).
    { unfold listRecords. cbn [HistoryListResult.records]. fold (matching status st).
      fold l. unfold slice. cbv zeta.
      destruct (Z.ltb_spec ((- Z.of_nat k - 1) * Z.of_nat size) 0) as [_|?]; [|nia].
      destruct (Z.ltb_spec ((- Z.of_nat k - 1) * Z.of_nat size + Z.of_nat size) 0)
        as [_|?]; [|nia].
      f_equal; [|f_equal]; nia. }
    split; [exact E|]. rewrite E, length_take, length_drop. nia.
Qed.

End HistoryListing.

Lemma listRecords_pages_cover_witness :
  exists n : nat,
    (forall page,
        History.HistoryListResult.total_pages
          (History.listRecords page 1 None Sample.store_five) = Some (Z.of_nat n)
        /\ History.HistoryListResult.total
             (History.listRecords page 1 None Sample.store_five)
           = length (History.matching None Sample.store_five)
        /\ length (History.HistoryListResult.records
                     (History.listRecords page 1 None Sample.store_five))
           <= Z.to_nat 1)
    /\ concat (map (fun p => History.HistoryListResult.records
                               (History.listRecords (Z.of_nat p) 1 None Sample.store_five))
                 (seq 1 n))
       = History.matching None Sample.store_five.
Proof. apply (listRecords_pages_cover 1 None Sample.store_five). lia. Defined.

Section HistoryRoundTrips.
Import History.

Implicit Types (st : Store) (recordId now : string).






End HistoryRoundTrips.



Section HistoryStatistics.
Import History.

Implicit Types (st : Store) (byStatus : gmap string StatusCount).

(** Number of index entries counted under [status]. *)
#[local] Abbreviation entries_with status records :=
  (length (filter (fun r => status_or_draft r = status) records)).

Lemma count_status_lookup byStatus status n :
  byStatus !! status = by_status_entry status n ->
  count_status byStatus status !! status = by_status_entry status (S n).
Proof.
  unfold count_status, by_status_entry. intros E. rewrite E.
  destruct (decide (S n = 0)) as [?|_]; [lia|].
  destruct (decide (n = 0)) as [->|Hn];
    (destruct (decide (status = "__proto__")); [rewrite E; reflexivity|]);
    destruct (decide (status ∈ object_prototype_members));
    rewrite lookup_insert_eq; reflexivity.
Qed.

Lemma count_status_lookup_ne byStatus status other :
  other <> status ->
  count_status byStatus status !! other = byStatus !! other.
Proof.
  intros Hne. unfold count_status.
  destruct (byStatus !! status) as [[n|member ones]|];
    [| |destruct (decide (status = "__proto__"));
        [|destruct (decide (status ∈ object_prototype_members))]];
    try reflexivity; rewrite lookup_insert_ne by congruence; reflexivity.
Qed.

(** The [by_status] object after the loop over [records]. *)
Lemma fold_count_status_lookup (records : list HistoryIndexRecord.t) status :
  fold_left (fun byStatus r => count_status byStatus (status_or_draft r)) records ∅
    !! status
  = by_status_entry status (entries_with status records).
Proof.
  induction records as [|r records IH] using rev_ind.
  - reflexivity.
  - rewrite fold_left_app. cbn [fold_left].
    rewrite filter_app, length_app.
    destruct (decide (status_or_draft r = status)) as [E|Hne].
    + rewrite filter_cons_True, filter_nil by exact E. cbn [length].
      rewrite Nat.add_1_r. subst status. apply count_status_lookup. exact IH.
    + rewrite filter_cons_False, filter_nil by exact Hne. cbn [length].
      rewrite Nat.add_0_r. rewrite count_status_lookup_ne by congruence. exact IH.
Qed.

Lemma sum_counts_insert_new byStatus status v :
  byStatus !! status = None ->
  sum_counts (<[status := v]> byStatus) = counted_value v + sum_counts byStatus.
Proof.
  intros E. unfold sum_counts.
  rewrite map_fold_insert_L; [reflexivity| |exact E].
  intros. lia.
Qed.

Lemma sum_counts_insert byStatus status v0 v :
  byStatus !! status = Some v0 ->
  sum_counts (<[status := v]> byStatus) + counted_value v0
  = counted_value v + sum_counts byStatus.
Proof.
  intros E.
  rewrite <- (insert_delete_id byStatus status v0 E) at 2.
  rewrite <- (insert_delete_eq byStatus).
  rewrite !sum_counts_insert_new by apply lookup_delete_eq. lia.
Qed.

(** One iteration adds one to the sum when the status is a plain one, and
    nothing otherwise. *)
Lemma sum_counts_count_status byStatus status n :
  byStatus !! status = by_status_entry status n ->
  sum_counts (count_status byStatus status)
  = sum_counts byStatus + (if decide (plain_status status) then 1 else 0).
Proof.
  unfold count_status, by_status_entry, plain_status. intros E. rewrite E.
  destruct (decide (n = 0)) as [->|Hn];
    destruct (decide (status = "__proto__")) as [Hp|Hp];
    destruct (decide (status ∈ object_prototype_members)) as [Hm|Hm];
    try (rewrite decide_True by (split; assumption));
    try (rewrite decide_False by tauto);
    try (rewrite sum_counts_insert_new by exact E; cbn [counted_value]; lia);
    try (pose proof (sum_counts_insert byStatus status _
                       (inherited_text status (S n)) E) as Hs;
         cbn [counted_value] in Hs; lia);
    try (pose proof (sum_counts_insert byStatus status _ (counted (S n)) E) as Hs;
         cbn [counted_value] in Hs; lia);
    try (rewrite E; lia); lia.
Qed.

Lemma fold_count_status_sum (records : list HistoryIndexRecord.t) :
  sum_counts
    (fold_left (fun byStatus r => count_status byStatus (status_or_draft r)) records ∅)
  = length (filter (fun r => plain_status (status_or_draft r)) records).
Proof.
  induction records as [|r records IH] using rev_ind.
  - reflexivity.
  - rewrite fold_left_app. cbn [fold_left].
    rewrite (sum_counts_count_status _ _ _ (fold_count_status_lookup records _)).
    rewrite IH, filter_app, length_app.
    destruct (decide (plain_status (status_or_draft r))) as [E|Hne].
    + rewrite filter_cons_True, filter_nil by exact E. reflexivity.
    + rewrite filter_cons_False, filter_nil by exact Hne. reflexivity.
Qed.

(** X6: [getStatistics] counts every index entry once.  When no status in
    the index is the name of a member of [Object.prototype], the numbers
    of [by_status] add up to [total], and under each status stands the
    number of entries with that status, an entry with an empty status
    counting as a draft; a status without entries has no key. *)
Theorem getStatistics_counts st :
  Forall (fun r => plain_status (status_or_draft r)) (_loadIndex st) ->
  (getStatistics st).1 = length (_loadIndex st)
  /\ sum_counts (getStatistics st).2 = (getStatistics st).1
  /\ (forall status,
        (getStatistics st).2 !! status
        = if decide (entries_with status (_loadIndex st) = 0) then None
          else Some (counted (entries_with status (_loadIndex st)))).
Proof.
  intros Hplain. unfold getStatistics. cbn [fst snd]. split_and!.
  - reflexivity.
  - rewrite fold_count_status_sum. f_equal.
    induction Hplain as [|r records Hr _ IH]; [reflexivity|].
    rewrite filter_cons_True by exact Hr. rewrite IH. reflexivity.
  - intros status. rewrite fold_count_status_lookup. unfold by_status_entry.
    destruct (decide (entries_with status (_loadIndex st) = 0)) as [|Hn];
      [reflexivity|].
    assert (Hs : plain_status status).
    { destruct (filter (fun r => status_or_draft r = status) (_loadIndex st))
        as [|r l] eqn:E; [contradiction Hn; reflexivity|].
      assert (Hin : r ∈ filter (fun r => status_or_draft r = status) (_loadIndex st))
        by (rewrite E; left).
      apply list_elem_of_filter in Hin as [<- Hin].
      rewrite Forall_forall in Hplain. apply Hplain, Hin. }
    destruct Hs as [Hp Hm].
    rewrite decide_False by exact Hp. rewrite decide_False by exact Hm. reflexivity.
Qed.

(** X7: a status that is the name of a member of [Object.prototype]
    ([constructor], [toString], ...) breaks the statistics.  The entries
    under such a status are counted in [total] but in no number of
    [by_status], so the numbers add up to less than [total]; under the
    name itself [by_status] holds a text, or nothing for [__proto__]. *)
Theorem getStatistics_inherited_status st r :
  r ∈ _loadIndex st ->
  ~ plain_status (status_or_draft r) ->
  sum_counts (getStatistics st).2 < (getStatistics st).1
  /\ (forall n, (getStatistics st).2 !! status_or_draft r <> Some (counted n)).
Proof.
  intros Hin Hr. unfold getStatistics. cbn [fst snd]. split.
  - rewrite fold_count_status_sum.
    induction (_loadIndex st) as [|r' records IH]; [inversion Hin|].
    apply elem_of_cons in Hin as [<-|Hin].
    + rewrite filter_cons_False by exact Hr. cbn [length].
      pose proof (length_filter (fun r => plain_status (status_or_draft r)) records).
      lia.
    + specialize (IH Hin).
      destruct (decide (plain_status (status_or_draft r'))) as [E|Hne].
      * rewrite filter_cons_True by exact E. cbn [length]. lia.
      * rewrite filter_cons_False by exact Hne. cbn [length]. lia.
  - intros n. rewrite fold_count_status_lookup. unfold by_status_entry.
    unfold plain_status in Hr.
    destruct (decide (entries_with (status_or_draft r) (_loadIndex st) = 0));
      [discriminate|].
    destruct (decide (status_or_draft r = "__proto__")); [discriminate|].
    destruct (decide (status_or_draft r ∈ object_prototype_members));
      [discriminate|tauto].
Qed.

End HistoryStatistics.

Lemma getStatistics_counts_witness :
  (History.getStatistics Sample.store_one).1 = 1
  /\ History.sum_counts (History.getStatistics Sample.store_one).2 = 1
  /\ (History.getStatistics Sample.store_one).2 !! "draft" = Some (History.counted 1).
Proof.
  destruct (getStatistics_counts Sample.store_one) as (Ht & Hs & Hd).
  - refine (bool_decide_unpack _ _). vm_compute. exact I.
  - split_and!.
    + exact Ht.
    + rewrite Hs. exact Ht.
    + rewrite Hd. reflexivity.
Defined.

Lemma getStatistics_inherited_status_witness :
  History.sum_counts (History.getStatistics Sample.store_odd_status).2 = 0
  /\ (History.getStatistics Sample.store_odd_status).1 = 1.
Proof.
  destruct (getStatistics_inherited_status Sample.store_odd_status
              (History.HistoryIndexRecord.mk "rec-1" "topic" "2025-01-01T00:00:00.000Z"
                 "2025-01-02T00:00:00.000Z" "constructor" None 2 (Some "task_1")))
    as [Hlt _].
  - vm_compute. left.
  - vm_compute. intros [_ Hm]. apply Hm. left.
  - assert (Ht : (History.getStatistics Sample.store_odd_status).1 = 1)
      by (vm_compute; reflexivity).
    rewrite Ht in Hlt. split; [lia|exact Ht].
Defined.

Section HistoryScans.
Import History.
Context `{Platform}.

Implicit Types (st : Store) (items : list string) (acc : ScanAllResult.t).






(** A loop over named directories keeps the index in step. *)
Lemma scan_loop_consistent clock items acc st :
  "" ∉ items ->
  index_consistent st -> index_unique st ->
  index_consistent (scan_loop clock items acc st).2
  /\ index_unique (scan_loop clock items acc st).2.
Proof.
  revert acc st. induction items as [|item items IH]; intros acc st Hne Hc Hu.
  - split; assumption.
  - apply not_elem_of_cons in Hne as [Hitem Hne].
    cbn [scan_loop].
    destruct (taskDirs st !! item) as [dir|]; [|apply IH; assumption].
    destruct (scanAndSyncTaskImages_consistent (clock item) item st) as [Hc' Hu'];
      [congruence|exact Hc|exact Hu|].
    destruct (scanAndSyncTaskImages (clock item) item st) as [result st'].
    destruct acc as [total syncedCount failedCount orphanTasks results].
    apply IH; assumption.
Qed.

(** X9: [scanAllTasks] keeps the index in step with the detail files: when
    every index entry agrees with its detail file before the scan, it
    does so after it, whatever images the task directories hold. *)
Theorem scanAllTasks_consistent clock items st :
  "" ∉ items ->
  index_consistent st -> index_unique st ->
  index_consistent (scanAllTasks clock items st).2
  /\ index_unique (scanAllTasks clock items st).2.
Proof.
  intros Hne Hc Hu. unfold scanAllTasks.
  pose proof (scan_loop_consistent clock items (ScanAllResult.mk 0 0 0 [] []) st Hne Hc Hu)
    as Hloop.
  destruct (scan_loop clock items (ScanAllResult.mk 0 0 0 [] []) st) as [acc st'].
  exact Hloop.
Qed.


End HistoryScans.

(** The sample stores are in step. *)
Lemma store_extra_consistent :
  History.index_consistent Sample.store_extra /\ History.index_unique Sample.store_extra.
Proof.
  split.
  - intros e He. vm_compute in He. apply list_elem_of_In in He.
    destruct He as [<-|[]]. eexists. split; [vm_compute; reflexivity|].
    repeat split.
  - vm_compute. repeat constructor. intros Hin. apply list_elem_of_In in Hin.
    destruct Hin.
Qed.


Lemma scanAllTasks_consistent_witness :
  let st' := (@History.scanAllTasks Sample.platform (fun _ => "2025-01-03T00:00:00.000Z")
                ["index.json"; "rec-x.json"; "task_x"] Sample.store_extra).2 in
  History.index_consistent st' /\ History.index_unique st'.
Proof.
  apply (@scanAllTasks_consistent Sample.platform).
  - intros Hin. apply list_elem_of_In in Hin. simpl in Hin.
    intuition discriminate.
  - apply store_extra_consistent.
  - apply store_extra_consistent.
Defined.


Lemma listRecords_page_edges_witness :
  map History.HistoryIndexRecord.id
    (History.HistoryListResult.records
       (History.listRecords (-1) 1 None Sample.store_two)) = ["rec-2"]
  /\ History.HistoryListResult.records
       (History.listRecords 3 1 None Sample.store_two) = [].
Proof.
  destruct (listRecords_page_edges 2 1 None Sample.store_two) as (_ & Hpast & _);
    [lia|].
  destruct (listRecords_page_edges 1 1 None Sample.store_two) as (_ & _ & Hneg);
    [lia|].
  destruct Hneg as [Hneg _]; [lia|vm_compute; lia|].
  split.
  - change (- Z.of_nat 1)%Z with (-1)%Z in Hneg. change (Z.of_nat 1) with 1%Z in Hneg.
    rewrite Hneg. vm_compute. reflexivity.
  - apply Hpast. vm_compute. lia.
Defined.

(* --------------------------------------------------------------------- *)
(** ** Outline parser: page contents and page numbers *)
(* --------------------------------------------------------------------- *)

Section OutlineContents.
Import Outline.

Implicit Types (s seg : jsstring) (m : jsstring -> bool).

(** *** Trimming *)

Lemma trimStart_split s :
  exists ws, s = ws ++ trimStart s /\ Forall (fun c => is_white c = true) ws.
Proof.
  induction s as [|c s (ws & E & Hws)]; [exists []; split; [reflexivity|constructor]|].
  cbn [trimStart]. destruct (is_white c) eqn:Ec.
  - exists (c :: ws). split; [cbn; congruence|constructor; assumption].
  - exists []. split; [reflexivity|constructor].
Qed.

Lemma trimStart_head s c s' : trimStart s = c :: s' -> is_white c = false.
Proof.
  induction s as [|a s IH]; [discriminate|]. cbn [trimStart].
  destruct (is_white a) eqn:Ea; [exact IH|]. intros [= <- _]. exact Ea.
Qed.

Lemma trimStart_fixed c s : is_white c = false -> trimStart (c :: s) = c :: s.
Proof. intros E. cbn [trimStart]. rewrite E. reflexivity. Qed.

Lemma trimStart_idemp s : trimStart (trimStart s) = trimStart s.
Proof.
  destruct (trimStart s) as [|c s'] eqn:E; [reflexivity|].
  apply trimStart_fixed, (trimStart_head _ _ _ E).
Qed.

Lemma trimStart_snoc s c :
  is_white c = false -> trimStart (s ++ [c]) = trimStart s ++ [c].
Proof.
  intros Ec. induction s as [|a s IH]; cbn [app trimStart].
  - rewrite Ec. reflexivity.
  - destruct (is_white a); [exact IH|reflexivity].
Qed.

Lemma trimEnd_split s : exists ws, s = trimEnd s ++ ws.
Proof.
  unfold trimEnd. destruct (trimStart_split (reverse s)) as (ws & E & _).
  exists (reverse ws). rewrite <- reverse_app, <- E, reverse_involutive. reflexivity.
Qed.

Lemma trimEnd_idemp s : trimEnd (trimEnd s) = trimEnd s.
Proof.
  unfold trimEnd. rewrite reverse_involutive, trimStart_idemp. reflexivity.
Qed.

Lemma trimEnd_cons c s :
  is_white c = false -> exists s', trimEnd (c :: s) = c :: s'.
Proof.
  intros Ec. unfold trimEnd. rewrite reverse_cons, trimStart_snoc by exact Ec.
  rewrite reverse_app. eexists. reflexivity.
Qed.

(** [trim] leaves a trimmed text as it is. *)
Lemma trim_idemp s : trim (trim s) = trim s.
Proof.
  unfold trim.
  destruct (trimStart s) as [|c s'] eqn:E; [reflexivity|].
  destruct (trimEnd_cons c s' (trimStart_head _ _ _ E)) as (s'' & E').
  rewrite E'. rewrite trimStart_fixed by apply (trimStart_head _ _ _ E).
  rewrite <- E'. apply trimEnd_idemp.
Qed.

(** A trimmed text is a piece of the text. *)
Lemma trim_split s : exists a b, s = a ++ trim s ++ b.
Proof.
  destruct (trimStart_split s) as (a & E & _).
  destruct (trimEnd_split (trimStart s)) as (b & E').
  exists a, b. unfold trim. rewrite <- E'. exact E.
Qed.

(** A trimmed text has no white space at either end. *)
Lemma trim_ends s c s' :
  trim s = c :: s' ->
  is_white c = false /\ exists s'' d, trim s = s'' ++ [d] /\ is_white d = false.
Proof.
  intros E. split.
  - unfold trim in E. destruct (trimStart s) as [|a u] eqn:Eu; [discriminate|].
    destruct (trimEnd_cons a u (trimStart_head _ _ _ Eu)) as (u' & E').
    rewrite E' in E. injection E as <- _. apply (trimStart_head _ _ _ Eu).
  - unfold trim, trimEnd in *.
    destruct (trimStart (reverse (trimStart s))) as [|d u] eqn:Eu;
      [discriminate|].
    exists (reverse u), d. split; [apply reverse_cons|].
    apply (trimStart_head _ _ _ Eu).
Qed.

(** *** Pages *)

Lemma forEach_pages_elem i raw p :
  p ∈ forEach_pages i raw ->
  exists seg, seg ∈ raw /\ content p = trim seg /\ trim seg <> []
              /\ type p = pageType (trim seg).
Proof.
  revert i. induction raw as [|seg raw IH]; intros i Hp; cbn [forEach_pages] in Hp.
  - inversion Hp.
  - destruct (trim seg) as [|c t] eqn:E.
    + destruct (IH _ Hp) as (seg' & Hin & Hrest). exists seg'.
      split; [right; exact Hin|exact Hrest].
    + apply elem_of_cons in Hp as [->|Hp].
      * exists seg. rewrite E. split_and!; [left|reflexivity|discriminate|reflexivity].
      * destruct (IH _ Hp) as (seg' & Hin & Hrest). exists seg'.
        split; [right; exact Hin|exact Hrest].
Qed.

(** X11: the content of every page [_parseOutline] returns is trimmed and
    not empty: it starts and ends with a code unit that is not white
    space, and trimming it again changes nothing.  The type of the page is
    read from this content alone. *)
Theorem parseOutline_contents_trimmed t :
  Forall (fun p =>
            content p <> []
            /\ trim (content p) = content p
            /\ (exists c s, content p = c :: s /\ is_white c = false)
            /\ (exists s c, content p = s ++ [c] /\ is_white c = false)
            /\ type p = pageType (content p))
    (_parseOutline t).
Proof.
  apply Forall_forall. intros p Hp.
  apply forEach_pages_elem in Hp as (seg & _ & -> & Hne & Ht).
  destruct (trim seg) as [|c s] eqn:E; [contradiction Hne; reflexivity|].
  destruct (trim_ends seg c s E) as (Hc & s'' & d & Hd & Hwd).
  rewrite <- E in *. split_and!.
  - exact Hne.
  - apply trim_idemp.
  - exists c, s. split; assumption.
  - exists s'', d. split; assumption.
  - exact Ht.
Qed.

(** *** Page numbers *)

Lemma forEach_pages_sorted i raw :
  Forall (fun p => i <= index p) (forEach_pages i raw)
  /\ StronglySorted (fun p q => index p < index q) (forEach_pages i raw).
Proof.
  revert i. induction raw as [|seg raw IH]; intros i; cbn [forEach_pages].
  - split; constructor.
  - destruct (IH (S i)) as [Hge Hsorted].
    assert (Hge' : Forall (fun p => i <= index p) (forEach_pages (S i) raw)).
    { eapply Forall_impl; [exact Hge|]. cbv beta. intros p Hp. lia. }
    destruct (trim seg) as [|c t]; [split; assumption|].
    split.
    + constructor; [cbn; lia|exact Hge'].
    + constructor; [exact Hsorted|].
      eapply Forall_impl; [exact Hge|]. cbv beta. intros p Hp. cbn. lia.
Qed.

(** X12: the page numbers [_parseOutline] assigns grow strictly along the
    list of pages, so no two pages share a number (an image file is named
    after the number of its page), and every number is below the number
    of segments of the text. *)
Theorem parseOutline_indices_increase t :
  StronglySorted (fun p q => index p < index q) (_parseOutline t)
  /\ NoDup (map index (_parseOutline t))
  /\ Forall (fun p => index p <= delimiters t) (_parseOutline t).
Proof.
  unfold _parseOutline.
  destruct (forEach_pages_sorted 0 (pagesRaw t)) as [_ Hsorted].
  split_and!.
  - exact Hsorted.
  - induction Hsorted as [|p l Hl IH Hp]; cbn [map]; constructor; [|exact IH].
    intros Hin. apply list_elem_of_In, in_map_iff in Hin as (q & Hq & Hin).
    rewrite Forall_forall in Hp. apply list_elem_of_In in Hin.
    specialize (Hp q Hin). lia.
  - apply Forall_forall. intros p Hp.
    apply list_elem_of_lookup in Hp as (k & Hk).
    destruct (forEach_pages_lookup _ _ _ _ Hk) as (j & seg & Hj & Hi & _).
    apply lookup_lt_Some in Hj. rewrite pagesRaw_length in Hj. lia.
Qed.

(** *** Delimiters *)

(** [m] does not match at any position of [s]. *)
#[local] Abbreviation free m s := (forall k, m (drop k s) = false).

(** A matcher that looks at a prefix of the text only. *)
#[local] Abbreviation prefix_matcher m :=
  (m [] = false /\ forall x y, m x = true -> m (x ++ y) = true).

Lemma startsWith_prefix_matcher sep : sep <> [] -> prefix_matcher (startsWith sep).
Proof.
  intros Hsep. split; [destruct sep; [contradiction Hsep|]; reflexivity|].
  clear Hsep. induction sep as [|a sep IH]; intros x y; [reflexivity|].
  destruct x as [|b x]; [discriminate|]. cbn [app startsWith].
  intros [-> Hx]%andb_true_iff. rewrite (IH _ y Hx). reflexivity.
Qed.

Lemma startsWith_i_prefix_matcher sep : sep <> [] -> prefix_matcher (startsWith_i sep).
Proof.
  intros Hsep. split; [destruct sep; [contradiction Hsep|]; reflexivity|].
  clear Hsep. induction sep as [|a sep IH]; intros x y; [reflexivity|].
  destruct x as [|b x]; [discriminate|]. cbn [app startsWith_i].
  intros [-> Hx]%andb_true_iff. rewrite (IH _ y Hx). reflexivity.
Qed.

Lemma free_includes sep s : free (startsWith sep) s -> includes sep s = false.
Proof.
  induction s as [|c s IH]; intros Hfree; pose proof (Hfree 0) as H0;
    rewrite drop_0 in H0; cbn [includes]; rewrite H0; [reflexivity|].
  cbn [orb]. apply IH. intros k. apply (Hfree (S k)).
Qed.

Lemma free_includes_i sep s : free (startsWith_i sep) s -> includes_i sep s = false.
Proof.
  induction s as [|c s IH]; intros Hfree; pose proof (Hfree 0) as H0;
    rewrite drop_0 in H0; cbn [includes_i]; rewrite H0; [reflexivity|].
  cbn [orb]. apply IH. intros k. apply (Hfree (S k)).
Qed.

Lemma includes_i_free sep s : includes_i sep s = false -> free (startsWith_i sep) s.
Proof.
  induction s as [|c s IH]; cbn [includes_i]; intros [E1 E2]%orb_false_iff k.
  - rewrite drop_nil. exact E1.
  - destruct k as [|k]; [exact E1|]. apply IH, E2.
Qed.

(** A piece of a text without a match has no match. *)
Lemma free_piece m a s b : prefix_matcher m -> free m (a ++ s ++ b) -> free m s.
Proof.
  intros [Hnil Hmono] Hfree k.
  destruct (decide (k <= length s)) as [Hk|Hk].
  - specialize (Hfree (length a + k)).
    rewrite drop_app_add, drop_app_le in Hfree by exact Hk.
    destruct (m (drop k s)) eqn:E; [|reflexivity].
    rewrite (Hmono _ b E) in Hfree. discriminate.
  - rewrite drop_ge by lia. exact Hnil.
Qed.

(** The segments [split] returns have no match of the separator: the scan
    closes a segment at the first position where the separator matches. *)
Lemma split_go_free m len skip cur s :
  prefix_matcher m ->
  match skip with
  | O => forall k, k < length cur -> m (drop k (reverse cur) ++ s) = false
  | S _ => cur = []
  end ->
  Forall (fun seg => free m seg) (split_go m len skip cur s).
Proof.
  intros [Hnil Hmono]. revert skip cur.
  assert (Hclose : forall cur s,
             (forall k, k < length cur -> m (drop k (reverse cur) ++ s) = false) ->
             free m (reverse cur)).
  { intros cur s' Hcur k. destruct (decide (k < length cur)) as [Hk|Hk].
    - destruct (m (drop k (reverse cur))) eqn:E; [|reflexivity].
      rewrite <- (Hcur k Hk). symmetry. apply Hmono, E.
    - rewrite drop_ge by (rewrite length_reverse; lia). exact Hnil. }
  induction s as [|c s IH]; intros skip cur Hinv; cbn [split_go].
  - constructor; [|constructor]. destruct skip as [|skip].
    + apply (Hclose cur []). exact Hinv.
    + subst cur. intros k. rewrite reverse_nil, drop_nil. exact Hnil.
  - destruct skip as [|skip].
    + destruct (m (c :: s)) eqn:Em.
      * constructor; [apply (Hclose cur (c :: s)); exact Hinv|].
        apply IH. destruct (pred len); [|reflexivity].
        intros k Hk. cbn in Hk. lia.
      * apply IH. intros k Hk. cbn [length] in Hk.
        rewrite reverse_cons.
        destruct (decide (k < length cur)) as [Hlt|Hge].
        -- rewrite drop_app_le by (rewrite length_reverse; lia).
           rewrite <- app_assoc. apply Hinv, Hlt.
        -- assert (k = length cur) as -> by lia.
           rewrite <- (length_reverse cur), drop_app_length. exact Em.
    + apply IH. destruct skip; [|exact Hinv]. subst cur.
      intros k Hk. cbn in Hk. lia.
Qed.

(** X13: no page content holds the delimiter the text was split on: when
    the text contains [<page>], no content has a match of [<page>] in any
    letter case; otherwise no content contains [---]. *)
Theorem parseOutline_content_delimiter_free t :
  Forall (fun p =>
            if includes (utf16 "<page>") t
            then includes_i (utf16 "<page>") (content p) = false
            else includes (utf16 "---") (content p) = false)
    (_parseOutline t).
Proof.
  apply Forall_forall. intros p Hp.
  apply forEach_pages_elem in Hp as (seg & Hseg & -> & _).
  destruct (trim_split seg) as (a & b & Hsplit).
  unfold pagesRaw in Hseg.
  destruct (includes (utf16 "<page>") t).
  - assert (Hm : prefix_matcher (startsWith_i (utf16 "<page>")))
      by (apply startsWith_i_prefix_matcher; discriminate).
    apply free_includes_i, (free_piece _ a _ b Hm). rewrite <- Hsplit.
    pose proof (split_go_free (startsWith_i (utf16 "<page>"))
                  (length (utf16 "<page>")) 0 [] t Hm) as Hfree.
    rewrite Forall_forall in Hfree. apply Hfree; [|exact Hseg].
    intros k Hk. cbn in Hk. lia.
  - assert (Hm : prefix_matcher (startsWith (utf16 "---")))
      by (apply startsWith_prefix_matcher; discriminate).
    apply free_includes, (free_piece _ a _ b Hm). rewrite <- Hsplit.
    pose proof (split_go_free (startsWith (utf16 "---"))
                  (length (utf16 "---")) 0 [] t Hm) as Hfree.
    rewrite Forall_forall in Hfree. apply Hfree; [|exact Hseg].
    intros k Hk. cbn in Hk. lia.
Qed.

(** *** Reading back an outline in the format of the prompt *)

#[local] Abbreviation page_tag := (utf16 "<page>").
#[local] Abbreviation at_tag := (startsWith_i (utf16 "<page>")).

(** After a match the scan skips the rest of the delimiter. *)
Lemma split_go_skip m len a rest :
  split_go m len (length a) [] (a ++ rest) = split_go m len 0 [] rest.
Proof.
  induction a as [|c a IH]; cbn [length app].
  - destruct rest; reflexivity.
  - cbn [split_go]. exact IH.
Qed.

(** A stretch of text without a match, followed by the delimiter, is
    closed as one segment. *)
Lemma split_go_segment cur x rest :
  (forall k, k < length x -> at_tag (drop k x ++ page_tag ++ rest) = false) ->
  split_go at_tag (length page_tag) 0 cur (x ++ page_tag ++ rest)
  = (reverse cur ++ x) :: split_go at_tag (length page_tag) 0 [] rest.
Proof.
  revert cur. induction x as [|c x IH]; intros cur Hfree.
  - rewrite app_nil_r. cbn [app].
    assert (E : at_tag (60%N :: (utf16 "page>" ++ rest)) = true).
    { change (60%N :: (utf16 "page>" ++ rest)) with (page_tag ++ rest).
      apply startsWith_i_prefix_matcher; [discriminate|].
      vm_compute. reflexivity. }
    change (page_tag ++ rest) with (60%N :: (utf16 "page>" ++ rest)).
    cbn [split_go]. rewrite E. f_equal.
  - cbn [app split_go].
    pose proof (Hfree 0 ltac:(cbn; lia)) as H0. rewrite drop_0 in H0.
    cbn [app] in H0. rewrite H0.
    rewrite IH.
    + rewrite reverse_cons, <- app_assoc. reflexivity.
    + intros k Hk. apply (Hfree (S k)). cbn. lia.
Qed.

(** A text without a match is one segment. *)
Lemma split_go_last cur x :
  (forall k, at_tag (drop k x) = false) ->
  split_go at_tag (length page_tag) 0 cur x = [reverse cur ++ x].
Proof.
  revert cur. induction x as [|c x IH]; intros cur Hfree.
  - rewrite app_nil_r. reflexivity.
  - cbn [split_go]. rewrite (Hfree 0 : at_tag (c :: x) = false).
    rewrite IH by (intros k; apply (Hfree (S k))).
    rewrite reverse_cons, <- app_assoc. reflexivity.
Qed.

(** A match of [<page>] does not reach across a line feed. *)
Lemma at_tag_line_feed a b : at_tag (a ++ 10%N :: b) = true -> at_tag a = true.
Proof.
  generalize page_tag (eq_refl : forallb (fun q => negb (canonicalize q =? 10)%N) page_tag = true).
  intros p. revert a. induction p as [|q p IH]; intros a Hp; [reflexivity|].
  cbn [forallb] in Hp. apply andb_true_iff in Hp as [Hq Hp].
  destruct a as [|c a]; cbn [app startsWith_i].
  - unfold code_eqb. change (canonicalize 10) with 10%N.
    apply negb_true_iff in Hq. rewrite Hq. discriminate.
  - intros [-> Ha]%andb_true_iff. apply (IH _ Hp Ha).
Qed.

Lemma at_tag_after_line_feed x : at_tag (10%N :: x) = false.
Proof. reflexivity. Qed.

(** The conditions on a page text: not empty, trimmed, without the tag. *)
#[local] Abbreviation page_text c :=
  (c <> [] /\ trim c = c /\ includes_i (utf16 "<page>") c = false).

Lemma free_line_feeds c (before : bool) k rest :
  includes_i page_tag c = false ->
  (k < length ((if before then [10%N] else []) ++ c ++ [10%N]) ->
   at_tag (drop k ((if before then [10%N] else []) ++ c ++ [10%N]) ++ page_tag ++ rest)
   = false)
  /\ at_tag (drop k ((if before then [10%N] else []) ++ c)) = false.
Proof.
  intros Hc. pose proof (includes_i_free _ _ Hc) as Hfree.
  assert (Hin : forall j, at_tag (drop j c ++ 10%N :: page_tag ++ rest) = false).
  { intros j. destruct (at_tag (drop j c ++ 10%N :: page_tag ++ rest)) eqn:E;
      [|reflexivity].
    apply at_tag_line_feed in E. rewrite Hfree in E. discriminate. }
  assert (Hend : forall j, j <= length c ->
                   at_tag (drop j (c ++ [10%N]) ++ page_tag ++ rest) = false).
  { intros j Hj. rewrite drop_app_le by exact Hj. rewrite <- app_assoc. apply Hin. }
  destruct before.
  - destruct k as [|k]; cbn [app drop length]; [split; reflexivity|].
    split; [|apply Hfree]. rewrite length_app. cbn [length]. intros Hk.
    apply Hend. lia.
  - cbn [app]. split; [|apply Hfree]. rewrite length_app. cbn [length]. intros Hk.
    apply Hend. lia.
Qed.

(** Trimming removes the line feeds around a page text. *)
Lemma trim_line_feeds c (before after : bool) :
  c <> [] -> trim c = c ->
  trim ((if before then [10%N] else []) ++ c ++ (if after then [10%N] else [])) = c.
Proof.
  intros Hne Htrim.
  destruct c as [|c0 c'] eqn:Ec; [contradiction Hne; reflexivity|]. rewrite <- Ec in *.
  destruct (trim_ends c c0 c') as (Hc0 & s'' & d & Hd & Hwd); [congruence|].
  rewrite Htrim in Hd.
  assert (E1 : trimStart ((if before then [10%N] else []) ++ c
                          ++ (if after then [10%N] else []))
               = c ++ (if after then [10%N] else [])).
  { destruct before; cbn [app trimStart]; rewrite ?Ec; cbn [app trimStart is_white];
      rewrite ?Hc0; reflexivity. }
  unfold trim. rewrite E1. unfold trimEnd.
  assert (E2 : trimStart (reverse (c ++ (if after then [10%N] else [])))
               = reverse c).
  { assert (Hrc : trimStart (reverse c) = reverse c).
    { rewrite Hd, reverse_app. change (reverse [d]) with [d]. cbn [app].
      apply trimStart_fixed, Hwd. }
    destruct after; rewrite reverse_app.
    - change (reverse [10%N]) with [10%N]. cbn [app trimStart].
      change (is_white 10) with true. exact Hrc.
    - change (reverse []) with (@nil N). exact Hrc. }
  rewrite E2. apply reverse_involutive.
Qed.

Lemma forEach_pages_text i seg raw c :
  c <> [] -> trim seg = c ->
  forEach_pages i (seg :: raw) = mkPage i (pageType c) c :: forEach_pages (S i) raw.
Proof.
  intros Hne E. cbn [forEach_pages]. rewrite E.
  destruct c; [contradiction Hne|]; reflexivity.
Qed.

(** The pages after the first one: each page text stands between line
    feeds. *)
Lemma forEach_pages_joined i contents :
  contents <> [] ->
  Forall (fun c => page_text c) contents ->
  forEach_pages i
    (split_go at_tag (length page_tag) 0 [] (10%N :: join_pages contents))
  = pages_of i contents.
Proof.
  intros Hne Hall. revert i Hne.
  induction Hall as [|c contents (Hc & Htrim & Hfree) Hall IH]; intros i Hne;
    [contradiction Hne; reflexivity|].
  destruct contents as [|c' contents].
  - cbn [join_pages pages_of].
    rewrite (split_go_last [] (10%N :: c)).
    + apply forEach_pages_text; [exact Hc|].
      pose proof (trim_line_feeds c true false Hc Htrim) as Ht.
      rewrite app_nil_r in Ht. exact Ht.
    + intros k. apply (free_line_feeds c true k [] Hfree).
  - replace (10%N :: join_pages (c :: c' :: contents))
      with ((10%N :: c ++ [10%N]) ++ page_tag ++ (10%N :: join_pages (c' :: contents))).
    2:{ cbn [join_pages app]. f_equal. rewrite <- !app_assoc. reflexivity. }
    rewrite split_go_segment.
    + change (pages_of i (c :: c' :: contents))
        with (mkPage i (pageType c) c :: pages_of (S i) (c' :: contents)).
      rewrite <- IH by discriminate.
      apply forEach_pages_text; [exact Hc|].
      exact (trim_line_feeds c true true Hc Htrim).
    + intros k Hk. apply (free_line_feeds c true k _ Hfree), Hk.
Qed.

(** X14: an outline written in the format of the prompt is read back page
    by page.  For two or more page texts, each not empty, trimmed and
    without [<page>] in any letter case, joined by lines that hold
    [<page>], the parser returns exactly these texts, numbered from 0,
    each with the type its label gives. *)
Theorem parseOutline_join_pages contents :
  2 <= length contents ->
  Forall (fun c => c <> [] /\ trim c = c /\ includes_i (utf16 "<page>") c = false)
    contents ->
  _parseOutline (join_pages contents) = pages_of 0 contents.
Proof.
  intros Hlen Hall.
  destruct contents as [|c [|c' contents]]; [cbn in Hlen; lia..|].
  inversion Hall as [|? ? (Hc & Htrim & Hfree) Hrest]; subst.
  assert (E : join_pages (c :: c' :: contents)
              = (c ++ [10%N]) ++ page_tag ++ (10%N :: join_pages (c' :: contents))).
  { cbn [join_pages app]. rewrite <- !app_assoc. reflexivity. }
  unfold _parseOutline, pagesRaw.
  assert (Hinc : includes page_tag (join_pages (c :: c' :: contents)) = true).
  { rewrite E. generalize (10%N :: join_pages (c' :: contents)).
    generalize (c ++ [10%N]). intros a b.
    induction a as [|x a IH]; cbn [app].
    - assert (Hs : startsWith page_tag (page_tag ++ b) = true).
      { destruct (startsWith_prefix_matcher page_tag ltac:(discriminate)) as [_ Hm].
        apply Hm. vm_compute. reflexivity. }
      change (page_tag ++ b) with (60%N :: (utf16 "page>" ++ b)) in *.
      cbn [includes]. rewrite Hs. reflexivity.
    - cbn [includes]. rewrite IH. apply orb_true_r. }
  rewrite Hinc. unfold split_regex_i. rewrite E, split_go_segment.
  - change (pages_of 0 (c :: c' :: contents))
      with (mkPage 0 (pageType c) c :: pages_of 1 (c' :: contents)).
    rewrite <- forEach_pages_joined by (discriminate || exact Hrest).
    apply forEach_pages_text; [exact Hc|].
    exact (trim_line_feeds c false true Hc Htrim).
  - intros k Hk. apply (free_line_feeds c false k _ Hfree), Hk.
Qed.

End OutlineContents.

Lemma parseOutline_join_pages_witness :
  Outline._parseOutline
    (Outline.join_pages [utf16 "[封面] A"; utf16 "[内容] B"; utf16 "C"])
  = [ Outline.mkPage 0 Outline.type_cover (utf16 "[封面] A");
      Outline.mkPage 1 Outline.type_content (utf16 "[内容] B");
      Outline.mkPage 2 Outline.type_content (utf16 "C") ].
Proof.
  rewrite parseOutline_join_pages.
  - vm_compute. reflexivity.
  - vm_compute. lia.
  - repeat constructor; try discriminate; vm_compute; reflexivity.
Defined.

(* --------------------------------------------------------------------- *)
(** ** Streaming chat call: the outcome of a stream *)
(* --------------------------------------------------------------------- *)

Section StreamOutcome.
Import Stream.
Context `{ChatDecoder}.

Implicit Types (text chunk line tail : jsstring) (st : State).
Implicit Types (chunks : list jsstring) (lines : list jsstring).

#[local] Abbreviation split_lines s := (split_go (startsWith [10%N]) 1 0 [] s).

Lemma first_stop_pending lines :
  first_stop lines = pending <-> Forall (fun line => classify line = no_stop) lines.
Proof.
  induction lines as [|line lines IH]; cbn [first_stop].
  - split; [constructor|reflexivity].
  - destruct (classify line) as [content_| |] eqn:E.
    + split; [destruct (extractAndDownloadImage content_); discriminate|].
      inversion 1; congruence.
    + split; [discriminate|]. inversion 1; congruence.
    + rewrite IH. split; [constructor; assumption|]. inversion 1; assumption.
Qed.

Lemma first_stop_app lines lines' :
  first_stop (lines ++ lines')
  = match first_stop lines with
    | pending => first_stop lines'
    | outcome => outcome
    end.
Proof.
  induction lines as [|line lines IH]; cbn [app first_stop]; [reflexivity|].
  destruct (classify line) as [content_| |]; [|reflexivity|exact IH].
  destruct (extractAndDownloadImage content_); reflexivity.
Qed.

(** The handler settles a pending promise by the first stop marker. *)
Lemma process_lines_promise lines st :
  promise st = pending -> promise (process_lines lines st) = first_stop lines.
Proof.
  intros Hp. induction lines as [|line lines IH]; cbn [process_lines first_stop].
  - exact Hp.
  - destruct (classify line) as [content_| |]; cbn [promise]; rewrite ?Hp;
      [reflexivity|reflexivity|exact IH].
Qed.

Lemma settle_settled outcome p : p <> pending -> settle outcome p = p.
Proof. destruct p; [congruence|reflexivity..]. Qed.

Lemma process_lines_settled lines st :
  promise st <> pending -> promise (process_lines lines st) = promise st.
Proof.
  intros Hp. induction lines as [|line lines IH]; cbn [process_lines]; [reflexivity|].
  destruct (classify line); cbn [promise]; [apply settle_settled, Hp..|exact IH].
Qed.

Lemma on_event_settled ev st :
  promise st <> pending -> promise (on_event ev st) = promise st.
Proof.
  intros Hp. destruct ev as [chunk| |message]; cbn [on_event];
    unfold on_data, on_end, on_error; destruct (listening st); cbn [negb];
    try reflexivity; try (apply settle_settled, Hp).
  case_decide; [apply settle_settled, Hp|].
  rewrite process_lines_settled; [reflexivity|exact Hp].
Qed.

Lemma run_settled (evs : list StreamEvent) st :
  promise st <> pending -> promise (run evs st) = promise st.
Proof.
  revert st. induction evs as [|ev evs IH]; intros st Hp; [reflexivity|].
  cbn [run fold_left]. fold (run evs (on_event ev st)).
  rewrite IH; rewrite on_event_settled by exact Hp; [reflexivity|exact Hp].
Qed.

(** X15: a call that is settled stays settled: once the promise is
    resolved or rejected, no chunk, end or error of the stream changes
    the outcome, in whatever order they arrive. *)
Theorem settled_outcome_is_final (evs : list StreamEvent) st :
  promise st <> pending -> promise (run evs st) = promise st.
Proof. apply run_settled. Qed.

(** One more chunk within the limit, after chunks whose complete lines
    carry no stop marker. *)
Lemma feed_snoc_promise chunks chunk :
  S (length chunks) <= MAX_CHUNKS ->
  Forall (fun line => classify line = no_stop) (complete_lines (concat chunks)) ->
  promise (feed (chunks ++ [chunk]) initial)
  = first_stop
      (removelast (split_lines (default [] (last (split_lines (concat chunks))) ++ chunk))).
Proof.
  intros Hlen Hlines. rewrite feed_app, feed_no_stop by (lia || exact Hlines).
  unfold feed. cbn [map run fold_left on_event]. unfold on_data.
  cbn [listening negb chunkCount buffer promise].
  case_decide as Hmax; [lia|].
  rewrite process_lines_promise by reflexivity. reflexivity.
Qed.

(** Within the limit the promise follows the first stop marker among the
    complete lines received. *)
Lemma feed_promise chunks :
  length chunks <= MAX_CHUNKS ->
  promise (feed chunks initial) = first_stop (complete_lines (concat chunks)).
Proof.
  induction chunks as [|chunk chunks IH] using rev_ind; intros Hlen; [reflexivity|].
  rewrite length_app in Hlen. cbn [length] in Hlen.
  assert (Hcat : concat (chunks ++ [chunk]) = concat chunks ++ chunk).
  { rewrite concat_app. cbn [concat]. rewrite app_nil_r. reflexivity. }
  rewrite Hcat, complete_lines_app, first_stop_app.
  destruct (first_stop (complete_lines (concat chunks))) as [|imageData|message] eqn:E.
  - apply feed_snoc_promise; [lia|]. apply first_stop_pending, E.
  - rewrite feed_app. unfold feed at 1. rewrite run_settled;
      rewrite IH by lia; [reflexivity|discriminate].
  - rewrite feed_app. unfold feed at 1. rewrite run_settled;
      rewrite IH by lia; [reflexivity|discriminate].
Qed.

(** X16: within the chunk limit the outcome of the call does not depend on
    how the stream is cut into chunks: two sequences of chunks that carry
    the same text lead to the same outcome.  It is decided by the first
    stop marker among the complete lines of the text: the downloaded image
    or the error of the download when that line has content, a rejection
    when it has none; the promise is pending as long as no complete line
    carries a stop marker. *)
Theorem outcome_by_complete_lines chunks chunks' :
  length chunks <= MAX_CHUNKS ->
  length chunks' <= MAX_CHUNKS ->
  concat chunks = concat chunks' ->
  promise (feed chunks initial) = first_stop (complete_lines (concat chunks))
  /\ promise (feed chunks initial) = promise (feed chunks' initial).
Proof.
  intros Hlen Hlen' Hcat. rewrite !feed_promise by assumption.
  rewrite Hcat. split; reflexivity.
Qed.

(** Text after the last line feed is no complete line. *)
Lemma complete_lines_tail text tail :
  Forall (fun c => code_eqb 10 c = false) tail ->
  complete_lines (text ++ tail) = complete_lines text.
Proof.
  intros Htail. rewrite complete_lines_app.
  rewrite <- (app_nil_r (default [] (last (split_lines text)) ++ tail)).
  rewrite (split_lf_prefix [] _ [] ltac:(apply Forall_app; split;
             [apply split_lf_last_clean|exact Htail])).
  cbn [split_go removelast]. apply app_nil_r.
Qed.

Lemma on_end_promise st :
  (listening st = false -> promise st <> pending) ->
  promise (on_end st)
  = match promise st with
    | pending => rejected "流式响应异常结束,未收到finish_reason=stop"
    | outcome => outcome
    end.
Proof.
  intros Hl. unfold on_end. destruct (listening st); cbn [negb promise].
  - destruct (promise st); reflexivity.
  - destruct (promise st); [contradiction Hl; reflexivity|reflexivity..].
Qed.

Lemma process_lines_listening lines st :
  (listening st = false -> promise st <> pending) ->
  listening (process_lines lines st) = false ->
  promise (process_lines lines st) <> pending.
Proof.
  intros Hst. induction lines as [|line lines IH]; cbn [process_lines]; [exact Hst|].
  destruct (classify line) as [content_| |]; cbn [listening promise].
  - intros _. destruct (promise st); cbn [settle]; try discriminate.
    destruct (extractAndDownloadImage content_); discriminate.
  - intros _. destruct (promise st); discriminate.
  - exact IH.
Qed.

(** The listeners are only removed together with a decision. *)
Lemma run_listening (evs : list StreamEvent) st :
  (listening st = false -> promise st <> pending) ->
  listening (run evs st) = false -> promise (run evs st) <> pending.
Proof.
  revert st. induction evs as [|ev evs IH]; intros st Hst; [exact Hst|].
  cbn [run fold_left]. fold (run evs (on_event ev st)). apply IH.
  destruct ev as [chunk| |message]; cbn [on_event]; unfold on_data, on_end, on_error;
    destruct (listening st) eqn:El; cbn [negb]; try (rewrite El; exact Hst);
    cbn [listening promise]; try discriminate.
  case_decide.
  - cbn [listening promise]. intros _. destruct (promise st); discriminate.
  - apply process_lines_listening. cbn [listening promise]. discriminate.
Qed.

(** X17: when the stream ends within the chunk limit, the call is decided
    by the complete lines only.  Without a stop marker among them the
    promise is rejected as ended without completion; text after the last
    line feed is never read, so a final line that lacks its line feed
    does not count, whatever it holds. *)
Theorem end_of_stream_outcome chunks tail :
  S (length chunks) <= MAX_CHUNKS ->
  Forall (fun c => code_eqb 10 c = false) tail ->
  promise (on_end (feed (chunks ++ [tail]) initial))
  = match first_stop (complete_lines (concat chunks)) with
    | pending => rejected "流式响应异常结束,未收到finish_reason=stop"
    | outcome => outcome
    end.
Proof.
  intros Hlen Htail.
  rewrite on_end_promise by (apply run_listening; discriminate).
  rewrite feed_promise by (rewrite length_app; cbn [length]; lia).
  rewrite concat_app. cbn [concat]. rewrite app_nil_r.
  rewrite complete_lines_tail by exact Htail. reflexivity.
Qed.

End StreamOutcome.


Lemma settled_outcome_is_final_witness :
  Stream.promise
    (@Stream.run Sample.decoder
       [Stream.end_event; Stream.data_event (utf16 "data: STOP
"); Stream.error_event "socket hang up"]
       (@Stream.feed Sample.decoder [utf16 "data: STOP
"] Stream.initial))
  = Stream.rejected "download failed".
Proof.
  rewrite settled_outcome_is_final.
  - vm_compute. reflexivity.
  - vm_compute. discriminate.
Defined.

Lemma outcome_by_complete_lines_witness :
  Stream.promise
    (@Stream.feed Sample.decoder [utf16 "data: tick
data: ST"; utf16 "OP
"] Stream.initial)
  = Stream.promise
      (@Stream.feed Sample.decoder [utf16 "data: tick
"; utf16 "data: STOP
"] Stream.initial).
Proof.
  apply (@outcome_by_complete_lines Sample.decoder).
  - vm_compute. lia.
  - vm_compute. lia.
  - vm_compute. reflexivity.
Defined.

Lemma end_of_stream_outcome_witness :
  Stream.promise
    (Stream.on_end
       (@Stream.feed Sample.decoder [utf16 "data: tick
"; utf16 "data: STOP"] Stream.initial))
  = Stream.rejected "流式响应异常结束,未收到finish_reason=stop".
Proof.
  change [utf16 "data: tick
"; utf16 "data: STOP"] with ([utf16 "data: tick
"] ++ [utf16 "data: STOP"]).
  rewrite (@end_of_stream_outcome Sample.decoder [utf16 "data: tick
"] (utf16 "data: STOP")).
  - vm_compute. reflexivity.
  - vm_compute. lia.
  - refine (bool_decide_unpack _ _). vm_compute. exact I.
Defined.

(* --------------------------------------------------------------------- *)
(** ** Image orchestrator: runs as sequences of steps *)
(* --------------------------------------------------------------------- *)

(** Every run of the orchestrator is a sequence of five kinds of steps: a
    change of the service's own fields, the creation of the task
    directory, a reading of the clock or of the UUID source, an update of
    the history record with truthy values, and a call of
    [_generateSingleImage].  A relation between worlds that every such
    step respects, and that counts the calls of [_generateSingleImage],
    holds between the beginning and the end of a run. *)
Section RunInduction.
Import Outline History Image.
Context `{Platform} `{External}.

Implicit Types (w : World) (page : PageData) (pages : list PageData).
Implicit Types (loc : Locals) (recordId taskId : string).

Variable R : nat -> World -> World -> Prop.
Hypothesis R_refl : forall w, R 0 w w.
Hypothesis R_trans : forall a b w1 w2 w3, R a w1 w2 -> R b w2 w3 -> R (a + b) w1 w3.
Hypothesis R_service : forall w s, R 0 w (set_service s w).
Hypothesis R_dir : forall w t, R 0 w (set_store (ensure_dir t (store w)) w).
Hypothesis R_env : forall w e, R 0 w (set_env e w).
Hypothesis R_update :
  forall w recordId updates,
    updates_truthy updates -> R 0 w (history_update recordId updates w).
Hypothesis R_generate :
  forall page taskId referenceImage retryCount fullOutline userImages userTopic w,
    R 1 w (_generateSingleImage page taskId referenceImage retryCount fullOutline
             userImages userTopic w).2.

Lemma R_step0 n w1 w2 w3 : R n w1 w2 -> R 0 w2 w3 -> R n w1 w3.
Proof using R_trans.
  intros H1 H2. rewrite <- (Nat.add_0_r n). eapply R_trans; eassumption.
Qed.

Lemma R_taskState taskId f w : R 0 w (update_taskState taskId f w).
Proof using R_service. apply R_service. Qed.

Lemma run_updates_truthy taskId generated_ (status thumbnail : option string) :
  taskId <> "" ->
  (forall s, status = Some s -> s <> "") ->
  (forall t, thumbnail = Some t -> t <> "") ->
  updates_truthy
    (Updates.mk None (Some (Images.mk (Some taskId) generated_)) status thumbnail).
Proof.
  intros Ht Hs Hth. split_and!; cbn; [exact Hs|exact Hth|].
  intros im [= <-]. exists taskId. split; [reflexivity|exact Ht].
Qed.

Lemma truthy_nonempty (s : string) : truthy s = true -> s <> "".
Proof. unfold truthy. intros E. apply bool_decide_eq_true in E. exact E. Qed.

Lemma success_filename (success : bool) (filename : option string) :
  success && truthy_opt filename = true -> default "" filename <> "".
Proof.
  intros [_ E]%andb_true_iff. destruct filename as [f|]; [|discriminate].
  apply truthy_nonempty, E.
Qed.

Lemma cover_phase_steps coverPage taskId total fullOutline compressed userTopic
    (hist : option string) w :
  taskId <> "" ->
  R 1 w (cover_phase coverPage taskId total fullOutline compressed userTopic hist w).2.
Proof using R_refl R_trans R_service R_update R_generate.
  intros Ht. unfold cover_phase.
  pose proof (R_generate coverPage taskId None 0 fullOutline compressed userTopic w)
    as Hgen.
  destruct (_generateSingleImage coverPage taskId None 0 fullOutline compressed
              userTopic w) as [[[[index_ success] filename] error_] w1].
  cbn [snd] in Hgen.
  destruct (success && truthy_opt filename) eqn:Es.
  - pose proof (success_filename _ _ Es) as Hf.
    match goal with
    | |- context [update_taskState taskId ?f w1] =>
      pose proof (R_taskState taskId f w1) as Hts;
      set (w2 := update_taskState taskId f w1) in *
    end.
    destruct (currentTaskDir (service w2) ≫= _) as [coverData|]; cbn [snd].
    + eapply R_step0; [eapply R_step0; [eapply R_step0; [exact Hgen|exact Hts]|]|].
      * apply R_taskState.
      * destruct hist as [recordId|]; [|apply R_refl].
        unfold record_cover. apply R_update, run_updates_truthy;
          [exact Ht|discriminate|]. intros t [= <-]. exact Hf.
    + eapply R_step0; [exact Hgen|exact Hts].
  - cbn [snd]. eapply R_step0; [exact Hgen|apply R_taskState].
Qed.

Lemma on_fulfilled_steps taskId (hist : option string) page (value : SingleResult)
    loc w :
  taskId <> "" ->
  R 0 w (on_fulfilled taskId hist page value loc w).2.
Proof using R_refl R_trans R_service R_update.
  intros Ht. unfold on_fulfilled. destruct value as [[[index_ success] filename] error_].
  destruct (success && truthy_opt filename); cbn [snd]; [|apply R_taskState].
  eapply R_step0; [apply R_taskState|].
  destruct hist as [recordId|]; [|apply R_refl].
  unfold record_generated. apply R_update, run_updates_truthy;
    [exact Ht|discriminate..].
Qed.

Lemma on_settled_steps taskId (hist : option string) page result loc w :
  taskId <> "" ->
  R 0 w (on_settled taskId hist page result loc w).2.
Proof using R_refl R_trans R_service R_update.
  intros Ht. destruct result as [value|errorMsg]; cbn [on_settled].
  - apply on_fulfilled_steps, Ht.
  - cbn [snd]. apply R_taskState.
Qed.

Lemma sequential_loop_steps pages taskId total fullOutline compressed userTopic
    (hist : option string) loc w :
  taskId <> "" ->
  R (length pages) w
    (sequential_loop pages taskId total fullOutline compressed userTopic hist loc w).2.
Proof using R_refl R_trans R_service R_update R_generate.
  intros Ht. revert loc w. induction pages as [|page pages IH]; intros loc w.
  - apply R_refl.
  - cbn [sequential_loop length].
    pose proof (R_generate page taskId (coverImageData loc) 0 fullOutline compressed
                  userTopic w) as Hgen.
    destruct (_generateSingleImage page taskId (coverImageData loc) 0 fullOutline
                compressed userTopic w) as [value w1].
    cbn [snd] in Hgen.
    pose proof (on_fulfilled_steps taskId hist page value loc w1 Ht) as Hful.
    destruct (on_fulfilled taskId hist page value loc w1) as [[ev loc1] w2].
    cbn [snd] in Hful.
    specialize (IH loc1 w2).
    destruct (sequential_loop pages taskId total fullOutline compressed userTopic
                hist loc1 w2) as [[evs loc2] w3].
    cbn [snd] in *.
    apply (R_trans 1 (length pages) w w2 w3); [|exact IH].
    eapply R_step0; eassumption.
Qed.

Lemma allSettled_steps pages taskId referenceImage fullOutline compressed userTopic w :
  R (length pages) w
    (allSettled pages taskId referenceImage fullOutline compressed userTopic w).2.
Proof using R_refl R_trans R_generate.
  revert w. induction pages as [|page pages IH]; intros w.
  - apply R_refl.
  - cbn [allSettled length].
    pose proof (R_generate page taskId referenceImage 0 fullOutline compressed
                  userTopic w) as Hgen.
    destruct (_generateSingleImage page taskId referenceImage 0 fullOutline
                compressed userTopic w) as [value w1].
    cbn [snd] in Hgen. specialize (IH w1).
    destruct (allSettled pages taskId referenceImage fullOutline compressed
                userTopic w1) as [results w2].
    cbn [snd] in *. apply (R_trans 1 (length pages) w w1 w2); assumption.
Qed.

Lemma results_loop_steps results pages taskId (hist : option string) loc w :
  taskId <> "" ->
  R 0 w (results_loop results pages taskId hist loc w).2.
Proof using R_refl R_trans R_service R_update.
  intros Ht. revert pages loc w.
  induction results as [|result results IH]; intros pages loc w; [apply R_refl|].
  destruct pages as [|page pages]; [apply R_refl|].
  cbn [results_loop].
  pose proof (on_settled_steps taskId hist page result loc w Ht) as Hset.
  destruct (on_settled taskId hist page result loc w) as [[ev loc1] w1].
  cbn [snd] in Hset. specialize (IH pages loc1 w1).
  destruct (results_loop results pages taskId hist loc1 w1) as [[evs loc2] w2].
  cbn [snd] in *. eapply R_step0; eassumption.
Qed.

Lemma content_phase_steps pages taskId total fullOutline compressed userTopic
    (hist : option string) loc w :
  taskId <> "" ->
  R (length pages) w
    (content_phase pages taskId total fullOutline compressed userTopic hist loc w).2.
Proof using R_refl R_trans R_service R_update R_generate.
  intros Ht. unfold content_phase. destruct pages as [|page pages]; [apply R_refl|].
  destruct (default false _).
  - pose proof (allSettled_steps (page :: pages) taskId (coverImageData loc)
                  fullOutline compressed userTopic w) as Hall.
    destruct (allSettled (page :: pages) taskId (coverImageData loc) fullOutline
                compressed userTopic w) as [results w1].
    cbn [snd] in Hall.
    pose proof (results_loop_steps results (page :: pages) taskId hist loc w1 Ht)
      as Hres.
    destruct (results_loop results (page :: pages) taskId hist loc w1)
      as [[evs loc1] w2].
    cbn [snd] in *. eapply R_step0; eassumption.
  - pose proof (sequential_loop_steps (page :: pages) taskId total fullOutline
                  compressed userTopic hist loc w Ht) as Hseq.
    destruct (sequential_loop (page :: pages) taskId total fullOutline compressed
                userTopic hist loc w) as [[evs loc1] w1].
    exact Hseq.
Qed.

Lemma start_task_steps pages (taskId : option string) fullOutline userImages
    userTopic (recordId : option string) w :
  (start_task pages taskId fullOutline userImages userTopic recordId w).1.1 <> ""
  /\ R 0 w (start_task pages taskId fullOutline userImages userTopic recordId w).2.
Proof using R_refl R_trans R_service R_dir R_env R_update.
  unfold start_task.
  set (named := match taskId with
                | Some t =>
                  if truthy t then (t, w)
                  else let '(u, e) := uuidv4 (env w) in
                       ("task_" +:+ String.substring 0 8 u, set_env e w)
                | None =>
                  let '(u, e) := uuidv4 (env w) in
                  ("task_" +:+ String.substring 0 8 u, set_env e w)
                end).
  assert (Hnamed : named.1 <> "" /\ R 0 w named.2).
  { subst named. destruct taskId as [t|]; [destruct (truthy t) eqn:Et|].
    - split; [apply truthy_nonempty, Et|apply R_refl].
    - destruct (uuidv4 (env w)) as [u e]. split; [discriminate|apply R_env].
    - destruct (uuidv4 (env w)) as [u e]. split; [discriminate|apply R_env]. }
  destruct named as [tid w0]. cbn [fst snd] in *. destruct Hnamed as [Htid Hw0].
  split; [exact Htid|].
  eapply R_step0; [eapply R_step0; [eapply R_step0; [eapply R_step0;
    [exact Hw0|apply R_service]|apply R_dir]|apply R_service]|].
  destruct (history_record recordId) as [rid|]; [|apply R_refl].
  unfold link_task. apply R_update, run_updates_truthy; [exact Htid| |discriminate].
  intros s [= <-]. discriminate.
Qed.

(** The pages a run generates are pages of the list. *)
Lemma partition_pages_le pages :
  length (option_list (partition_pages pages).1) + length (partition_pages pages).2
  <= length pages.
Proof.
  unfold partition_pages. rewrite partition_loop_spec.
  pose proof (filter_split_length pages) as Hlen. cbn [app] in *.
  destruct (last (covers pages)) as [c|] eqn:Ec.
  - cbn [fst snd]. change (length (option_list (Some c))) with 1.
    destruct (covers pages); [discriminate|]. cbn [length] in Hlen. lia.
  - apply last_None in Ec. rewrite (filter_no_cover pages Ec) in *.
    destruct pages as [|first rest]; [reflexivity|].
    cbn [fst snd]. change (length (option_list (Some first))) with 1.
    cbn [drop length]. rewrite drop_0. lia.
Qed.

Lemma final_status_nonempty loc : final_status loc <> "".
Proof. unfold final_status. repeat case_decide; discriminate. Qed.

(** A run of [generateImages] calls [_generateSingleImage] at most once
    per page. *)
Lemma generateImages_steps pages (taskId : option string) fullOutline userImages
    userTopic (recordId : option string) w :
  exists n, n <= length pages
    /\ R n w (generateImages pages taskId fullOutline userImages userTopic
                recordId w).2.
Proof using R_refl R_trans R_service R_dir R_env R_update R_generate.
  unfold generateImages.
  destruct (start_task_steps pages taskId fullOutline userImages userTopic recordId w)
    as [Htid Hstart].
  destruct (start_task pages taskId fullOutline userImages userTopic recordId w)
    as [[tid compressed] w1].
  cbn [fst snd] in *.
  pose proof (partition_pages_le pages) as Hle.
  destruct (partition_pages pages) as [coverPage otherPages].
  cbn [fst snd] in Hle.
  set (cover_result := match coverPage with
                       | Some c => cover_phase c tid (length pages) fullOutline
                                     compressed userTopic (history_record recordId) w1
                       | None => ([], mkLocals [] [] None, returned, w1)
                       end).
  assert (Hcover : R (length (option_list coverPage)) w1 cover_result.2).
  { subst cover_result. destruct coverPage as [c|]; [|apply R_refl].
    apply cover_phase_steps, Htid. }
  destruct cover_result as [[[evs1 loc1] completion] w2]. cbn [snd] in Hcover.
  destruct completion as [|message].
  - pose proof (content_phase_steps otherPages tid (length pages) fullOutline
                  compressed userTopic (history_record recordId) loc1 w2 Htid) as Hcontent.
    destruct (content_phase otherPages tid (length pages) fullOutline compressed
                userTopic (history_record recordId) loc1 w2) as [[evs2 loc2] w3].
    cbn [snd] in *.
    exists (length (option_list coverPage) + length otherPages). split; [exact Hle|].
    eapply R_step0.
    + change (length (option_list coverPage) + length otherPages)
        with (0 + (length (option_list coverPage) + length otherPages)).
      eapply R_trans; [exact Hstart|]. eapply R_trans; eassumption.
    + destruct (history_record recordId) as [rid|]; [|apply R_refl].
      unfold record_final. apply R_update, run_updates_truthy;
        [exact Htid| |discriminate].
      intros s [= <-]. apply final_status_nonempty.
  - cbn [snd]. exists (length (option_list coverPage)). split; [lia|].
    change (length (option_list coverPage))
      with (0 + length (option_list coverPage)).
    eapply R_trans; eassumption.
Qed.

(** The retry of a list of pages calls [_generateSingleImage] once per
    page and leaves the history records alone. *)
Lemma retry_loop_steps pages total taskId referenceImage fullOutline userImages
    userTopic successCount failedCount w :
  R (length pages) w
    (retry_loop pages total taskId referenceImage fullOutline userImages userTopic
       successCount failedCount w).2.
Proof using R_refl R_trans R_service R_generate.
  revert successCount failedCount w.
  induction pages as [|page pages IH]; intros successCount failedCount w.
  - apply R_refl.
  - cbn [retry_loop length].
    pose proof (R_generate page taskId referenceImage 0 fullOutline userImages
                  userTopic w) as Hgen.
    destruct (_generateSingleImage page taskId referenceImage 0 fullOutline
                userImages userTopic w) as [[[[index_ success] filename] error_] w1].
    cbn [snd] in Hgen.
    destruct (success && truthy_opt filename).
    + match goal with
      | |- context [retry_loop pages total taskId referenceImage fullOutline
                      userImages userTopic ?s ?f ?w2] =>
        specialize (IH s f w2);
        destruct (retry_loop pages total taskId referenceImage fullOutline
                    userImages userTopic s f w2) as [[evs counts] w3]
      end.
      cbn [snd] in *. eapply (R_trans 1 (length pages)); [|exact IH].
      eapply R_step0; [exact Hgen|]. apply R_taskState.
    + match goal with
      | |- context [retry_loop pages total taskId referenceImage fullOutline
                      userImages userTopic ?s ?f ?w2] =>
        specialize (IH s f w2);
        destruct (retry_loop pages total taskId referenceImage fullOutline
                    userImages userTopic s f w2) as [[evs counts] w3]
      end.
      cbn [snd] in *. eapply (R_trans 1 (length pages)); [|exact IH].
      eapply R_step0; [exact Hgen|]. apply R_taskState.
Qed.

Lemma retryFailedImages_steps taskId pages w :
  R (length pages) w (retryFailedImages taskId pages w).2.
Proof using R_refl R_trans R_service R_dir R_generate.
  unfold retryFailedImages.
  match goal with
  | |- context [retry_loop pages (length pages) taskId ?r ?o ?u ?t 0 0 ?w0] =>
    pose proof (retry_loop_steps pages (length pages) taskId r o u t 0 0 w0) as Hloop;
    destruct (retry_loop pages (length pages) taskId r o u t 0 0 w0)
      as [[evs [successCount failedCount]] w1]
  end.
  cbn [snd] in *.
  change (length pages) with (0 + length pages).
  eapply R_trans; [|exact Hloop].
  eapply R_step0; [apply R_service|apply R_dir].
Qed.

End RunInduction.

(* --------------------------------------------------------------------- *)
(** ** Image orchestrator: requests sent to the provider *)
(* --------------------------------------------------------------------- *)

Section Requests.
Import Outline History Image.
Context `{Platform} `{External}.

Implicit Types (w : World) (page : PageData) (pages : list PageData).
Implicit Types (referenceImage : option Buffer) (userImages : option (list Buffer)).
Implicit Types (fullOutline userTopic taskId : string).

(** The attempts of one page: the passes left bound the requests; a
    failure is reported only when no pass is left, and a success names the
    file of the page. *)
Lemma attempt_loop_requests fuel attempt page referenceImage fullOutline userImages
    userTopic w :
  attempt + fuel = AUTO_RETRY_COUNT ->
  let res := attempt_loop fuel attempt page referenceImage fullOutline userImages
               userTopic w in
  exists k,
    calls res.2
    = calls w ++ replicate k (build_kwargs (service w) page referenceImage
                                fullOutline userImages userTopic)
    /\ k <= fuel /\ (0 < fuel -> 0 < k)
    /\ (res.1.1.1.2 = false -> k = fuel)
    /\ (res.1.1.1.2 = true -> res.1.1.2 = Some (pretty (index page) +:+ ".png")).
Proof.
  revert attempt w. induction fuel as [|fuel IH]; intros attempt w Hsum;
    cbn [attempt_loop]; cbv zeta.
  - exists 0. cbn [snd fst replicate]. rewrite app_nil_r.
    split_and!; try reflexivity; try lia; try discriminate.
  - destruct (attempt_once page referenceImage fullOutline userImages userTopic w)
      as [[errorMsg|filename] w1] eqn:E1.
    + destruct (attempt_once_spec _ _ _ _ _ _ _ _ E1) as (Hs & _ & _ & _ & Hc & _).
      case_decide as Hlast.
      * specialize (IH (S attempt) (set_env (wait (2 ^ attempt) (env w1)) w1)
                      ltac:(lia)).
        cbv zeta in IH. destruct IH as (k & Hk & Hle & Hpos & Hfail & Hfile).
        exists (S k). cbn [service calls set_env] in Hk. rewrite Hs in Hk.
        split_and!.
        -- rewrite Hk, Hc, <- app_assoc. reflexivity.
        -- lia.
        -- lia.
        -- intros Hf. rewrite (Hfail Hf). reflexivity.
        -- exact Hfile.
      * exists 1. cbn [fst snd]. unfold AUTO_RETRY_COUNT in *.
        split_and!; try lia; try exact Hc; discriminate.
    + destruct (attempt_once_spec _ _ _ _ _ _ _ _ E1) as (_ & _ & _ & _ & Hc & _).
      exists 1. cbn [fst snd]. split_and!; try lia; try exact Hc; try discriminate.
      intros _. f_equal. unfold attempt_once in E1.
      destruct (generateImage _ (env w)) as [[msg|imageData] e]; [discriminate|].
      destruct (_saveImage _ _ _ _) as [[msg|] w2]; [discriminate|].
      injection E1 as <- _. reflexivity.
Qed.

Lemma generateSingleImage_requests_aux page taskId referenceImage retryCount
    fullOutline userImages userTopic w :
  let res := _generateSingleImage page taskId referenceImage retryCount fullOutline
               userImages userTopic w in
  exists k,
    calls res.2
    = calls w ++ replicate k (build_kwargs (service w) page referenceImage
                                fullOutline userImages userTopic)
    /\ 1 <= k <= AUTO_RETRY_COUNT
    /\ (res.1.1.1.2 = false -> k = AUTO_RETRY_COUNT)
    /\ (res.1.1.1.2 = true -> res.1.1.2 = Some (pretty (index page) +:+ ".png")).
Proof.
  cbv zeta. unfold _generateSingleImage.
  destruct (attempt_loop_requests AUTO_RETRY_COUNT 0 page referenceImage fullOutline
              userImages userTopic w eq_refl) as (k & Hk & Hle & Hpos & Hfail & Hfile).
  exists k. split_and!; auto. apply Hpos. unfold AUTO_RETRY_COUNT. lia.
Qed.

(** X18: for one page the provider receives between one and three
    requests, all of them the same.  A page is reported as failed only
    after three requests; a page reported as generated has its file named
    after its index. *)
Theorem generateSingleImage_requests page taskId referenceImage retryCount
    fullOutline userImages userTopic w :
  let res := _generateSingleImage page taskId referenceImage retryCount fullOutline
               userImages userTopic w in
  exists k,
    calls res.2
    = calls w ++ replicate k (build_kwargs (service w) page referenceImage
                                fullOutline userImages userTopic)
    /\ 1 <= k <= AUTO_RETRY_COUNT
    /\ (res.1.1.1.2 = false -> k = AUTO_RETRY_COUNT)
    /\ (res.1.1.1.2 = true -> res.1.1.2 = Some (pretty (index page) +:+ ".png")).
Proof. apply generateSingleImage_requests_aux. Qed.

Lemma requests_within_refl w : requests_within 0 w w.
Proof. exists []. rewrite app_nil_r. cbn. split; [reflexivity|lia]. Qed.

Lemma requests_within_trans a b w1 w2 w3 :
  requests_within a w1 w2 -> requests_within b w2 w3 ->
  requests_within (a + b) w1 w3.
Proof.
  intros (e1 & E1 & H1) (e2 & E2 & H2). exists (e1 ++ e2).
  rewrite E2, E1, <- app_assoc, length_app. split; [reflexivity|lia].
Qed.

Lemma requests_within_same n w w' :
  calls w' = calls w -> n = 0 -> requests_within n w w'.
Proof. intros E ->. exists []. rewrite app_nil_r. cbn. split; [exact E|lia]. Qed.

Lemma requests_within_generate page taskId referenceImage retryCount fullOutline
    userImages userTopic w :
  requests_within 1 w
    (_generateSingleImage page taskId referenceImage retryCount fullOutline
       userImages userTopic w).2.
Proof.
  destruct (generateSingleImage_requests_aux page taskId referenceImage retryCount
              fullOutline userImages userTopic w) as (k & Hk & Hle & _).
  eexists. split; [exact Hk|]. rewrite length_replicate. lia.
Qed.

(** X19: a run of [generateImages] sends at most three requests per page
    of the list to the provider, and a batch retry between one and three
    requests per page; the requests sent before are not forgotten. *)
Theorem run_requests_bounded pages (taskId : option string) fullOutline userImages
    userTopic (recordId : option string) (retryTaskId : string) w :
  (exists extra,
     calls (generateImages pages taskId fullOutline userImages userTopic recordId w).2
     = calls w ++ extra
     /\ length extra <= AUTO_RETRY_COUNT * length pages)
  /\ (exists extra,
        calls (retryFailedImages retryTaskId pages w).2 = calls w ++ extra
        /\ length pages <= length extra <= AUTO_RETRY_COUNT * length pages).
Proof.
  split.
  - destruct (generateImages_steps requests_within requests_within_refl
                requests_within_trans) with (pages := pages) (taskId := taskId)
      (fullOutline := fullOutline) (userImages := userImages) (userTopic := userTopic)
      (recordId := recordId) (w := w) as (n & Hn & extra & Hextra & Hlen).
    + intros w0 s. apply requests_within_same; reflexivity.
    + intros w0 t. apply requests_within_same; reflexivity.
    + intros w0 e. apply requests_within_same; reflexivity.
    + intros w0 rid updates _. apply requests_within_same; [|reflexivity].
      apply history_update_frame.
    + apply requests_within_generate.
    + exists extra. split; [exact Hextra|]. unfold AUTO_RETRY_COUNT in *. nia.
  - apply (retryFailedImages_steps requests_within requests_within_refl
             requests_within_trans).
    + intros w0 s. apply requests_within_same; reflexivity.
    + intros w0 t. apply requests_within_same; reflexivity.
    + apply requests_within_generate.
Qed.

(** *** The history index during a run *)

Lemma history_in_step_ext w w' :
  indexFile (store w') = indexFile (store w) ->
  recordFiles (store w') = recordFiles (store w) ->
  history_in_step w -> history_in_step w'.
Proof.
  unfold history_in_step, index_consistent, index_unique, _loadIndex, getRecord.
  intros -> ->. tauto.
Qed.

Lemma history_in_step_update recordId updates w :
  updates_truthy updates ->
  history_in_step w -> history_in_step (history_update recordId updates w).
Proof.
  intros Hu [Hc Hn]. unfold history_update, history_in_step.
  destruct (now (env w)) as [t e].
  pose proof (updateRecord_consistent t recordId updates (store w) Hu Hc Hn) as Hupd.
  destruct (updateRecord t recordId updates (store w)) as [ok st']. exact Hupd.
Qed.

Lemma history_in_step_generate page taskId referenceImage retryCount fullOutline
    userImages userTopic w :
  history_in_step w ->
  history_in_step
    (_generateSingleImage page taskId referenceImage retryCount fullOutline
       userImages userTopic w).2.
Proof.
  destruct (_generateSingleImage page taskId referenceImage retryCount fullOutline
              userImages userTopic w) as [res w'] eqn:E.
  destruct (_generateSingleImage_effect _ _ _ _ _ _ _ _ _ _ E) as [_ Hi Hr _ _ _ _].
  apply history_in_step_ext; assumption.
Qed.

(** X20: a run of [generateImages] keeps the history index in step with
    the detail files: when every index entry agrees with its detail file
    before the run, it does so after it, whichever pages fail.  (Every
    update of the run passes truthy values only.) *)
Theorem generateImages_keeps_history_in_step pages (taskId : option string)
    fullOutline userImages userTopic (recordId : option string) w :
  history_in_step w ->
  history_in_step
    (generateImages pages taskId fullOutline userImages userTopic recordId w).2.
Proof.
  destruct (generateImages_steps (fun _ w w' => history_in_step w -> history_in_step w'))
    with (pages := pages) (taskId := taskId) (fullOutline := fullOutline)
         (userImages := userImages) (userTopic := userTopic) (recordId := recordId)
         (w := w) as (n & _ & Hrun); auto.
  - intros w0 t. apply history_in_step_ext.
    + unfold ensure_dir. destruct (taskDirs (store w0) !! t); reflexivity.
    + unfold ensure_dir. destruct (taskDirs (store w0) !! t); reflexivity.
  - intros w0 rid updates Hu. apply history_in_step_update, Hu.
  - intros. apply history_in_step_generate. assumption.
Qed.

(** *** Batch retry *)

Lemma retry_loop_events pages total taskId referenceImage fullOutline userImages
    userTopic successCount failedCount w :
  let res := retry_loop pages total taskId referenceImage fullOutline userImages
               userTopic successCount failedCount w in
  res.1.2.1 = successCount + length (events_named retry_finish res.1.1)
  /\ res.1.2.2 = failedCount + length (events_named error res.1.1)
  /\ length (events_named retry_finish res.1.1) + length (events_named error res.1.1)
     = length pages
  /\ indices_named retry_start res.1.1 = map index pages
  /\ events_named finish res.1.1 = [].
Proof.
  cbv zeta. revert successCount failedCount w.
  induction pages as [|page pages IH]; intros successCount failedCount w.
  - cbn. split_and!; try reflexivity; lia.
  - cbn [retry_loop].
    destruct (_generateSingleImage page taskId referenceImage 0 fullOutline
                userImages userTopic w) as [[[[index_ success] filename] error_] w1].
    destruct (success && truthy_opt filename).
    + match goal with
      | |- context [retry_loop pages total taskId referenceImage fullOutline
                      userImages userTopic ?s ?f ?w2] =>
        specialize (IH s f w2);
        destruct (retry_loop pages total taskId referenceImage fullOutline
                    userImages userTopic s f w2) as [[evs [s' f']] w3]
      end.
      cbn [fst snd] in *. destruct IH as (Hs & Hf & Hlen & Hidx & Hfin).
      unfold indices_named in *.
      repeat first [ rewrite events_named_same by reflexivity
                   | rewrite events_named_other by discriminate ].
      cbn [length map]. rewrite ?Hfin.
      split_and!; [lia|lia|lia| |reflexivity].
      change (omap event_index (?ev :: ?l)) with (index page :: omap event_index l).
      rewrite Hidx. reflexivity.
    + match goal with
      | |- context [retry_loop pages total taskId referenceImage fullOutline
                      userImages userTopic ?s ?f ?w2] =>
        specialize (IH s f w2);
        destruct (retry_loop pages total taskId referenceImage fullOutline
                    userImages userTopic s f w2) as [[evs [s' f']] w3]
      end.
      cbn [fst snd] in *. destruct IH as (Hs & Hf & Hlen & Hidx & Hfin).
      unfold indices_named in *.
      repeat first [ rewrite events_named_same by reflexivity
                   | rewrite events_named_other by discriminate ].
      cbn [length map]. rewrite ?Hfin.
      split_and!; [lia|lia|lia| |reflexivity].
      change (omap event_index (?ev :: ?l)) with (index page :: omap event_index l).
      rewrite Hidx. reflexivity.
Qed.

Lemma history_untouched_generate page taskId referenceImage retryCount fullOutline
    userImages userTopic w :
  history_untouched w
    (_generateSingleImage page taskId referenceImage retryCount fullOutline
       userImages userTopic w).2.
Proof.
  destruct (_generateSingleImage page taskId referenceImage retryCount fullOutline
              userImages userTopic w) as [res w'] eqn:E.
  destruct (_generateSingleImage_effect _ _ _ _ _ _ _ _ _ _ E) as [_ Hi Hr _ _ _ _].
  split; assumption.
Qed.

(** X21: the batch retry accounts for every page.  Each page of the list
    is announced by a [retry_start] event, in the order of the list, and
    answered by one [retry_finish] or one [error] event; the single
    [finish] event comes last, its counts are the numbers of these events
    and add up to the number of pages, and it reports success exactly
    when no page failed.  The retry changes neither the history index nor
    any detail record. *)
Theorem retryFailedImages_accounting taskId pages w :
  let res := retryFailedImages taskId pages w in
  exists evs completed failed_,
    res.1 = evs ++
            [mkEvent finish
               [("success", flag (bool_decide (failed_ = 0)));
                ("task_id", str taskId); ("completed", num completed);
                ("failed", num failed_)]]
    /\ completed + failed_ = length pages
    /\ completed = length (events_named retry_finish evs)
    /\ failed_ = length (events_named error evs)
    /\ indices_named retry_start evs = map index pages
    /\ events_named finish evs = []
    /\ history_untouched w res.2.
Proof.
  cbv zeta.
  assert (Hhist : history_untouched w (retryFailedImages taskId pages w).2).
  { apply (retryFailedImages_steps (fun _ w w' => history_untouched w w')).
    - intros w0. split; reflexivity.
    - intros _ _ w1 w2 w3 [A1 B1] [A2 B2]. split; congruence.
    - intros w0 s. split; reflexivity.
    - intros w0 t. unfold history_untouched, ensure_dir. cbn [store set_store].
      destruct (taskDirs (store w0) !! t); split; reflexivity.
    - intros. apply history_untouched_generate. }
  revert Hhist. unfold retryFailedImages.
  match goal with
  | |- context [retry_loop pages (length pages) taskId ?r ?o ?u ?t 0 0 ?w0] =>
    pose proof (retry_loop_events pages (length pages) taskId r o u t 0 0 w0) as Hloop;
    destruct (retry_loop pages (length pages) taskId r o u t 0 0 w0)
      as [[evs [successCount failedCount]] w1]
  end.
  cbn [fst snd] in *. destruct Hloop as (Hs & Hf & Hlen & Hidx & Hfin).
  intros Hhist. exists evs, successCount, failedCount.
  split_and!; auto; lia.
Qed.

(** *** Retry of one page *)

Lemma or_unknown_nonempty (error_ : option string) : or_unknown error_ <> "".
Proof.
  unfold or_unknown. destruct error_ as [e|]; [|discriminate].
  destruct (truthy e) eqn:E; [apply truthy_nonempty, E|discriminate].
Qed.

Lemma retry_context_service taskId useReference (fullOutline userTopic : option string) w :
  taskStates (service (retry_context taskId useReference fullOutline userTopic w).2)
  = taskStates (service w)
  /\ currentTaskDir
       (service (retry_context taskId useReference fullOutline userTopic w).2)
     = Some taskId.
Proof. split; reflexivity. Qed.

Lemma record_retry_keeps recordId taskId filename w :
  service (record_retry recordId taskId filename w) = service w
  /\ taskDirs (store (record_retry recordId taskId filename w)) = taskDirs (store w).
Proof.
  unfold record_retry. destruct (getRecord recordId (store w)); [|split; reflexivity].
  split; [apply history_update_frame|].
  unfold history_update. destruct (now (env w)) as [time e].
  match goal with
  | |- context [updateRecord time recordId ?u (store w)] =>
    pose proof (updateRecord_taskDirs time recordId u (store w)) as Hd;
    destruct (updateRecord time recordId u (store w)) as [ok st']
  end.
  exact Hd.
Qed.

(** X22: the streaming retry of one page yields three events: progress,
    then [complete] or [error], then [finish].  After a success the task
    state lists the file of the page as generated and no longer lists the
    page as failed, and the file is in the task directory; after a
    failure the task state holds the error of the page.  Task states of
    other tasks are not changed. *)
Theorem retrySingleImageStreaming_outcome taskId page useReference
    (fullOutline userTopic recordId : option string) w :
  let res := retrySingleImageStreaming taskId page useReference fullOutline userTopic
               recordId w in
  let filename := pretty (index page) +:+ ".png" in
  (map event res.1 = [progress; complete; finish]
   /\ (last res.1 ≫= fun fin => field "success" (data fin)) = Some (flag true)
   /\ taskStates (service res.2)
      = alter (fun t => set_failed (delete (index page) (failed t))
                          (set_generated (<[index page := filename]> (generated t)) t))
          taskId (taskStates (service w))
   /\ is_Some (readFile taskId filename (store res.2)))
  \/ (map event res.1 = [progress; error; finish]
      /\ (last res.1 ≫= fun fin => field "success" (data fin)) = Some (flag false)
      /\ exists message,
           message <> ""
           /\ taskStates (service res.2)
              = alter (fun t => set_failed (<[index page := message]> (failed t)) t)
                  taskId (taskStates (service w))).
Proof.
  cbv zeta. unfold retrySingleImageStreaming.
  destruct (retry_context_service taskId useReference fullOutline userTopic w)
    as [Hstates Hdir].
  destruct (retry_context taskId useReference fullOutline userTopic w)
    as [[[[referenceImage userImages] fullOutline'] userTopic'] w0].
  cbn [snd] in Hstates, Hdir.
  destruct (generateSingleImage_requests_aux page taskId referenceImage 0 fullOutline'
              userImages userTopic' w0) as (k & _ & _ & _ & Hname).
  destruct (_generateSingleImage page taskId referenceImage 0 fullOutline' userImages
              userTopic' w0) as [[[[index_ success] filename] error_] w1] eqn:E.
  destruct (_generateSingleImage_effect _ _ _ _ _ _ _ _ _ _ E)
    as [Hs _ _ _ _ Hidx Hfile].
  cbn [fst snd] in *. subst index_.
  destruct success.
  - rewrite (Hname eq_refl). cbn [truthy_opt andb default].
    assert (Ht : truthy (pretty (index page) +:+ ".png") = true).
    { apply bool_decide_eq_true. apply append_nonempty. discriminate. }
    rewrite Ht. left. cbn [fst snd map event last]. split_and!.
    + reflexivity.
    + reflexivity.
    + destruct (history_record recordId) as [rid|].
      * rewrite (proj1 (record_retry_keeps _ _ _ _)). cbn. rewrite Hs, Hstates.
        reflexivity.
      * cbn. rewrite Hs, Hstates. reflexivity.
    + destruct (Hfile eq_refl) as (f & dir & Hf & _ & Hd & Hread).
      rewrite (Hname eq_refl) in Hf. injection Hf as <-.
      rewrite Hdir in Hd. injection Hd as <-.
      assert (Hmark : is_Some (readFile taskId (pretty (index page) +:+ ".png")
                                 (store (mark_generated taskId (index page)
                                           (pretty (index page) +:+ ".png") w1))))
        by exact Hread.
      destruct (history_record recordId) as [rid|]; [|exact Hmark].
      unfold readFile. rewrite (proj2 (record_retry_keeps _ _ _ _)). exact Hmark.
  - cbn [andb]. right. cbn [fst snd map event last]. split_and!.
    + reflexivity.
    + reflexivity.
    + exists (or_unknown error_). split; [apply or_unknown_nonempty|].
      cbn. rewrite Hs, Hstates. reflexivity.
Qed.

End Requests.

Lemma generateImages_keeps_history_in_step_witness :
  let w' :=
    (@Image.generateImages Sample.platform Sample.external Sample.five_pages
       (Some "task_5") "" None "" (Some "rec-5")
       (Sample.world "google_genai" true Sample.store_five)).2 in
  History.index_consistent (Image.store w') /\ History.index_unique (Image.store w').
Proof.
  apply (@generateImages_keeps_history_in_step Sample.platform Sample.external).
  apply createRecord_consistent.
  - vm_compute. inversion 1.
  - intros e He. vm_compute in He. inversion He.
  - vm_compute. constructor.
Defined.

(* --------------------------------------------------------------------- *)
(** ** Provider clients: addresses and retries *)
(* --------------------------------------------------------------------- *)

Section ClientFacts.
Import Client.

Implicit Types (u s endpoint : jsstring) (k : nat).

#[local] Abbreviation slashes k := (replicate k 47%N).

Lemma forallb_slashes k : forallb (code_eqb 47) (slashes k) = true.
Proof. induction k as [|k IH]; [reflexivity|]. cbn [replicate forallb]. rewrite IH. reflexivity. Qed.

Lemma strip_trailing_slashes_only k : strip_trailing_slashes (slashes k) = [].
Proof.
  destruct k as [|k]; [reflexivity|]. cbn [replicate strip_trailing_slashes].
  rewrite forallb_slashes. reflexivity.
Qed.

(** Trailing slashes after a text that does not end in a slash are what
    the first replacement removes. *)
Lemma strip_trailing_slashes_app u k :
  last u <> Some 47%N ->
  strip_trailing_slashes (u ++ slashes k) = u.
Proof.
  induction u as [|c u IH]; intros Hlast.
  - apply strip_trailing_slashes_only.
  - cbn [app strip_trailing_slashes].
    assert (E : code_eqb 47 c && forallb (code_eqb 47) (u ++ slashes k) = false).
    { apply not_true_is_false. intros [Hc Hall]%andb_true_iff.
      rewrite forallb_app in Hall. apply andb_true_iff in Hall as [Hall _].
      rewrite forallb_forall in Hall.
      destruct (last (c :: u)) as [x|] eqn:Ex; [|apply last_None in Ex; discriminate].
      apply Hlast. f_equal.
      apply last_Some_elem_of, elem_of_cons in Ex as [->|Hx].
      - unfold code_eqb in Hc. apply N.eqb_eq in Hc. congruence.
      - apply list_elem_of_In in Hx. specialize (Hall x Hx).
        unfold code_eqb in Hall. apply N.eqb_eq in Hall. congruence. }
    rewrite E. f_equal. apply IH.
    destruct u as [|d u]; [discriminate|]. rewrite last_cons_cons in Hlast. exact Hlast.
Qed.

Lemma strip_v1_app u : strip_v1 (u ++ utf16 "/v1") = u.
Proof.
  induction u as [|c u IH]; [reflexivity|]. cbn [app strip_v1].
  rewrite decide_False; [rewrite IH; reflexivity|].
  intros E. apply (f_equal length) in E. cbn in E. rewrite length_app in E. cbn in E. lia.
Qed.

Lemma strip_v1_id u : (forall v, u <> v ++ utf16 "/v1") -> strip_v1 u = u.
Proof.
  induction u as [|c u IH]; intros Hu; [reflexivity|]. cbn [strip_v1].
  rewrite decide_False by (intros E; apply (Hu []); exact E).
  rewrite IH; [reflexivity|]. intros v E. apply (Hu (c :: v)). rewrite E. reflexivity.
Qed.

(** The spellings of a base address that the constructors take for the
    same: with or without [/v1], followed by any number of slashes. *)
Lemma normalize_base_url_spellings u (v1 : bool) k :
  last u <> Some 47%N ->
  (forall v, u <> v ++ utf16 "/v1") ->
  normalize_base_url (u ++ (if v1 then utf16 "/v1" else []) ++ slashes k) = u.
Proof.
  intros Hlast Hv1. unfold normalize_base_url. destruct v1.
  - rewrite app_assoc, strip_trailing_slashes_app.
    + apply strip_v1_app.
    + rewrite last_app. cbn. discriminate.
  - cbn [app]. rewrite strip_trailing_slashes_app by exact Hlast.
    apply strip_v1_id, Hv1.
Qed.

Lemma or_text_nonempty s d : s <> [] -> or_text (Some s) d = s.
Proof. destruct s; [congruence|reflexivity]. Qed.

Lemma falsy_nonempty s : s <> [] -> falsy (Some s) = false.
Proof. destruct s; [congruence|reflexivity]. Qed.

(** X23: the base address of a provider may be written with or without a
    final [/v1] and with any number of trailing slashes: the text client
    and both image generators are set up exactly as for the address
    without them, so the request addresses are the same. *)
Theorem base_url_spellings u (v1 : bool) k
    (providerType apiKey endpointType model : option jsstring) :
  u <> [] ->
  last u <> Some 47%N ->
  (forall v, u <> v ++ utf16 "/v1") ->
  let spelling := u ++ (if v1 then utf16 "/v1" else []) ++ slashes k in
  let config base :=
    GeneratorConfig.mk providerType apiKey (Some base) model endpointType in
  TextChatClient.new apiKey (Some spelling) endpointType
  = TextChatClient.new apiKey (Some u) endpointType
  /\ OpenAICompatibleGenerator.new (config spelling)
     = OpenAICompatibleGenerator.new (config u)
  /\ ImageApiGenerator.new (config spelling) = ImageApiGenerator.new (config u)
  /\ ImageApiGenerator.baseUrl (ImageApiGenerator.new (config spelling)) = u.
Proof.
  intros Hne Hlast Hv1 spelling config.
  assert (Hs : spelling <> []).
  { subst spelling. destruct u; [congruence|discriminate]. }
  assert (En : normalize_base_url spelling = u)
    by (apply normalize_base_url_spellings; assumption).
  assert (Eu : normalize_base_url u = u).
  { pose proof (normalize_base_url_spellings u false 0 Hlast Hv1) as E.
    cbn [app replicate] in E. rewrite app_nil_r in E. exact E. }
  unfold TextChatClient.new, OpenAICompatibleGenerator.new, ImageApiGenerator.new.
  subst config. cbn [GeneratorConfig.type GeneratorConfig.api_key GeneratorConfig.base_url
                      GeneratorConfig.model GeneratorConfig.endpoint_type
                      ImageApiGenerator.baseUrl].
  rewrite !(or_text_nonempty spelling), !(or_text_nonempty u) by assumption.
  rewrite !(falsy_nonempty spelling), !(falsy_nonempty u) by assumption.
  rewrite En, Eu. split_and!; reflexivity.
Qed.

Lemma includes_after_slash p s :
  startsWith p (utf16 "/" ++ s) = false ->
  includes p (utf16 "/" ++ s) = includes p s.
Proof.
  intros E. change (utf16 "/" ++ s) with (47%N :: s) in *.
  cbn [includes]. rewrite E. reflexivity.
Qed.

Lemma names_chat_api_leading_slash endpoint :
  names_chat_api (with_leading_slash endpoint) = names_chat_api endpoint.
Proof.
  unfold with_leading_slash, names_chat_api.
  destruct (startsWith (utf16 "/") endpoint); [reflexivity|].
  rewrite !includes_after_slash by reflexivity. reflexivity.
Qed.

Lemma with_leading_slash_idemp endpoint :
  with_leading_slash (with_leading_slash endpoint) = with_leading_slash endpoint.
Proof.
  unfold with_leading_slash. destruct (startsWith (utf16 "/") endpoint) eqn:E.
  - rewrite E. reflexivity.
  - reflexivity.
Qed.

(** X24: the two image generators read a configuration alike.  Whenever
    the OpenAI-compatible generator accepts a configuration, the Image
    API generator posts to the same address and makes the same choice
    between the chat API and the images API; without an endpoint both
    post to [/v1/images/generations] of the base address, and the short
    form [chat] selects the chat API at [/v1/chat/completions]. *)
Theorem generators_agree (config : GeneratorConfig.t) g :
  OpenAICompatibleGenerator.new config = inr g ->
  let g' := ImageApiGenerator.new config in
  OpenAICompatibleGenerator.request_url g = ImageApiGenerator.request_url g'
  /\ OpenAICompatibleGenerator.uses_chat_api g = ImageApiGenerator.uses_chat_api g'
  /\ (falsy (GeneratorConfig.endpoint_type config) = true ->
      OpenAICompatibleGenerator.uses_chat_api g = false
      /\ OpenAICompatibleGenerator.request_url g
         = OpenAICompatibleGenerator.baseUrl g ++ utf16 "/v1/images/generations")
  /\ (GeneratorConfig.endpoint_type config = Some (utf16 "chat") ->
      OpenAICompatibleGenerator.uses_chat_api g = true
      /\ OpenAICompatibleGenerator.request_url g
         = OpenAICompatibleGenerator.baseUrl g ++ utf16 "/v1/chat/completions").
Proof.
  unfold OpenAICompatibleGenerator.new.
  destruct (falsy (GeneratorConfig.api_key config)); [discriminate|].
  destruct (falsy (GeneratorConfig.base_url config)) eqn:Eb; [discriminate|].
  intros [= <-]. cbv zeta.
  unfold OpenAICompatibleGenerator.request_url, ImageApiGenerator.request_url,
    OpenAICompatibleGenerator.uses_chat_api, ImageApiGenerator.uses_chat_api,
    ImageApiGenerator.new.
  cbn [OpenAICompatibleGenerator.baseUrl OpenAICompatibleGenerator.endpointType
       ImageApiGenerator.baseUrl ImageApiGenerator.endpointType].
  split_and!.
  - f_equal. destruct (GeneratorConfig.base_url config) as [[|c b]|];
      try discriminate Eb. reflexivity.
  - symmetry. apply names_chat_api_leading_slash.
  - intros Ee.
    assert (E : resolve_endpoint (GeneratorConfig.endpoint_type config)
                = utf16 "/v1/images/generations").
    { destruct (GeneratorConfig.endpoint_type config) as [[|c e]|];
        [|discriminate Ee|]; vm_compute; reflexivity. }
    assert (E' : with_leading_slash (utf16 "/v1/images/generations")
                 = utf16 "/v1/images/generations") by (vm_compute; reflexivity).
    rewrite E, E'. split; [vm_compute|]; reflexivity.
  - intros ->.
    assert (E : resolve_endpoint (Some (utf16 "chat")) = utf16 "/v1/chat/completions")
      by (vm_compute; reflexivity).
    assert (E' : with_leading_slash (utf16 "/v1/chat/completions")
                 = utf16 "/v1/chat/completions") by (vm_compute; reflexivity).
    rewrite E, E'. split; [vm_compute|]; reflexivity.
Qed.

(** *** Choice of the provider *)

Lemma validate_provider_ok name (providerConfig cfg : GeneratorConfig.t) :
  validate_provider name providerConfig = inr cfg ->
  cfg = providerConfig
  /\ falsy (GeneratorConfig.api_key cfg) = false
  /\ (or_text (GeneratorConfig.type cfg) name
        ∈ [utf16 "openai"; utf16 "openai_compatible"; utf16 "image_api"] ->
      falsy (GeneratorConfig.base_url cfg) = false).
Proof.
  unfold validate_provider.
  destruct (falsy (GeneratorConfig.api_key providerConfig)) eqn:Ek; [discriminate|].
  destruct (bool_decide _ && falsy (GeneratorConfig.base_url providerConfig)) eqn:Eb;
    [discriminate|].
  intros [= <-]. split_and!; [reflexivity|exact Ek|].
  intros Hin. apply andb_false_iff in Eb as [Eb|Eb]; [|exact Eb].
  apply bool_decide_eq_false in Eb. contradiction.
Qed.

Lemma getImageProviderConfig_ok (config : ProvidersConfig)
    (providerName : option jsstring) cfg :
  getImageProviderConfig config providerName = inr cfg ->
  let name :=
    if falsy providerName then getActiveImageProvider config
    else or_text providerName [] in
  falsy (GeneratorConfig.api_key cfg) = false
  /\ (or_text (GeneratorConfig.type cfg) name
        ∈ [utf16 "openai"; utf16 "openai_compatible"; utf16 "image_api"] ->
      falsy (GeneratorConfig.base_url cfg) = false).
Proof.
  unfold getImageProviderConfig. cbv zeta.
  destruct (decide (default ∅ (providers config) = ∅)); [discriminate|].
  destruct (default ∅ (providers config) !! _) as [providerConfig|].
  - intros E. apply validate_provider_ok in E. tauto.
  - case_decide; [|discriminate]. intros E. apply validate_provider_ok in E. tauto.
Qed.

(** X28: a provider configuration that passes the validation of
    [getImageProviderConfig] is accepted by the constructor of its
    generator.  With the provider type [type || providerName] being one
    of the four registered types, the factory returns a generator of the
    class registered for it, and no constructor throws its "API key not
    configured" or "base URL not configured" error; the Image API
    generator passes its own [validateConfig] as well. *)
Theorem validated_config_constructs (config : ProvidersConfig)
    (providerName : option jsstring) cfg :
  getImageProviderConfig config providerName = inr cfg ->
  let name :=
    if falsy providerName then getActiveImageProvider config
    else or_text providerName [] in
  let providerType := or_text (GeneratorConfig.type cfg) name in
  (forall message, create providerType cfg <> inl (constructor_threw message))
  /\ (providerType = utf16 "google_genai" ->
      exists g, create providerType cfg = inr (google_genai g))
  /\ (providerType = utf16 "openai" \/ providerType = utf16 "openai_compatible" ->
      exists g, create providerType cfg = inr (openai_compatible g))
  /\ (providerType = utf16 "image_api" ->
      create providerType cfg = inr (image_api (ImageApiGenerator.new cfg))
      /\ ImageApiGenerator.validateConfig (ImageApiGenerator.new cfg) = inr true).
Proof.
  intros Hcfg name providerType.
  destruct (getImageProviderConfig_ok config providerName cfg Hcfg) as [Hkey Hbase].
  fold name in Hbase. fold providerType in Hbase.
  assert (Hgoogle : GoogleGenAIGenerator.new cfg
                    = inr (GoogleGenAIGenerator.mk
                             (or_text (GeneratorConfig.api_key cfg) []))).
  { unfold GoogleGenAIGenerator.new. rewrite Hkey. reflexivity. }
  assert (Hopenai : providerType = utf16 "openai"
                    \/ providerType = utf16 "openai_compatible" ->
                    exists g, OpenAICompatibleGenerator.new cfg = inr g).
  { intros Ht. unfold OpenAICompatibleGenerator.new. rewrite Hkey.
    rewrite Hbase; [eexists; reflexivity|].
    destruct Ht as [-> | ->]; [left|right; left]. }
  split_and!.
  - intros message. unfold create.
    destruct (decide (providerType = utf16 "google_genai")); [rewrite Hgoogle; discriminate|].
    destruct (decide (providerType = utf16 "openai"
                      \/ providerType = utf16 "openai_compatible")) as [Ht|];
      [destruct (Hopenai Ht) as [g ->]; discriminate|].
    repeat (case_decide; [discriminate|]). discriminate.
  - intros E. unfold create. rewrite decide_True by exact E. rewrite Hgoogle.
    eexists. reflexivity.
  - intros Ht. unfold create.
    rewrite decide_False by (destruct Ht as [-> | ->]; discriminate).
    rewrite decide_True by exact Ht.
    destruct (Hopenai Ht) as [g ->]. eexists. reflexivity.
  - intros E. split.
    + unfold create. rewrite E.
      rewrite decide_False by discriminate.
      rewrite decide_False by (intros [?|?]; discriminate).
      rewrite decide_True by reflexivity. reflexivity.
    + unfold ImageApiGenerator.validateConfig, ImageApiGenerator.new.
      cbn [ImageApiGenerator.apiKey]. rewrite Hkey. reflexivity.
Qed.

(** X29: the factory rejects a provider type as unsupported exactly when
    the type is neither one of the four registered names nor the name of
    a member of [Object.prototype].  For [constructor] it returns the
    configuration object, which is no generator; for the other inherited
    names [new] throws a [TypeError]. *)
Theorem create_unsupported (provider : jsstring) (config : GeneratorConfig.t) :
  (create provider config = inl (unsupported provider)
   <-> (provider ∉ [utf16 "google_genai"; utf16 "openai"; utf16 "openai_compatible";
                    utf16 "image_api"])
       /\ (provider ∉ Outline.object_prototype_keys))
  /\ (provider ∈ Outline.object_prototype_keys ->
      create provider config
      = if decide (provider = utf16 "constructor") then inr (plain_object config)
        else inl (not_a_constructor provider)).
Proof.
  assert (Hregistered :
            provider ∈ [utf16 "google_genai"; utf16 "openai"; utf16 "openai_compatible";
                        utf16 "image_api"]
            <-> provider = utf16 "google_genai"
                \/ (provider = utf16 "openai" \/ provider = utf16 "openai_compatible")
                \/ provider = utf16 "image_api").
  { rewrite !elem_of_cons, elem_of_nil. tauto. }
  assert (Hdisjoint :
            provider ∈ Outline.object_prototype_keys ->
            provider <> utf16 "google_genai"
            /\ ~ (provider = utf16 "openai" \/ provider = utf16 "openai_compatible")
            /\ provider <> utf16 "image_api").
  { intros Hin. split_and!; [intros ->|intros [-> | ->]|intros ->];
      revert Hin; apply (bool_decide_unpack _); vm_compute; exact I. }
  assert (Hconstructor : utf16 "constructor" ∈ Outline.object_prototype_keys)
    by (apply (bool_decide_unpack _); vm_compute; exact I).
  split.
  - unfold create. rewrite Hregistered.
    destruct (decide (provider = utf16 "google_genai")) as [Hg|Hg].
    { split; [|tauto]. destruct (GoogleGenAIGenerator.new config); discriminate. }
    destruct (decide (provider = utf16 "openai"
                      \/ provider = utf16 "openai_compatible")) as [Ho|Ho].
    { split; [|tauto]. destruct (OpenAICompatibleGenerator.new config); discriminate. }
    destruct (decide (provider = utf16 "image_api")) as [Hi|Hi].
    { split; [discriminate|tauto]. }
    destruct (decide (provider = utf16 "constructor")) as [Hc|Hc].
    { split; [discriminate|]. intros [_ Hp]. subst provider. contradiction. }
    destruct (decide (provider ∈ Outline.object_prototype_keys)) as [Hp|Hp].
    { split; [discriminate|tauto]. }
    split; [intros _|reflexivity]. tauto.
  - intros Hin. destruct (Hdisjoint Hin) as (Hg & Ho & Hi). unfold create.
    rewrite decide_False by exact Hg. rewrite decide_False by exact Ho.
    rewrite decide_False by exact Hi.
    destruct (decide (provider = utf16 "constructor")); [reflexivity|].
    rewrite decide_True by exact Hin. reflexivity.
Qed.

End ClientFacts.

Section RetryFacts429.
Import Client.
Context `{Platform} {Env A : Type}.
Variable originalMethod : Env -> (option string + A) * Env.
Variable sleep : nat -> Env -> Env.

Lemma retry_loop_bounded fuel attempt maxRetries baseDelay env :
  attempt + fuel = maxRetries -> 0 < fuel ->
  let res := retry_loop originalMethod sleep fuel attempt maxRetries baseDelay env in
  1 <= res.1.2 <= fuel /\ forall n, res.1.1 <> inl (exhausted n).
Proof.
  cbv zeta. revert attempt env.
  induction fuel as [|fuel IH]; intros attempt env Hsum Hpos; [lia|].
  cbn [retry_loop].
  destruct (originalMethod env) as [[message|value] env1].
  - destruct (rate_limited message && bool_decide (attempt < maxRetries - 1)) eqn:E.
    + apply andb_true_iff in E as [_ Hlt]. apply bool_decide_eq_true in Hlt.
      specialize (IH (S attempt) (sleep (baseDelay ^ attempt) env1) ltac:(lia) ltac:(lia)).
      destruct (retry_loop originalMethod sleep fuel (S attempt) maxRetries baseDelay
                  (sleep (baseDelay ^ attempt) env1)) as [[result calls] env2].
      cbn [fst snd] in *. destruct IH as [Hcalls Hres]. split; [lia|exact Hres].
    + cbn [fst snd]. split; [lia|discriminate].
  - cbn [fst snd]. split; [lia|discriminate].
Qed.

(** X25: the retry decorator of [generateText] calls the method at least
    once and at most [maxRetries] times, and it ends with what the method
    itself returned or threw: the error "still failing after the retries"
    is only made when [maxRetries] is 0, without any call.  An error that
    does not mention a rate limit is thrown again at once. *)
Theorem retryOn429_bounded maxRetries baseDelay env :
  let res := retryOn429 originalMethod sleep maxRetries baseDelay env in
  (0 < maxRetries ->
   1 <= res.1.2 <= maxRetries /\ forall n, res.1.1 <> inl (exhausted n))
  /\ (maxRetries = 0 -> res.1 = (inl (exhausted 0), 0))
  /\ (forall message env1,
        0 < maxRetries ->
        originalMethod env = (inl message, env1) ->
        rate_limited message = false ->
        res = (inl (original message), 1, env1)).
Proof.
  cbv zeta. unfold retryOn429. split_and!.
  - intros Hpos. apply retry_loop_bounded; [reflexivity|exact Hpos].
  - intros ->. reflexivity.
  - intros message env1 Hpos Hcall Hrate.
    destruct maxRetries as [|n]; [lia|]. cbn [retry_loop].
    rewrite Hcall, Hrate. reflexivity.
Qed.

End RetryFacts429.

Lemma base_url_spellings_witness :
  Client.TextChatClient.new (Some (utf16 "sk-test"))
    (Some (utf16 "https://api.example.org/v1//")) None
  = Client.TextChatClient.new (Some (utf16 "sk-test"))
      (Some (utf16 "https://api.example.org")) None.
Proof.
  destruct (base_url_spellings (utf16 "https://api.example.org") true 2
              None (Some (utf16 "sk-test")) None None) as (Htext & _).
  - discriminate.
  - vm_compute. discriminate.
  - intros v E. apply (f_equal reverse) in E. rewrite reverse_app in E.
    vm_compute in E. discriminate E.
  - exact Htext.
Defined.

Lemma generators_agree_witness :
  let config :=
    Client.GeneratorConfig.mk None (Some (utf16 "sk-test"))
      (Some (utf16 "https://api.example.org/v1")) None (Some (utf16 "chat")) in
  let g :=
    Client.OpenAICompatibleGenerator.mk (utf16 "sk-test")
      (utf16 "https://api.example.org") (utf16 "dall-e-3")
      (utf16 "/v1/chat/completions") in
  Client.OpenAICompatibleGenerator.request_url g
  = Client.ImageApiGenerator.request_url (Client.ImageApiGenerator.new config)
  /\ Client.OpenAICompatibleGenerator.uses_chat_api g = true.
Proof.
  intros config g.
  destruct (generators_agree config g) as (Hurl & _ & _ & Hchat).
  - vm_compute. reflexivity.
  - split; [exact Hurl|]. apply Hchat. reflexivity.
Defined.

Lemma validated_config_constructs_witness :
  let cfg :=
    Client.GeneratorConfig.mk (Some (utf16 "image_api")) (Some (utf16 "sk-test"))
      (Some (utf16 "https://api.example.org/v1")) None None in
  let config :=
    Client.mkProvidersConfig (Some (utf16 "banana")) (Some {[ utf16 "banana" := cfg ]}) in
  Client.service_generator config None
  = inr (Client.image_api (Client.ImageApiGenerator.new cfg)).
Proof.
  intros cfg config.
  destruct (validated_config_constructs config None cfg) as (_ & _ & _ & Himage).
  - vm_compute. reflexivity.
  - destruct Himage as [Hcreate _]; [vm_compute; reflexivity|].
    unfold Client.service_generator.
    assert (E : Client.getImageProviderConfig config
                  (Some (if Client.falsy None then Client.getActiveImageProvider config
                         else Client.or_text None [])) = inr cfg)
      by (vm_compute; reflexivity).
    cbv zeta. rewrite E. rewrite Hcreate. reflexivity.
Defined.

(* --------------------------------------------------------------------- *)
(** ** Settings routes: API keys *)
(* --------------------------------------------------------------------- *)

Section SettingsFacts.
Import Settings.

Implicit Types (p r : Provider) (P R : Providers) (name field : string).






(** The stored key after the loop body of [POST /config]. *)
Lemma mergeProvider_fields P name (newConfig : Provider) :
  let stored := mergeProvider P name newConfig in
  stored !! "api_key_masked" = None
  /\ stored !! "api_key_env" = None
  /\ (api_key_blank (newConfig !! "api_key") = false ->
      stored !! "api_key" = newConfig !! "api_key")
  /\ (api_key_blank (newConfig !! "api_key") = true ->
      stored !! "api_key"
      = match P !! name ≫= fun p => p !! "api_key" with
        | Some key => if truthy_value (Some key) then Some key else None
        | None => None
        end)
  /\ (forall field,
        field <> "api_key" -> field <> "api_key_env" -> field <> "api_key_masked" ->
        stored !! field = newConfig !! field).
Proof.
  cbv zeta. unfold mergeProvider. split_and!.
  - apply lookup_delete_eq.
  - rewrite lookup_delete_ne by discriminate. apply lookup_delete_eq.
  - intros ->. rewrite !lookup_delete_ne by discriminate. reflexivity.
  - intros ->. rewrite !lookup_delete_ne by discriminate.
    destruct (P !! name ≫= fun p => p !! "api_key") as [key|];
      [destruct (truthy_value (Some key))|];
      first [apply lookup_insert_eq | apply lookup_delete_eq].
  - intros field H1 H2 H3. rewrite !lookup_delete_ne by congruence.
    destruct (api_key_blank (newConfig !! "api_key")); [|reflexivity].
    destruct (P !! name ≫= fun p => p !! "api_key") as [key|];
      [destruct (truthy_value (Some key))|];
      first [rewrite lookup_insert_ne by congruence
            |rewrite lookup_delete_ne by congruence]; reflexivity.
Qed.

(** X27: what [POST /config] stores when the body names providers.  The
    stored providers are exactly the providers of the body: a provider
    the body does not name is deleted together with its key.  No stored
    provider has a field [api_key_masked] or [api_key_env].  A key that
    is sent (not [true], [false], empty, [null] or absent) is stored as
    sent; otherwise the provider keeps the truthy key stored under its
    name, if there is one, and has no key at all if there is none, so
    that neither [null] nor [false] nor an empty key is ever written. *)
Theorem postConfig_stored_keys (configFile : option ConfigDoc) (data : SectionData)
    (newProviders : Providers) :
  new_providers data = Some newProviders ->
  let existing := default ∅ (configFile ≫= providers) in
  exists P',
    providers (postConfig configFile data) = Some P'
    /\ (forall name, P' !! name = None <-> newProviders !! name = None)
    /\ (forall name newConfig,
          newProviders !! name = Some newConfig ->
          exists stored,
            P' !! name = Some stored
            /\ stored !! "api_key_masked" = None
            /\ stored !! "api_key_env" = None
            /\ (api_key_blank (newConfig !! "api_key") = false ->
                stored !! "api_key" = newConfig !! "api_key")
            /\ (api_key_blank (newConfig !! "api_key") = true ->
                stored !! "api_key"
                = match existing !! name ≫= fun p => p !! "api_key" with
                  | Some key => if truthy_value (Some key) then Some key else None
                  | None => None
                  end)
            /\ stored !! "api_key" <> Some s_null
            /\ stored !! "api_key" <> Some (s_bool false)
            /\ stored !! "api_key" <> Some (s_text [])).
Proof.
  intros Hnew. cbv zeta. unfold postConfig. rewrite Hnew.
  set (existing := default ∅ (configFile ≫= providers)).
  assert (Hexisting :
            default ∅ (providers
              (match new_active_provider data with
               | Some a =>
                 mkDoc (Some a) (providers (match configFile with
                                            | Some c => c
                                            | None => mkDoc None (Some ∅)
                                            end))
               | None => match configFile with
                         | Some c => c
                         | None => mkDoc None (Some ∅)
                         end
               end)) = existing).
  { subst existing. destruct (new_active_provider data), configFile; reflexivity. }
  cbv zeta. rewrite Hexisting. eexists. split; [reflexivity|]. split.
  - intros name. rewrite map_lookup_imap.
    destruct (newProviders !! name); cbn; split; congruence.
  - intros name newConfig Hname. exists (mergeProvider existing name newConfig).
    rewrite map_lookup_imap, Hname. cbn.
    destruct (mergeProvider_fields existing name newConfig)
      as (Hmasked & Henv & Hsent & Hkept & _).
    assert (Hstored : forall v,
               truthy_value (Some v) = false ->
               api_key_blank (Some v) = true ->
               mergeProvider existing name newConfig !! "api_key" <> Some v).
    { intros v Hfalsy Hblank.
      destruct (api_key_blank (newConfig !! "api_key")) eqn:Eb.
      - rewrite (Hkept eq_refl).
        destruct (existing !! name ≫= fun p => p !! "api_key") as [key|];
          [|discriminate].
        destruct (truthy_value (Some key)) eqn:Et; [|discriminate].
        intros [= ->]. congruence.
      - rewrite (Hsent eq_refl). intros E. rewrite E in Eb. congruence. }
    split_and!; auto; apply Hstored; reflexivity.
Qed.

End SettingsFacts.


Lemma postConfig_stored_keys_witness :
  let existing : Settings.Providers :=
    {[ "openai" := {[ "api_key" := Settings.s_text (utf16 "sk-old") ]};
       "other" := {[ "api_key" := Settings.s_text (utf16 "sk-other") ]} ]} in
  let body : Settings.Providers :=
    {[ "openai" := {[ "api_key" := Settings.s_bool true;
                      "api_key_masked" := Settings.s_text (utf16 "********") ]} ]} in
  exists P',
    Settings.providers
      (Settings.postConfig (Some (Settings.mkDoc None (Some existing)))
         (Settings.mkSection None (Some body))) = Some P'
    /\ P' !! "other" = None
    /\ P' !! "openai" ≫= (fun p => p !! "api_key")
       = Some (Settings.s_text (utf16 "sk-old")).
Proof.
  intros existing body.
  destruct (postConfig_stored_keys (Some (Settings.mkDoc None (Some existing)))
              (Settings.mkSection None (Some body)) body eq_refl)
    as (P' & HP' & Hdom & Hkeys).
  exists P'. split_and!.
  - exact HP'.
  - apply Hdom. vm_compute. reflexivity.
  - destruct (Hkeys "openai" {[ "api_key" := Settings.s_bool true;
                               "api_key_masked" := Settings.s_text (utf16 "********") ]})
      as (stored & Hstored & _ & _ & _ & Hkept & _); [vm_compute; reflexivity|].
    rewrite Hstored. cbn. rewrite Hkept; vm_compute; reflexivity.
Defined.
